(** * The 2p2c box Jacobian: storage, fluxes and the primary variable switch

    A shallow embedding of [TwoPTwoCBoxJacobianBase]
    (dumux/boxmodels/2p2c/2p2cboxjacobian.hh).

    - [Scalar] is the template's scalar type, taken here as the ordered
      field [Q] of rationals: sums, products and comparisons are exact.
    - A [Dune::FieldVector] or [std::vector] that the code writes by index
      is a [list]; an index outside the container is undefined behaviour
      in C++ and is [None] here.
    - The methods of the class thread the object (the static vertex data,
      the switch flag, the element data and the function-local static
      buffer of [primaryVarSwitch_]) as an explicit [Jacobian] value.
    - The streams of the restart files are those of the C++ library: an
      input stream is its state bits and the characters that are still
      to be read, and the formatted input of an [int] follows the C++
      standard. *)

From Stdlib Require Import QArith Lqa ZArith Bool List Lia String Ascii.
From Stdlib Require Import Decimal DecimalString DecimalPos.
From stdpp Require Import base option list.

Local Open Scope Q_scope.

(** ** Scalars and field vectors *)

Abbreviation Scalar := Q (only parsing).

(** [a > b] on scalars *)
Definition Qgt_bool (a b : Scalar) : bool := negb (Qle_bool a b).

(** [a < b] on scalars *)
Definition Qlt_bool (a b : Scalar) : bool := negb (Qle_bool b a).

(** [Dune::FieldVector<Scalar, n>] *)
Abbreviation FieldVector := (list Scalar) (only parsing).

(** [v = 0]: every entry is overwritten with zero *)
Definition fv_assign_zero (v : FieldVector) : FieldVector :=
  replicate (length v) 0.

(** [v[i] = x] *)
Definition fv_set (i : nat) (x : Scalar) (v : FieldVector) : option FieldVector :=
  _ ← v !! i; Some (<[i := x]> v).

(** [v[i] += x] *)
Definition fv_add_at (i : nat) (x : Scalar) (v : FieldVector) : option FieldVector :=
  old ← v !! i; Some (<[i := old + x]> v).

(** [v[i] -= x] *)
Definition fv_sub_at (i : nat) (x : Scalar) (v : FieldVector) : option FieldVector :=
  old ← v !! i; Some (<[i := old - x]> v).

(** [v *= k] *)
Definition fv_scale (k : Scalar) (v : FieldVector) : FieldVector :=
  (λ x, x * k) <$> v.

(** [a * b], the scalar product of two field vectors: the products of
    the entries are accumulated from zero. *)
Definition fv_dot (a b : FieldVector) : Scalar :=
  foldl (λ acc xy, acc + fst xy * snd xy) 0 (zip a b).

(** [for (i = 0; i < n; ++i) body(i)] on a value that an iteration may
    leave undefined *)
Definition for_loop {A : Type} (n : nat) (body : nat → A → option A) (a : A)
    : option A :=
  foldl (λ acc i, a' ← acc; body i a') (Some a) (seq 0 n).

Abbreviation PrimaryVarVector := (list Scalar) (only parsing).
Abbreviation GlobalPosition := (list Scalar) (only parsing).

(** [SolutionFunction]: the entry at [globalIdx] of the dereferenced
    [globalSol] is the vector of primary variables of a vertex. *)
Abbreviation SolutionFunction := (list (list Scalar)) (only parsing).

(** ** Compile time configuration *)

(** Modelled from the spec: the property values [NumPhases],
    [NumComponents] and [NumEq] of the type tag are not part of the
    source; the model is the two-phase, two-component one, with one
    mass balance per component. *)
Definition numPhases : nat := 2.
Definition numComponents : nat := 2.
Definition numEq : nat := 2.

(** The [Indices] class ([TwoPTwoCIndices]) is declared outside of this
    header; its constants are the fields of a record. *)
Record TwoPTwoCIndices : Type := {
  pressureIdx : nat;
  switchIdx : nat;
  wPhase : nat;
  nPhase : nat;
  wComp : nat;
  nComp : nat;
  wPhaseOnly : Z;
  nPhaseOnly : Z;
  bothPhases : Z;
  pWsN : Z;
  pNsW : Z;
  comp2Mass : nat → nat
}.

(** The two mass balance equations are distinct entries of a primary
    variable vector. *)
Definition mass_slots_ok (I : TwoPTwoCIndices) (c1 c2 : nat) : Prop :=
  (comp2Mass I c1 < numEq)%nat ∧ (comp2Mass I c2 < numEq)%nat ∧
  comp2Mass I c1 ≠ comp2Mass I c2.

(** The three phase states are distinct values. *)
Definition phase_states_distinct (I : TwoPTwoCIndices) : Prop :=
  nPhaseOnly I ≠ wPhaseOnly I ∧ nPhaseOnly I ≠ bothPhases I ∧
  wPhaseOnly I ≠ bothPhases I.

(** ** Data attached to the vertices *)

(** [VertexData]: the secondary variables of a vertex. The arrays are
    indexed by phase and component indices only. *)
Record VertexData : Type := {
  pressure : nat → Scalar;
  saturation : nat → Scalar;
  density : nat → Scalar;
  mobility : nat → Scalar;
  massfrac : nat → nat → Scalar;
  porosity : Scalar
}.

Abbreviation VertexDataArray := (list VertexData) (only parsing).

(** [StaticVertexData] *)
Record StaticVertexData : Type := {
  phaseState : Z;
  wasSwitched : bool;
  oldPhaseState : Z
}.

(** [FluxData]: the quantities at the integration point of a face *)
Record FluxData : Type := {
  upstreamIdx : nat → nat;
  downstreamIdx : nat → nat;
  vDarcyNormal : nat → Scalar;
  diffCoeffPM : nat → Scalar;
  densityAtIP : nat → Scalar;
  concentrationGrad : nat → FieldVector;
  face_normal : FieldVector
}.

(** A vertex of the grid view: its index in the degree of freedom mapper
    and the position of its corner. *)
Record Vertex : Type := {
  dofIndex : nat;
  corner0 : GlobalPosition
}.

(** What the switch prints on [std::cout] when a phase appears or
    disappears: the vertex, its position and the printed quantity. *)
Inductive SwitchEvent : Type :=
| WettingAppears
| NonWettingAppears
| NonWettingDisappears
| WettingDisappears.

Record SwitchMessage : Type := {
  msg_event : SwitchEvent;
  msg_vertex : nat;
  msg_pos : GlobalPosition;
  msg_value : Scalar
}.

(** The object: the members of the class and of its parent that the
    methods below touch, the function-local static [vertexData] of
    [primaryVarSwitch_], and the text written to [std::cout]. *)
Record Jacobian : Type := {
  staticVertexDat_ : list StaticVertexData;
  switchFlag_ : bool;
  curElemDat_ : VertexDataArray;
  prevElemDat_ : VertexDataArray;
  gridView_ : list Vertex;
  switch_vertexData : VertexData;
  cout : list SwitchMessage
}.

Definition set_staticVertexDat (d : list StaticVertexData) (J : Jacobian) : Jacobian :=
  {| staticVertexDat_ := d; switchFlag_ := switchFlag_ J;
     curElemDat_ := curElemDat_ J; prevElemDat_ := prevElemDat_ J;
     gridView_ := gridView_ J; switch_vertexData := switch_vertexData J;
     cout := cout J |}.

(** ** The collaborators of the class *)

(** What the methods ask of the problem: its temperature, the capillary
    pressure law, the solubility limits of the multicomponent relations. *)
Record Problem : Type := {
  problem_temperature : Scalar;
  materialLaw_pC : Scalar → GlobalPosition → Scalar → Scalar;
  multicomp_xWN : Scalar → Scalar → Scalar;
  multicomp_xAW : Scalar → Scalar → Scalar
}.

(** The update methods of [VertexData], which is declared outside of
    this header. Each one overwrites parts of the object it is called on. *)
Record VertexDataMethods : Type := {
  updateSaturations : PrimaryVarVector → Z → VertexData → VertexData;
  updatePressures : PrimaryVarVector → Scalar → VertexData → VertexData;
  updateMassFracs : PrimaryVarVector → Z → Scalar → VertexData → VertexData
}.

(** ** Storage term *)

Section Storage.
Variable I : TwoPTwoCIndices.

(** the body of the inner loop of [computeStorage] *)
Definition storage_add (vertDat : VertexData) (phaseIdx compIdx : nat)
    (result : PrimaryVarVector) : option PrimaryVarVector :=
  fv_add_at (comp2Mass I compIdx)
    (density vertDat phaseIdx * saturation vertDat phaseIdx *
     massfrac vertDat compIdx phaseIdx) result.

Definition computeStorage (J : Jacobian) (result : PrimaryVarVector)
    (scvIdx : nat) (usePrevSol : bool) : option PrimaryVarVector :=
  let elemDat := if usePrevSol then prevElemDat_ J else curElemDat_ J in
  vertDat ← elemDat !! scvIdx;
  let result := fv_assign_zero result in
  result ← for_loop numPhases (λ phaseIdx result,
              for_loop numComponents (λ compIdx result,
                storage_add vertDat phaseIdx compIdx result) result) result;
  Some (fv_scale (porosity vertDat) result).
End Storage.

(** ** Fluxes over a face *)

Section Flux.
Variable I : TwoPTwoCIndices.
Variable mobilityUpwindAlpha : Scalar.

(** the body of the inner loop of [computeAdvectiveFlux] *)
Definition advective_add (vars : FluxData) (up dn : VertexData)
    (phaseIdx compIdx : nat) (flux : PrimaryVarVector)
    : option PrimaryVarVector :=
  flux ← (if Qgt_bool mobilityUpwindAlpha 0 then
            fv_add_at (comp2Mass I compIdx)
              (vDarcyNormal vars phaseIdx * mobilityUpwindAlpha *
               (density up phaseIdx * mobility up phaseIdx *
                massfrac up compIdx phaseIdx)) flux
          else Some flux);
  if Qlt_bool mobilityUpwindAlpha 1 then
    fv_add_at (comp2Mass I compIdx)
      (vDarcyNormal vars phaseIdx * (1 - mobilityUpwindAlpha) *
       (density dn phaseIdx * mobility dn phaseIdx *
        massfrac dn compIdx phaseIdx)) flux
  else Some flux.

Definition computeAdvectiveFlux (J : Jacobian) (flux : PrimaryVarVector)
    (vars : FluxData) : option PrimaryVarVector :=
  for_loop numPhases (λ phaseIdx flux,
    up ← curElemDat_ J !! upstreamIdx vars phaseIdx;
    dn ← curElemDat_ J !! downstreamIdx vars phaseIdx;
    for_loop numComponents (λ compIdx flux,
      advective_add vars up dn phaseIdx compIdx flux) flux) flux.

(** the scalar [tmp] of [computeDiffusiveFlux] for a phase *)
Definition diffusive_term (vars : FluxData) (phaseIdx : nat) : Scalar :=
  diffCoeffPM vars phaseIdx * densityAtIP vars phaseIdx *
  fv_dot (concentrationGrad vars phaseIdx) (face_normal vars).

Definition computeDiffusiveFlux (flux : PrimaryVarVector) (vars : FluxData)
    : option PrimaryVarVector :=
  let tmp := diffusive_term vars (wPhase I) in
  flux ← fv_add_at (comp2Mass I (nComp I)) tmp flux;
  flux ← fv_sub_at (comp2Mass I (wComp I)) tmp flux;
  let tmp := diffusive_term vars (nPhase I) in
  flux ← fv_add_at (comp2Mass I (wComp I)) tmp flux;
  fv_sub_at (comp2Mass I (nComp I)) tmp flux.

(** [computeFlux]; the constructor of [FluxData] belongs to another
    header and is the parameter [mkFluxData]. *)
Definition computeFlux (mkFluxData : Jacobian → nat → FluxData)
    (J : Jacobian) (flux : PrimaryVarVector) (faceIdx : nat)
    : option PrimaryVarVector :=
  let vars := mkFluxData J faceIdx in
  let flux := fv_assign_zero flux in
  flux ← computeAdvectiveFlux J flux vars;
  computeDiffusiveFlux flux vars.
End Flux.

(** The formulas of the advective flux in words: the mass of a component
    that a phase carries at a vertex, and the flux of the component over
    the face for an upwind weight [alpha], summed over the two phases. *)
Definition carried_mass (vd : VertexData) (phaseIdx compIdx : nat) : Scalar :=
  density vd phaseIdx * mobility vd phaseIdx * massfrac vd compIdx phaseIdx.

Definition weighted_advective_flux (alpha : Scalar) (vars : FluxData)
    (up dn : nat → VertexData) (compIdx : nat) : Scalar :=
  vDarcyNormal vars 0 * (alpha * carried_mass (up 0%nat) 0 compIdx +
                         (1 - alpha) * carried_mass (dn 0%nat) 0 compIdx) +
  vDarcyNormal vars 1 * (alpha * carried_mass (up 1%nat) 1 compIdx +
                         (1 - alpha) * carried_mass (dn 1%nat) 1 compIdx).

Definition upstream_advective_flux (vars : FluxData) (up : nat → VertexData)
    (compIdx : nat) : Scalar :=
  vDarcyNormal vars 0 * carried_mass (up 0%nat) 0 compIdx +
  vDarcyNormal vars 1 * carried_mass (up 1%nat) 1 compIdx.

Definition downstream_advective_flux (vars : FluxData) (dn : nat → VertexData)
    (compIdx : nat) : Scalar :=
  vDarcyNormal vars 0 * carried_mass (dn 0%nat) 0 compIdx +
  vDarcyNormal vars 1 * carried_mass (dn 1%nat) 1 compIdx.

(** The diffusive scalar of a phase in words: the diffusion coefficient
    times the density times the scalar product of the concentration
    gradient with the normal of the face, which is the sum of the
    products of their coordinates. *)
Fixpoint scalar_product (a b : FieldVector) : Scalar :=
  match a, b with
  | x :: a', y :: b' => x * y + scalar_product a' b'
  | _, _ => 0
  end.

Definition diffusive_scalar (vars : FluxData) (phaseIdx : nat) : Scalar :=
  diffCoeffPM vars phaseIdx *
  (densityAtIP vars phaseIdx *
   scalar_product (concentrationGrad vars phaseIdx) (face_normal vars)).

(** ** The phase state of the vertices *)

(** [staticVertexDat_[i].phaseState = v] *)
Definition set_phaseState (v : Z) (d : StaticVertexData) : StaticVertexData :=
  {| phaseState := v; wasSwitched := wasSwitched d;
     oldPhaseState := oldPhaseState d |}.

(** [staticVertexDat_[i].wasSwitched = b] *)
Definition set_wasSwitched (b : bool) (d : StaticVertexData) : StaticVertexData :=
  {| phaseState := phaseState d; wasSwitched := b;
     oldPhaseState := oldPhaseState d |}.

(** [staticVertexDat_[i].oldPhaseState = v] *)
Definition set_oldPhaseState (v : Z) (d : StaticVertexData) : StaticVertexData :=
  {| phaseState := phaseState d; wasSwitched := wasSwitched d;
     oldPhaseState := v |}.

(** an assignment to the entry [i] of [staticVertexDat_] *)
Definition modify_static (i : nat) (f : StaticVertexData → StaticVertexData)
    (dat : list StaticVertexData) : option (list StaticVertexData) :=
  d ← dat !! i; Some (<[i := f d]> dat).

(** [gridView_.size(dim)] *)
Definition numVertices (J : Jacobian) : nat := length (gridView_ J).

Definition updateOldPhaseState (J : Jacobian) : option Jacobian :=
  dat ← for_loop (numVertices J) (λ i dat,
           dat ← modify_static i (λ d, set_oldPhaseState (phaseState d) d) dat;
           modify_static i (set_wasSwitched false) dat)
         (staticVertexDat_ J);
  Some (set_staticVertexDat dat J).

(** [phaseState(globalVertexIdx, oldSol)] *)
Definition phaseState_of (J : Jacobian) (globalVertexIdx : nat) (oldSol : bool)
    : option Z :=
  d ← staticVertexDat_ J !! globalVertexIdx;
  Some (if oldSol then oldPhaseState d else phaseState d).

Definition resetPhaseState (J : Jacobian) : option Jacobian :=
  dat ← for_loop (numVertices J) (λ i dat,
           modify_static i (λ d, set_phaseState (oldPhaseState d) d) dat)
         (staticVertexDat_ J);
  Some (set_staticVertexDat dat J).

Definition switched (J : Jacobian) : bool := switchFlag_ J.

Definition setSwitched (yesno : bool) (J : Jacobian) : Jacobian :=
  {| staticVertexDat_ := staticVertexDat_ J; switchFlag_ := yesno;
     curElemDat_ := curElemDat_ J; prevElemDat_ := prevElemDat_ J;
     gridView_ := gridView_ J; switch_vertexData := switch_vertexData J;
     cout := cout J |}.

(** ** The primary variable switch *)

Section Switch.
Variable I : TwoPTwoCIndices.
Variable formulation : Z.
Variable P : Problem.
Variable V : VertexDataMethods.

(** [temperature(sol)]: the temperature of the problem, whatever the
    primary variables are *)
Definition temperature (sol : PrimaryVarVector) : Scalar :=
  problem_temperature P.

(** the assignment to the switch entry of the vertex [globalIdx] of the
    dereferenced [globalSol] *)
Definition set_switch_var (globalIdx : nat) (x : Scalar)
    (globalSol : SolutionFunction) : option SolutionFunction :=
  sol ← globalSol !! globalIdx;
  sol ← fv_set (switchIdx I) x sol;
  Some (<[globalIdx := sol]> globalSol).

(** the assignment in the branches where a phase appears: it depends
    on the formulation, and there is none for an unknown formulation *)
Definition set_switch_appear (globalIdx : nat) (if_pNsW if_pWsN : Scalar)
    (globalSol : SolutionFunction) : option SolutionFunction :=
  if (formulation =? pNsW I)%Z then set_switch_var globalIdx if_pNsW globalSol
  else if (formulation =? pWsN I)%Z then set_switch_var globalIdx if_pWsN globalSol
  else Some globalSol.

(** The local variables of [primaryVarSwitch_] that its branches
    assign, with the solution and the output they write to. *)
Record SwitchLocals : Type := {
  wouldSwitch : bool;
  newPhaseState : Z;
  sw_globalSol : SolutionFunction;
  sw_cout : list SwitchMessage
}.

(** The secondary variables that [primaryVarSwitch_] computes in its
    static buffer before the checks. *)
Definition switch_update_vertexData (vertexData : VertexData)
    (sol : PrimaryVarVector) (phaseState : Z) (globalPos : GlobalPosition)
    : VertexData :=
  let temperature := temperature sol in
  let vertexData := updateSaturations V sol phaseState vertexData in
  let pC := materialLaw_pC P (saturation vertexData (wPhase I)) globalPos
              temperature in
  let vertexData := updatePressures V sol pC vertexData in
  updateMassFracs V sol phaseState temperature vertexData.

(** The checks of [primaryVarSwitch_], from the values of the locals at
    their declaration. *)
Definition switch_checks (vertexData : VertexData) (temperature : Scalar)
    (phaseState : Z) (wasSw : bool) (globalIdx : nat)
    (globalPos : GlobalPosition) (globalSol : SolutionFunction)
    (out : list SwitchMessage) : option SwitchLocals :=
  if (phaseState =? nPhaseOnly I)%Z then
    let xWNmax := multicomp_xWN P (pressure vertexData (nPhase I)) temperature in
    let wouldSwitch :=
      if Qgt_bool (massfrac vertexData (wComp I) (nPhase I)) xWNmax
      then true else false in
    let xWNmax := if wasSw then xWNmax * (1 + (1 # 100)) else xWNmax in
    if Qgt_bool (massfrac vertexData (wComp I) (nPhase I)) xWNmax then
      (* wetting phase appears *)
      let out := out ++ [ {| msg_event := WettingAppears;
                             msg_vertex := globalIdx; msg_pos := globalPos;
                             msg_value := massfrac vertexData (wComp I) (nPhase I)
                                          / xWNmax |} ] in
      globalSol ← set_switch_appear globalIdx 0 1 globalSol;
      Some {| wouldSwitch := wouldSwitch; newPhaseState := bothPhases I;
              sw_globalSol := globalSol; sw_cout := out |}
    else
      Some {| wouldSwitch := wouldSwitch; newPhaseState := phaseState;
              sw_globalSol := globalSol; sw_cout := out |}
  else if (phaseState =? wPhaseOnly I)%Z then
    let xAWmax := multicomp_xAW P (pressure vertexData (wPhase I)) temperature in
    let wouldSwitch :=
      if Qgt_bool (massfrac vertexData (nComp I) (wPhase I)) xAWmax
      then true else false in
    let xAWmax := if wasSw then xAWmax * (1 + (1 # 100)) else xAWmax in
    if Qgt_bool (massfrac vertexData (nComp I) (wPhase I)) xAWmax then
      (* non-wetting phase appears *)
      let out := out ++ [ {| msg_event := NonWettingAppears;
                             msg_vertex := globalIdx; msg_pos := globalPos;
                             msg_value := massfrac vertexData (nComp I) (wPhase I)
                                          / xAWmax |} ] in
      globalSol ← set_switch_appear globalIdx 1 0 globalSol;
      Some {| wouldSwitch := wouldSwitch; newPhaseState := bothPhases I;
              sw_globalSol := globalSol; sw_cout := out |}
    else
      Some {| wouldSwitch := wouldSwitch; newPhaseState := phaseState;
              sw_globalSol := globalSol; sw_cout := out |}
  else if (phaseState =? bothPhases I)%Z then
    let Smin : Scalar := 0 in
    if Qle_bool (saturation vertexData (nPhase I)) Smin then
      (* non-wetting phase disappears *)
      let out := out ++ [ {| msg_event := NonWettingDisappears;
                             msg_vertex := globalIdx; msg_pos := globalPos;
                             msg_value := saturation vertexData (nPhase I) |} ] in
      globalSol ← set_switch_var globalIdx
                    (multicomp_xAW P (pressure vertexData (nPhase I)) temperature)
                    globalSol;
      Some {| wouldSwitch := true; newPhaseState := wPhaseOnly I;
              sw_globalSol := globalSol; sw_cout := out |}
    else if Qle_bool (saturation vertexData (wPhase I)) Smin then
      (* wetting phase disappears *)
      let out := out ++ [ {| msg_event := WettingDisappears;
                             msg_vertex := globalIdx; msg_pos := globalPos;
                             msg_value := saturation vertexData (wPhase I) |} ] in
      globalSol ← set_switch_var globalIdx
                    (multicomp_xWN P (pressure vertexData (nPhase I)) temperature)
                    globalSol;
      Some {| wouldSwitch := true; newPhaseState := nPhaseOnly I;
              sw_globalSol := globalSol; sw_cout := out |}
    else
      Some {| wouldSwitch := false; newPhaseState := phaseState;
              sw_globalSol := globalSol; sw_cout := out |}
  else
    Some {| wouldSwitch := false; newPhaseState := phaseState;
            sw_globalSol := globalSol; sw_cout := out |}.

(** [primaryVarSwitch_]: the value returned, the solution and the
    object after the call. *)
Definition primaryVarSwitch_ (J : Jacobian) (globalSol : SolutionFunction)
    (globalIdx : nat) (globalPos : GlobalPosition)
    : option (bool * SolutionFunction * Jacobian) :=
  d ← staticVertexDat_ J !! globalIdx;
  let phaseState := phaseState d in
  sol ← globalSol !! globalIdx;
  let temperature := temperature sol in
  let vertexData :=
    switch_update_vertexData (switch_vertexData J) sol phaseState globalPos in
  loc ← switch_checks vertexData temperature phaseState (wasSwitched d)
          globalIdx globalPos globalSol (cout J);
  dat ← modify_static globalIdx (set_phaseState (newPhaseState loc))
          (staticVertexDat_ J);
  dat ← modify_static globalIdx (set_wasSwitched (wouldSwitch loc)) dat;
  Some (negb (phaseState =? newPhaseState loc)%Z,
        sw_globalSol loc,
        {| staticVertexDat_ := dat; switchFlag_ := switchFlag_ J;
           curElemDat_ := curElemDat_ J; prevElemDat_ := prevElemDat_ J;
           gridView_ := gridView_ J; switch_vertexData := vertexData;
           cout := sw_cout loc |}).

(** The object after a call, from the locals that the checks leave. *)
Definition switch_result (J : Jacobian) (globalIdx : nat) (d : StaticVertexData)
    (vertexData : VertexData) (loc : SwitchLocals)
    : bool * SolutionFunction * Jacobian :=
  (negb (phaseState d =? newPhaseState loc)%Z,
   sw_globalSol loc,
   {| staticVertexDat_ :=
        <[globalIdx := {| phaseState := newPhaseState loc;
                          wasSwitched := wouldSwitch loc;
                          oldPhaseState := oldPhaseState d |}]>
          (staticVertexDat_ J);
      switchFlag_ := switchFlag_ J;
      curElemDat_ := curElemDat_ J; prevElemDat_ := prevElemDat_ J;
      gridView_ := gridView_ J; switch_vertexData := vertexData;
      cout := sw_cout loc |}).

(** What a branch of the switch may do to the solution: nothing, or an
    assignment to the switch entry of the vertex. *)
Inductive switch_write (globalSol : SolutionFunction) (globalIdx : nat)
    (sol : PrimaryVarVector) : SolutionFunction → Prop :=
| write_none : switch_write globalSol globalIdx sol globalSol
| write_switch (x : Scalar) :
    switch_write globalSol globalIdx sol
      (<[globalIdx := <[switchIdx I := x]> sol]> globalSol).

(** The objects that evaluations of the switch lead to: any number of
    calls, for any vertices and any solutions. *)
Inductive tentative_switches : Jacobian → Jacobian → Prop :=
| tentative_none (J : Jacobian) : tentative_switches J J
| tentative_step (J J' J'' : Jacobian) (globalSol globalSol' : SolutionFunction)
    (globalIdx : nat) (globalPos : GlobalPosition) (r : bool) :
    primaryVarSwitch_ J globalSol globalIdx globalPos = Some (r, globalSol', J') →
    tentative_switches J' J'' →
    tentative_switches J J''.

(** the loop of [updateStaticData] over the vertices of the grid view *)
Fixpoint switch_vertices (verts : list Vertex) (wasSw : bool)
    (curGlobalSol : SolutionFunction) (J : Jacobian)
    : option (bool * SolutionFunction * Jacobian) :=
  match verts with
  | [] => Some (wasSw, curGlobalSol, J)
  | it :: verts' =>
      let globalIdx := dofIndex it in
      let global := corner0 it in
      '(r, curGlobalSol, J) ← primaryVarSwitch_ J curGlobalSol globalIdx global;
      switch_vertices verts' (r || wasSw) curGlobalSol J
  end.

(** What the calls of the switch in this loop return, in the order of
    the visit. *)
Fixpoint switch_returns (verts : list Vertex) (curGlobalSol : SolutionFunction)
    (J : Jacobian) : option (list bool) :=
  match verts with
  | [] => Some []
  | it :: verts' =>
      '(r, curGlobalSol, J) ← primaryVarSwitch_ J curGlobalSol (dofIndex it)
                                (corner0 it);
      rs ← switch_returns verts' curGlobalSol J;
      Some (r :: rs)
  end.

(** A vertex has its static data and its primary variables, with a
    switch entry. *)
Definition vertex_in_range (J : Jacobian) (globalSol : SolutionFunction)
    (v : Vertex) : Prop :=
  (dofIndex v < length (staticVertexDat_ J))%nat ∧
  ∃ sol, globalSol !! dofIndex v = Some sol ∧ (switchIdx I < length sol)%nat.

(** A partition of the grid: the object of its process and its part of
    the solution, which cover the vertices of its grid view. *)
Definition partition_ok (p : Jacobian * SolutionFunction) : Prop :=
  Forall (vertex_in_range (fst p) (snd p)) (gridView_ (fst p)).

(** [updateStaticData] up to the reduction over the partitions: the
    flag of this partition *)
Definition updateStaticData_local (J : Jacobian) (curGlobalSol : SolutionFunction)
    : option (bool * SolutionFunction * Jacobian) :=
  switch_vertices (gridView_ J) false curGlobalSol J.

(** [gridView_.comm().max(b)]: the collective communication returns, on
    every partition, the maximum of the values that the partitions
    contribute; on booleans, [false < true]. *)
Definition bool_lt (a b : bool) : bool := negb a && b.

Definition bool_max (a b : bool) : bool := if bool_lt a b then b else a.

Definition comm_max (contributions : list bool) : bool :=
  foldr bool_max false contributions.

(** [updateStaticData] with the value that the reduction returned *)
Definition updateStaticData_finish (reduced : bool) (J : Jacobian) : Jacobian :=
  setSwitched reduced J.

(** [updateStaticData] run by all the partitions of the grid: each one
    visits its vertices, the flags meet in the reduction, each one
    stores what the reduction returns. *)
Definition updateStaticData_all (parts : list (Jacobian * SolutionFunction))
    : option (list (Jacobian * SolutionFunction)) :=
  locals ← mapM (λ p, updateStaticData_local (fst p) (snd p)) parts;
  let reduced := comm_max ((λ r, fst (fst r)) <$> locals) in
  Some ((λ r, (updateStaticData_finish reduced (snd r), snd (fst r))) <$> locals).

(** [updateStaticData] on a grid with one partition *)
Definition updateStaticData (J : Jacobian) (curGlobalSol oldGlobalSol : SolutionFunction)
    : option (SolutionFunction * Jacobian) :=
  '(wasSw, curGlobalSol, J) ← updateStaticData_local J curGlobalSol;
  let wasSw := comm_max [wasSw] in
  Some (curGlobalSol, setSwitched wasSw J).
End Switch.

(** The transitions of the phase state of a vertex. *)
Inductive phase_transition (I : TwoPTwoCIndices) : Z → Z → Prop :=
| wetting_appears : phase_transition I (nPhaseOnly I) (bothPhases I)
| nonwetting_appears : phase_transition I (wPhaseOnly I) (bothPhases I)
| nonwetting_disappears : phase_transition I (bothPhases I) (wPhaseOnly I)
| wetting_disappears : phase_transition I (bothPhases I) (nPhaseOnly I).

(** ** The thresholds of the switch, in words *)

Section SwitchWords.
Variable I : TwoPTwoCIndices.
Variable P : Problem.

(** The solubility limit that a check applies: scaled by [1.01] when
    the vertex was marked as switched by the evaluation before. *)
Definition applicable_limit (wasSw : bool) (xmax : Scalar) : Scalar :=
  if wasSw then xmax * (1 + (1 # 100)) else xmax.

(** In a state with one phase: the dissolved mass fraction that the
    switch looks at and the solubility limit it is compared to. *)
Inductive single_phase_check (vertexData : VertexData) (temperature : Scalar)
    (phaseState : Z) (x xmax : Scalar) : Prop :=
| check_nPhaseOnly :
    phaseState = nPhaseOnly I →
    x = massfrac vertexData (wComp I) (nPhase I) →
    xmax = multicomp_xWN P (pressure vertexData (nPhase I)) temperature →
    single_phase_check vertexData temperature phaseState x xmax
| check_wPhaseOnly :
    phaseState = wPhaseOnly I →
    x = massfrac vertexData (nComp I) (wPhase I) →
    xmax = multicomp_xAW P (pressure vertexData (wPhase I)) temperature →
    single_phase_check vertexData temperature phaseState x xmax.

(** No threshold of the switch is crossed: with one phase, the
    dissolved mass fraction is not above the applicable solubility
    limit; with both phases, both saturations are positive. *)
Definition no_threshold_crossed (vertexData : VertexData) (temperature : Scalar)
    (phaseState : Z) (wasSw : bool) : Prop :=
  (∀ x xmax, single_phase_check vertexData temperature phaseState x xmax →
             x <= applicable_limit wasSw xmax) ∧
  (phaseState = bothPhases I →
     0 < saturation vertexData (nPhase I) ∧
     0 < saturation vertexData (wPhase I)).
End SwitchWords.

(** ** Restart files *)

(** The stream library of C++ is not part of the repository. Streams
    are modelled the way the C++ standard (since C++11) describes them:
    the state bits of [std::ios_base::iostate], and for an input stream
    the characters that have not been read yet. The exception mask of a
    stream is empty, as it is unless a caller sets it: a failure sets
    state bits and throws nothing. *)
Record iostate : Type := {
  eofbit : bool;
  failbit : bool;
  badbit : bool
}.

Definition goodbit : iostate :=
  {| eofbit := false; failbit := false; badbit := false |}.

(** [setstate]: bits are added to the state, none is cleared *)
Definition setstate (eof fail : bool) (state : iostate) : iostate :=
  {| eofbit := eofbit state || eof;
     failbit := failbit state || fail;
     badbit := badbit state |}.

Record istream : Type := {
  is_state : iostate;
  is_text : list ascii
}.

(** [inStream.good()]: no bit of the state is set *)
Definition is_good (inStream : istream) : bool :=
  negb (eofbit (is_state inStream) || failbit (is_state inStream)
        || badbit (is_state inStream)).

(** What [operator<<] has put into an output stream. *)
Inductive OutItem : Type :=
| OutInt (z : Z)
| OutText (s : string).

Record ostream : Type := {
  os_good : bool;
  os_written : list OutItem
}.

(** [DUNE_THROW(IOError, text << vertIdx)] *)
Inductive Exception : Type :=
| IOError (text : string) (vertIdx : nat).

(** How a call ends: it returns, or an exception leaves it. *)
Inductive Completion : Type :=
| Returns
| Throws (e : Exception).

(** [std::isspace] and [std::isdigit] in the classic locale: the blank
    and the control characters from the tabulator to the carriage
    return; the decimal digits. *)
Definition isspace (c : ascii) : bool :=
  let n := nat_of_ascii c in
  (n =? 32)%nat || ((9 <=? n)%nat && (n <=? 13)%nat).

Definition isdigit (c : ascii) : bool :=
  let n := nat_of_ascii c in (48 <=? n)%nat && (n <=? 57)%nat.

Definition digit_value (c : ascii) : Z := (Z.of_nat (nat_of_ascii c) - 48)%Z.

(** the white space that a formatted input skips first *)
Fixpoint skip_ws (text : list ascii) : list ascii :=
  match text with
  | c :: text' => if isspace c then skip_ws text' else text
  | [] => []
  end.

(** the digits at the head of a text, and the text behind them *)
Fixpoint take_digits (text : list ascii) : list ascii * list ascii :=
  match text with
  | c :: text' =>
      if isdigit c then
        let '(digits, rest) := take_digits text' in (c :: digits, rest)
      else ([], text)
  | [] => ([], [])
  end.

(** the number that a sequence of decimal digits denotes *)
Definition decimal_value (digits : list ascii) : Z :=
  foldl (λ acc c, 10 * acc + digit_value c)%Z 0%Z digits.

(** the least and the largest [int] *)
Definition INT_MIN : Z := (- 2 ^ 31)%Z.
Definition INT_MAX : Z := (2 ^ 31 - 1)%Z.

Definition fits_int (z : Z) : bool := (INT_MIN <=? z)%Z && (z <=? INT_MAX)%Z.

(** [inStream >> x] for an [int] [x]. A stream that is not good fails
    and reads nothing. Otherwise white space is skipped; at the end of
    the text the stream fails with [eofbit] and [failbit] and [x] keeps
    its value. Else a sign and the digits that follow are taken out of
    the stream, and [eofbit] is set when they reach the end of the
    text. Without a digit the stream fails and [x] becomes zero; a
    number that is no [int] makes the stream fail and [x] the nearest
    [int]; any other number is stored in [x]. *)
Definition extract_int (inStream : istream) (x : Z) : Z * istream :=
  let state := is_state inStream in
  if negb (is_good inStream) then
    (x, {| is_state := setstate false true state; is_text := is_text inStream |})
  else
    match skip_ws (is_text inStream) with
    | [] => (x, {| is_state := setstate true true state; is_text := [] |})
    | c :: text' =>
        let negative := Ascii.eqb c "-" in
        let signed := negative || Ascii.eqb c "+" in
        let '(digits, rest) := take_digits (if signed then text' else c :: text') in
        let eof := match rest with [] => true | _ :: _ => false end in
        match digits with
        | [] => (0%Z, {| is_state := setstate eof true state; is_text := rest |})
        | _ :: _ =>
            let v := if negative then (- decimal_value digits)%Z
                     else decimal_value digits in
            if (v <? INT_MIN)%Z then
              (INT_MIN, {| is_state := setstate eof true state; is_text := rest |})
            else if (INT_MAX <? v)%Z then
              (INT_MAX, {| is_state := setstate eof true state; is_text := rest |})
            else (v, {| is_state := setstate eof false state; is_text := rest |})
        end
    end.

(** [outStream << item] on a stream that is good *)
Definition put (item : OutItem) (outStream : ostream) : ostream :=
  {| os_good := os_good outStream;
     os_written := os_written outStream ++ [item] |}.

Definition deserializeEntity (J : Jacobian) (inStream : istream) (vert : Vertex)
    : option (Completion * istream * Jacobian) :=
  let vertIdx := dofIndex vert in
  (* read phase state *)
  if negb (is_good inStream) then
    Some (Throws (IOError "Could not deserialize vertex " vertIdx), inStream, J)
  else
    d ← staticVertexDat_ J !! vertIdx;
    let '(z, inStream) := extract_int inStream (phaseState d) in
    dat ← modify_static vertIdx (set_phaseState z) (staticVertexDat_ J);
    dat ← modify_static vertIdx (λ d, set_oldPhaseState (phaseState d) d) dat;
    Some (Returns, inStream, set_staticVertexDat dat J).

Definition serializeEntity (J : Jacobian) (outStream : ostream) (vert : Vertex)
    : option (Completion * ostream * Jacobian) :=
  let vertIdx := dofIndex vert in
  if negb (os_good outStream) then
    Some (Throws (IOError "Could not serialize vertex " vertIdx), outStream, J)
  else
    d ← staticVertexDat_ J !! vertIdx;
    Some (Returns, put (OutText " ") (put (OutInt (phaseState d)) outStream), J).

(** An integer in a text, in words: an optional sign before at least
    one decimal digit, and the number that it denotes. *)
Definition int_literal (lit : list ascii) (z : Z) : Prop :=
  ∃ digits, digits ≠ [] ∧ Forall (λ c, isdigit c = true) digits ∧
    (lit = digits ∧ z = decimal_value digits ∨
     lit = "+"%char :: digits ∧ z = decimal_value digits ∨
     lit = "-"%char :: digits ∧ z = (- decimal_value digits)%Z).

(** The text behind an integer does not go on with a digit. *)
Definition next_no_digit (rest : list ascii) : Prop :=
  match rest with
  | c :: _ => isdigit c = false
  | [] => True
  end.

(** An integer is what comes next in a text, behind white space. *)
Definition next_is_integer (text : list ascii) : Prop :=
  ∃ ws lit z rest, text = ws ++ lit ++ rest ∧
    Forall (λ c, isspace c = true) ws ∧ int_literal lit z.

(** The [int] that is nearest to a number. *)
Definition int_clamp (v : Z) : Z :=
  if (v <? INT_MIN)%Z then INT_MIN else if (INT_MAX <? v)%Z then INT_MAX else v.

(** Between two states of a stream exactly one integer was read: white
    space and the integer [z] are gone from the head of the text. *)
Definition reads_integer (inStream inStream' : istream) (z : Z) : Prop :=
  ∃ ws lit, is_text inStream = ws ++ lit ++ is_text inStream' ∧
    Forall (λ c, isspace c = true) ws ∧ int_literal lit z.

(** The record format of a restart file for a read as it is stated in
    words: the call throws the [IOError] of the vertex exactly when the
    stream is not good; a call that throws leaves the object; and a
    call that returns has read exactly one integer, which is the phase
    state of the vertex. *)
Definition restart_read_claim (J : Jacobian) (inStream : istream) (vert : Vertex)
    : Prop :=
  ∃ c inStream' J',
    deserializeEntity J inStream vert = Some (c, inStream', J') ∧
    (c = Throws (IOError "Could not deserialize vertex " (dofIndex vert))
     ↔ is_good inStream = false) ∧
    (c ≠ Returns → J' = J) ∧
    (c = Returns →
     ∃ z, reads_integer inStream inStream' z ∧
          phaseState_of J' (dofIndex vert) false = Some z).

(** ** A small instance *)

(** An element with two vertices in the formulation with the pressure of
    the wetting phase and the saturation of the non-wetting phase as
    primary variables, on which the methods can be run. *)
Module Instance.

Definition indices : TwoPTwoCIndices :=
  {| pressureIdx := 0; switchIdx := 1;
     wPhase := 0; nPhase := 1; wComp := 0; nComp := 1;
     wPhaseOnly := 1; nPhaseOnly := 0; bothPhases := 2;
     pWsN := 0; pNsW := 1;
     comp2Mass := λ compIdx, compIdx |}.

Definition formulation : Z := pWsN indices.

(** no capillary pressure, constant solubility limits *)
Definition problem : Problem :=
  {| problem_temperature := 28315 # 100;
     materialLaw_pC := λ _ _ _, 0;
     multicomp_xWN := λ _ _, 1 # 50;
     multicomp_xAW := λ _ _, 1 # 100 |}.

Definition entry (sol : PrimaryVarVector) (i : nat) : Scalar := nth i sol 0.

(** secondary variables in the way of the model: the switch entry is
    the saturation of the non-wetting phase when both phases are
    present, and the mass fraction of the dissolved component when
    one phase is *)
Definition methods : VertexDataMethods :=
  {| updateSaturations := λ sol phaseState vd,
       let Sn := if (phaseState =? bothPhases indices)%Z then entry sol 1
                 else if (phaseState =? wPhaseOnly indices)%Z then 0 else 1 in
       {| pressure := pressure vd;
          saturation := λ phaseIdx, if (phaseIdx =? 1)%nat then Sn else 1 - Sn;
          density := density vd; mobility := mobility vd;
          massfrac := massfrac vd; porosity := porosity vd |};
     updatePressures := λ sol pC vd,
       {| pressure := λ phaseIdx, if (phaseIdx =? 1)%nat then entry sol 0 + pC
                                  else entry sol 0;
          saturation := saturation vd;
          density := density vd; mobility := mobility vd;
          massfrac := massfrac vd; porosity := porosity vd |};
     updateMassFracs := λ sol phaseState T vd,
       let xAW := if (phaseState =? wPhaseOnly indices)%Z then entry sol 1
                  else if (phaseState =? bothPhases indices)%Z
                       then multicomp_xAW problem (pressure vd 1%nat) T else 0 in
       let xWN := if (phaseState =? nPhaseOnly indices)%Z then entry sol 1
                  else if (phaseState =? bothPhases indices)%Z
                       then multicomp_xWN problem (pressure vd 1%nat) T else 0 in
       {| pressure := pressure vd; saturation := saturation vd;
          density := density vd; mobility := mobility vd;
          massfrac := λ compIdx phaseIdx,
            match compIdx, phaseIdx with
            | 1%nat, 0%nat => xAW
            | 0%nat, 0%nat => 1 - xAW
            | 0%nat, 1%nat => xWN
            | _, _ => 1 - xWN
            end;
          porosity := porosity vd |} |}.

Definition vertDat0 : VertexData :=
  {| pressure := λ phaseIdx, if (phaseIdx =? 1)%nat then 101000 else 100000;
     saturation := λ phaseIdx, if (phaseIdx =? 1)%nat then 1 # 4 else 3 # 4;
     density := λ phaseIdx, if (phaseIdx =? 1)%nat then 12 # 10 else 1000;
     mobility := λ phaseIdx, if (phaseIdx =? 1)%nat then 50 else 2;
     massfrac := λ compIdx phaseIdx,
       match compIdx, phaseIdx with
       | 1%nat, 0%nat => 1 # 100
       | 0%nat, 0%nat => 99 # 100
       | 0%nat, 1%nat => 1 # 50
       | _, _ => 49 # 50
       end;
     porosity := 3 # 10 |}.

Definition vertDat1 : VertexData :=
  {| pressure := λ phaseIdx, if (phaseIdx =? 1)%nat then 100500 else 100000;
     saturation := λ phaseIdx, if (phaseIdx =? 1)%nat then 1 # 2 else 1 # 2;
     density := λ phaseIdx, if (phaseIdx =? 1)%nat then 12 # 10 else 1000;
     mobility := λ phaseIdx, if (phaseIdx =? 1)%nat then 40 else 1;
     massfrac := massfrac vertDat0;
     porosity := 3 # 10 |}.

Definition vertex0 : Vertex := {| dofIndex := 0; corner0 := [0; 0] |}.
Definition vertex1 : Vertex := {| dofIndex := 1; corner0 := [1; 0] |}.

(** both vertices hold the wetting phase only *)
Definition jacobian : Jacobian :=
  {| staticVertexDat_ :=
       [ {| phaseState := 1; wasSwitched := false; oldPhaseState := 1 |};
         {| phaseState := 1; wasSwitched := true; oldPhaseState := 1 |} ];
     switchFlag_ := false;
     curElemDat_ := [vertDat0; vertDat1];
     prevElemDat_ := [vertDat1; vertDat0];
     gridView_ := [vertex0; vertex1];
     switch_vertexData := vertDat0;
     cout := [] |}.

(** the mass fraction of the dissolved non-wetting component is
    [0.012] at the first vertex and [0.01] at the second *)
Definition solution : SolutionFunction :=
  [ [100000; 12 # 1000]; [100000; 1 # 100] ].

Definition fluxData : FluxData :=
  {| upstreamIdx := λ phaseIdx, if (phaseIdx =? 1)%nat then 1%nat else 0%nat;
     downstreamIdx := λ phaseIdx, if (phaseIdx =? 1)%nat then 0%nat else 1%nat;
     vDarcyNormal := λ phaseIdx, if (phaseIdx =? 1)%nat then - (1 # 1000) else 1 # 500;
     diffCoeffPM := λ phaseIdx, if (phaseIdx =? 1)%nat then 1 # 100000 else 1 # 1000000;
     densityAtIP := λ phaseIdx, if (phaseIdx =? 1)%nat then 12 # 10 else 1000;
     concentrationGrad := λ phaseIdx,
       if (phaseIdx =? 1)%nat then [1 # 10; 0] else [- (1 # 20); 1 # 5];
     face_normal := [1 # 2; 1 # 2] |}.

End Instance.

(** ** Initialisation of the static data *)

(** The body of the loop of [initStaticData] for the vertex [it]; the
    initial phase state is asked of the problem. *)
Definition init_vertex (initialPhaseState : Vertex → nat → GlobalPosition → Z)
    (it : Vertex) (dat : list StaticVertexData) : option (list StaticVertexData) :=
  let globalIdx := dofIndex it in
  let globalPos := corner0 it in
  (* initialize phase state *)
  dat ← modify_static globalIdx
          (set_phaseState (initialPhaseState it globalIdx globalPos)) dat;
  dat ← modify_static globalIdx (set_wasSwitched false) dat;
  modify_static globalIdx (λ d, set_oldPhaseState (phaseState d) d) dat.

Fixpoint init_vertices (initialPhaseState : Vertex → nat → GlobalPosition → Z)
    (verts : list Vertex) (dat : list StaticVertexData)
    : option (list StaticVertexData) :=
  match verts with
  | [] => Some dat
  | it :: verts' =>
      dat ← init_vertex initialPhaseState it dat;
      init_vertices initialPhaseState verts' dat
  end.

Definition initStaticData (initialPhaseState : Vertex → nat → GlobalPosition → Z)
    (J : Jacobian) : option Jacobian :=
  let J := setSwitched false J in
  dat ← init_vertices initialPhaseState (gridView_ J) (staticVertexDat_ J);
  Some (set_staticVertexDat dat J).

(** What [initStaticData] stores for a vertex. *)
Definition initial_static (initialPhaseState : Vertex → nat → GlobalPosition → Z)
    (v : Vertex) : StaticVertexData :=
  {| phaseState := initialPhaseState v (dofIndex v) (corner0 v);
     wasSwitched := false;
     oldPhaseState := initialPhaseState v (dofIndex v) (corner0 v) |}.

(** Two solutions that differ at most in the switch entries of their
    vertices. *)
Definition same_but_switch (I : TwoPTwoCIndices) (g g' : SolutionFunction) : Prop :=
  length g' = length g ∧
  ∀ j sol, g !! j = Some sol →
           ∃ sol', g' !! j = Some sol' ∧ length sol' = length sol ∧
                   ∀ k, k ≠ switchIdx I → sol' !! k = sol !! k.

(** The advective flux of a component as the two guards of
    [computeAdvectiveFlux] give it for any weight: the upstream part when
    the weight is positive, the downstream part when it is below one. *)
Definition guarded_advective_flux (alpha : Scalar) (vars : FluxData)
    (up dn : nat → VertexData) (compIdx : nat) : Scalar :=
  (if Qgt_bool alpha 0 then alpha else 0) * upstream_advective_flux vars up compIdx +
  (if Qlt_bool alpha 1 then 1 - alpha else 0) * downstream_advective_flux vars dn compIdx.

(** ** Reading a restart file that was written *)

(** The content of a restart file after the phase states [zs] were
    written: each integer with a blank after it. *)
Definition records (zs : list Z) : list OutItem :=
  flat_map (λ z, [OutInt z; OutText " "]) zs.

(** The integers that formatted input finds in what was written: the
    digits of an integer end at the blank that follows it. *)
Fixpoint written_integers (items : list OutItem) : list Z :=
  match items with
  | OutInt z :: OutText s :: rest =>
      if String.eqb s " " then z :: written_integers rest else []
  | _ => []
  end.

(** The characters that [operator<<] writes for an integer, its decimal
    digits behind a minus sign when it is negative, and for an item. *)
Definition int_chars (z : Z) : list ascii :=
  list_ascii_of_string (NilEmpty.string_of_int (Z.to_int z)).

Definition item_chars (item : OutItem) : list ascii :=
  match item with
  | OutInt z => int_chars z
  | OutText s => list_ascii_of_string s
  end.

(** The file that was written, opened for reading. *)
Definition reopen (outStream : ostream) : istream :=
  {| is_state := goodbit;
     is_text := flat_map item_chars (os_written outStream) |}.

(** ** The masses in the domain *)

(** [std::min(a, b)] and [std::max(a, b)]: the first argument unless the
    second is smaller, or larger. *)
Definition std_min (a b : Scalar) : Scalar := if Qlt_bool b a then b else a.
Definition std_max (a b : Scalar) : Scalar := if Qlt_bool a b then b else a.

(** What the problem and the geometry of the current element give
    [calculateMass] for an element: the number of its vertices, and for
    each of them its global index, the volume of its sub-control volume
    and its porosity. *)
Record ElementView : Type := {
  elem_numLocalVerts : nat;
  elem_vertexIdx : nat → nat;
  elem_volume : nat → Scalar;
  elem_porosity : nat → Scalar
}.

(** The methods of the parent class and of the implementation that
    [calculateMass] calls, and the two containers that it constructs
    before its loop. *)
Record ElementMethods : Type := {
  restrictToElement : ElementView → SolutionFunction → list PrimaryVarVector
                      → list PrimaryVarVector;
  updateElementData_ : ElementView → list PrimaryVarVector → VertexDataArray
                       → VertexDataArray;
  temperature_ : PrimaryVarVector → Scalar;
  fresh_curSol : list PrimaryVarVector;
  fresh_elemDat : VertexDataArray
}.

(** The vector of the masses and the extrema that [calculateMass]
    accumulates and prints. *)
Record MassLocals : Type := {
  ml_mass : FieldVector;
  minSat : Scalar; maxSat : Scalar;
  minP : Scalar; maxP : Scalar;
  minTe : Scalar; maxTe : Scalar;
  minX : Scalar; maxX : Scalar
}.

Section CalculateMass.
Variable I : TwoPTwoCIndices.
Variable E : ElementMethods.

(** the body of the loop over the vertices of an element *)
Definition mass_vertex (J : Jacobian) (globalSol : SolutionFunction)
    (elem : ElementView) (elemDat : VertexDataArray) (i : nat)
    (loc : MassLocals) : option MassLocals :=
  let globalIdx := elem_vertexIdx elem i in
  let vol := elem_volume elem i in
  d ← staticVertexDat_ J !! globalIdx;
  let state := phaseState d in
  let poro := elem_porosity elem i in
  vd ← elemDat !! i;
  let rhoN := density vd (nPhase I) in
  let rhoW := density vd (wPhase I) in
  let satN := saturation vd (nPhase I) in
  let satW := saturation vd (wPhase I) in
  let xAW := massfrac vd (nComp I) (wPhase I) in
  let xWW := massfrac vd (wComp I) (wPhase I) in
  let xWN := massfrac vd (wComp I) (nPhase I) in
  let xAN := massfrac vd (nComp I) (nPhase I) in
  let pW := pressure vd (wPhase I) in
  sol ← globalSol !! globalIdx;
  let Te := temperature_ E sol in
  let massNComp := vol * poro * (satN * rhoN * xAN + satW * rhoW * xAW) in
  let massNCompNPhase := vol * poro * satN * rhoN * xAN in
  let massWComp := vol * poro * (satW * rhoW * xWW + satN * rhoN * xWN) in
  let massWCompWPhase := vol * poro * satW * rhoW * xWW in
  (* calculate total mass *)
  mass ← fv_add_at 0 massNComp (ml_mass loc);
  mass ← fv_add_at 1 massNCompNPhase mass;
  mass ← fv_add_at 2 massWComp mass;
  mass ← fv_add_at 3 massWCompWPhase mass;
  Some {| ml_mass := mass;
          minSat := std_min (minSat loc) satN; maxSat := std_max (maxSat loc) satN;
          minP := std_min (minP loc) pW; maxP := std_max (maxP loc) pW;
          minTe := std_min (minTe loc) Te; maxTe := std_max (maxTe loc) Te;
          minX := std_min (minX loc) xAW; maxX := std_max (maxX loc) xAW |}.

(** the loop over the elements *)
Fixpoint mass_elements (J : Jacobian) (globalSol : SolutionFunction)
    (elements : list ElementView) (curSol : list PrimaryVarVector)
    (elemDat : VertexDataArray) (loc : MassLocals) : option MassLocals :=
  match elements with
  | [] => Some loc
  | elementIt :: elements' =>
      let curSol := restrictToElement E elementIt globalSol curSol in
      let elemDat := updateElementData_ E elementIt curSol elemDat in
      let numLocalVerts := elem_numLocalVerts elementIt in
      loc ← for_loop numLocalVerts
              (mass_vertex J globalSol elementIt elemDat) loc;
      mass_elements J globalSol elements' curSol elemDat loc
  end.

(** [calculateMass] on a grid with one partition, where the sum over the
    partitions is the vector of this one and the rank is zero: the
    masses, and the extrema that are printed. *)
Definition calculateMass (J : Jacobian) (elements : list ElementView)
    (globalSol : SolutionFunction) (mass : FieldVector) : option MassLocals :=
  let mass := fv_assign_zero mass in
  let big : Scalar := inject_Z (10 ^ 100) in
  mass_elements J globalSol elements (fresh_curSol E) (fresh_elemDat E)
    {| ml_mass := mass;
       minSat := big; maxSat := - big;
       minP := big; maxP := - big;
       minTe := big; maxTe := - big;
       minX := big; maxX := - big |}.
End CalculateMass.


(** The vertices of the elements are known to the static vertex data and
    to the solution, and the element data hold all the vertices of the
    element they were updated for. *)
Definition elements_in_range (E : ElementMethods) (J : Jacobian)
    (globalSol : SolutionFunction) (elements : list ElementView) : Prop :=
  ∀ elem, elem ∈ elements →
    (∀ i, (i < elem_numLocalVerts elem)%nat →
          (elem_vertexIdx elem i < length (staticVertexDat_ J))%nat ∧
          (elem_vertexIdx elem i < length globalSol)%nat) ∧
    (∀ curSol elemDat,
       (elem_numLocalVerts elem
        ≤ length (updateElementData_ E elem curSol elemDat))%nat).

(** The locals of [calculateMass] before its loop. *)
Definition mass_locals_start : MassLocals :=
  {| ml_mass := [0; 0; 0; 0];
     minSat := inject_Z (10 ^ 100); maxSat := - inject_Z (10 ^ 100);
     minP := inject_Z (10 ^ 100); maxP := - inject_Z (10 ^ 100);
     minTe := inject_Z (10 ^ 100); maxTe := - inject_Z (10 ^ 100);
     minX := inject_Z (10 ^ 100); maxX := - inject_Z (10 ^ 100) |}.

(** An element with the two vertices of the instance, for
    [calculateMass]. *)
Module MassInstance.

Definition element : ElementView :=
  {| elem_numLocalVerts := 2;
     elem_vertexIdx := λ i, i;
     elem_volume := λ _, 1 # 2;
     elem_porosity := λ _, 3 # 10 |}.

Definition methods : ElementMethods :=
  {| restrictToElement := λ elem globalSol _,
       (λ i, nth (elem_vertexIdx elem i) globalSol []) <$> seq 0 (elem_numLocalVerts elem);
     updateElementData_ := λ _ _ _, [Instance.vertDat0; Instance.vertDat1];
     temperature_ := λ _, 28315 # 100;
     fresh_curSol := [];
     fresh_elemDat := [] |}.

End MassInstance.

(** The storage term of a component in a sub-control volume of the
    current element, as [computeStorage] returns it for the current
    solution, and the sum of a list of scalars. *)
Definition storage_of (I : TwoPTwoCIndices) (J : Jacobian)
    (scvIdx compIdx : nat) : Scalar :=
  default 0 (storage ← computeStorage I J [0; 0] scvIdx false;
             storage !! comp2Mass I compIdx).

Definition Qsum (l : list Scalar) : Scalar := foldr Qplus 0 l.

(** [curElemDat_ = dat], and a vertex data with another porosity *)
Definition set_curElemDat (dat : VertexDataArray) (J : Jacobian) : Jacobian :=
  {| staticVertexDat_ := staticVertexDat_ J; switchFlag_ := switchFlag_ J;
     curElemDat_ := dat; prevElemDat_ := prevElemDat_ J;
     gridView_ := gridView_ J; switch_vertexData := switch_vertexData J;
     cout := cout J |}.

Definition set_porosity (poro : Scalar) (vd : VertexData) : VertexData :=
  {| pressure := pressure vd; saturation := saturation vd;
     density := density vd; mobility := mobility vd;
     massfrac := massfrac vd; porosity := poro |}.

(** The data that [calculateMass] works on for an element, put where
    [computeStorage] reads: the current element data are the local
    element data that [calculateMass] has updated for the element, and
    the porosity of each vertex is the one that [calculateMass] asks of
    the problem. *)
Definition mass_view (E : ElementMethods) (J : Jacobian) (elem : ElementView)
    (globalSol : SolutionFunction) : Jacobian :=
  let curSol := restrictToElement E elem globalSol (fresh_curSol E) in
  let elemDat := updateElementData_ E elem curSol (fresh_elemDat E) in
  set_curElemDat
    (imap (λ i vd, set_porosity (elem_porosity elem i) vd) elemDat) J.

(** * The base class of the sequential problems

    [IMPETProblem] (dumux/decoupled/common/impetproblem.hh): when output
    and restart files are written, and the bounding box of the grid. *)
Module IMPETProblem.

(** What the methods ask of the time manager. *)
Record TimeManager : Type := {
  timeStepIndex : Z;
  willBeFinished : bool;
  episodeWillBeOver : bool
}.

(** The values of an [int]. *)
Definition int_min : Z := - 2 ^ 31.
Definition int_max : Z := 2 ^ 31 - 1.

Definition in_int (z : Z) : bool := (int_min <=? z)%Z && (z <=? int_max)%Z.

(** [setOutputInterval]: the new value of [outputInterval_] *)
Definition setOutputInterval (interval : Z) : Z := Z.max interval 0.

(** [shouldWriteOutput] for a value of [outputInterval_] *)
Definition shouldWriteOutput (outputInterval_ : Z) (timeManager : TimeManager)
    : bool :=
  if (outputInterval_ >? 0)%Z then
    if (Z.rem (timeStepIndex timeManager) outputInterval_ =? 0)%Z
       || willBeFinished timeManager
       || episodeWillBeOver timeManager
    then true
    else false
  else if willBeFinished timeManager
          || episodeWillBeOver timeManager
          || (timeStepIndex timeManager =? 0)%Z
  then true
  else false.

(** [shouldWriteRestartFile]: the product [100*outputInterval_] is an
    [int], whose overflow is undefined, as is a remainder by zero; the
    right operand of [&&] is evaluated for a positive index only. *)
Definition shouldWriteRestartFile (outputInterval_ : Z) (timeManager : TimeManager)
    : option bool :=
  if (timeStepIndex timeManager >? 0)%Z then
    let divisor := (100 * outputInterval_)%Z in
    if negb (in_int divisor) then None
    else if (divisor =? 0)%Z then None
    else Some (Z.rem (timeStepIndex timeManager) divisor =? 0)%Z
  else Some false.

(** [std::numeric_limits<double>::max()] *)
Definition double_max : Scalar := inject_Z (2 ^ 1024 - 2 ^ 971).

(** The body of the loops of the constructor for a vertex with the
    centre [center]: it updates the first [dim] coordinates of the two
    corners. *)
Definition bbox_vertex (dim : nat) (center : GlobalPosition)
    (box : FieldVector * FieldVector) : option (FieldVector * FieldVector) :=
  for_loop dim (λ i box,
    c ← center !! i;
    lo ← fst box !! i;
    hi ← snd box !! i;
    Some (<[i := std_min lo c]> (fst box), <[i := std_max hi c]> (snd box))) box.

(** The bounding box that the constructor computes from the centres of
    the vertices of the grid view, on a grid with one partition:
    [bboxMin_] and [bboxMax_]. *)
Definition boundingBox (dim dimWorld : nat) (centers : list GlobalPosition)
    : option (FieldVector * FieldVector) :=
  foldl (λ acc center, box ← acc; bbox_vertex dim center box)
    (Some (replicate dimWorld double_max, replicate dimWorld (- double_max)))
    centers.

End IMPETProblem.

(** * The vector of the mass rates

    [TwoPRateVector] (dumux/boxmodels/2p/2pratevector.hh). *)
Module TwoPRateVector.

(** [setMassRate]: the vector becomes [value] *)
Definition setMassRate (value : FieldVector) (this : FieldVector) : FieldVector :=
  value.

(** [setMolarRate]: the rates of the components, which start at the
    equation [conti0EqIdx], are multiplied with the molar masses of the
    fluid system. *)
Definition setMolarRate (numComponents conti0EqIdx : nat)
    (molarMass : nat → Scalar) (value : FieldVector) (this : FieldVector)
    : option FieldVector :=
  (* convert to mass rates *)
  massRate ← for_loop numComponents (λ compIdx massRate,
                old ← massRate !! (conti0EqIdx + compIdx)%nat;
                Some (<[(conti0EqIdx + compIdx)%nat := old * molarMass compIdx]>
                        massRate)) value;
  (* set the mass rate *)
  Some (setMassRate massRate this).

End TwoPRateVector.

(** The corners [lo] and [hi] are the bounding box of the centres: in
    each of the first [dim] coordinates they enclose every centre and
    are attained by a centre, unless they still hold the values they
    were constructed with; the other coordinates hold these values. *)
Definition is_bounding_box (dim dimWorld : nat) (centers : list GlobalPosition)
    (lo hi : FieldVector) : Prop :=
  length lo = dimWorld ∧ length hi = dimWorld ∧
  ∀ i, (i < dimWorld)%nat →
    ∃ l h, lo !! i = Some l ∧ hi !! i = Some h ∧
      if decide (i < dim)%nat then
        (∀ c x, c ∈ centers → c !! i = Some x → l <= x ∧ x <= h) ∧
        (l = IMPETProblem.double_max ∨ ∃ c, c ∈ centers ∧ c !! i = Some l) ∧
        (h = - IMPETProblem.double_max ∨ ∃ c, c ∈ centers ∧ c !! i = Some h)
      else l = IMPETProblem.double_max ∧ h = - IMPETProblem.double_max.

(** * Properties *)

(** ** Comparisons of scalars *)

Lemma Qgt_bool_true (a b : Scalar) : Qgt_bool a b = true ↔ b < a.
Proof.
  unfold Qgt_bool. rewrite negb_true_iff, <- not_true_iff_false, Qle_bool_iff.
  split; [apply Qnot_le_lt | apply Qlt_not_le].
Qed.

Lemma Qgt_bool_false (a b : Scalar) : Qgt_bool a b = false ↔ a <= b.
Proof. unfold Qgt_bool. rewrite negb_false_iff. apply Qle_bool_iff. Qed.

Lemma Qlt_bool_true (a b : Scalar) : Qlt_bool a b = true ↔ a < b.
Proof. apply Qgt_bool_true. Qed.

Lemma Qlt_bool_false (a b : Scalar) : Qlt_bool a b = false ↔ b <= a.
Proof. apply Qgt_bool_false. Qed.

(** ** Field vectors with two entries *)

Lemma length_two {A : Type} (l : list A) :
  length l = 2%nat → ∃ a b, l = [a; b].
Proof.
  destruct l as [|a [|b [|c l]]]; simpl; intros H; try discriminate.
  by exists a, b.
Qed.

(** The two slots of the mass balances are the two entries of the vector,
    in one order or the other. *)
Lemma mass_slots_cases (I : TwoPTwoCIndices) (c1 c2 : nat) :
  mass_slots_ok I c1 c2 →
  (comp2Mass I c1 = 0 ∧ comp2Mass I c2 = 1)%nat ∨
  (comp2Mass I c1 = 1 ∧ comp2Mass I c2 = 0)%nat.
Proof. unfold mass_slots_ok, numEq. lia. Qed.

Ltac two_slots I c1 c2 H :=
  let H0 := fresh "Hslot" in let H1 := fresh "Hslot" in
  destruct (mass_slots_cases I c1 c2 H) as [[H0 H1]|[H0 H1]].

(** One step of evaluation of the vector operations, leaving the
    arithmetic of the scalars as it is. *)
Ltac fv_step :=
  cbn [seq foldl length replicate mbind option_bind lookup list_lookup
       insert list_insert fv_scale fmap list_fmap zip zip_with fst snd].

(** ** Storage *)

(** C1: for a sub-control volume of the element and either solution,
    [computeStorage] returns in the mass balance slot of each component
    the porosity times the sum over the two phases of density times
    saturation times mass fraction of the selected vertex data. The
    method is a function of the object and its arguments alone: the
    object is not returned, so not changed, and the former content of
    [result] has no influence. *)
Theorem computeStorage_spec (I : TwoPTwoCIndices) (J : Jacobian)
    (result : PrimaryVarVector) (scvIdx : nat) (usePrevSol : bool)
    (vertDat : VertexData) :
  mass_slots_ok I 0 1 →
  length result = numEq →
  (if usePrevSol then prevElemDat_ J else curElemDat_ J) !! scvIdx = Some vertDat →
  ∃ storage : PrimaryVarVector,
    computeStorage I J result scvIdx usePrevSol = Some storage ∧
    length storage = numEq ∧
    (∀ compIdx, (compIdx < numComponents)%nat →
       ∃ q, storage !! comp2Mass I compIdx = Some q ∧
            q == porosity vertDat *
                 (density vertDat 0 * saturation vertDat 0 * massfrac vertDat compIdx 0 +
                  density vertDat 1 * saturation vertDat 1 * massfrac vertDat compIdx 1)) ∧
    (∀ result' : PrimaryVarVector, length result' = numEq →
       computeStorage I J result' scvIdx usePrevSol = Some storage).
Proof.
  intros Hslots Hlen Hvd.
  destruct (length_two _ Hlen) as (a & b & ->).
  unfold computeStorage. rewrite Hvd. cbn [mbind option_bind].
  unfold for_loop, numPhases, numComponents, storage_add, fv_add_at, fv_assign_zero.
  two_slots I 0%nat 1%nat Hslots;
    repeat (progress (rewrite ?Hslot, ?Hslot0; fv_step));
    (eexists; split; [reflexivity|]; split; [reflexivity|]; split;
     [ intros [|[|c]] Hc; [| |unfold numComponents in Hc; lia];
       rewrite ?Hslot, ?Hslot0; fv_step;
       eexists; (split; [reflexivity|ring])
     | intros r' Hr'; destruct (length_two _ Hr') as (a' & b' & ->);
       repeat (progress (rewrite ?Hslot, ?Hslot0; fv_step)); reflexivity ]).
Qed.

(** ** Advective flux *)

(** C2: for an upwind weight [alpha] in [0,1], [computeAdvectiveFlux] adds
    to the mass balance of each component the sum over the phases of the
    normal Darcy velocity times the blend, with weights [alpha] and
    [1 - alpha], of the upstream and downstream products of density,
    mobility and mass fraction; this is the upstream formula for
    [alpha = 1] and the downstream formula for [alpha = 0]. *)
Theorem computeAdvectiveFlux_spec (I : TwoPTwoCIndices) (alpha : Scalar)
    (J : Jacobian) (flux : PrimaryVarVector) (vars : FluxData)
    (up dn : nat → VertexData) :
  mass_slots_ok I 0 1 →
  length flux = numEq →
  0 <= alpha ∧ alpha <= 1 →
  (∀ phaseIdx, (phaseIdx < numPhases)%nat →
     curElemDat_ J !! upstreamIdx vars phaseIdx = Some (up phaseIdx) ∧
     curElemDat_ J !! downstreamIdx vars phaseIdx = Some (dn phaseIdx)) →
  ∃ flux' : PrimaryVarVector,
    computeAdvectiveFlux I alpha J flux vars = Some flux' ∧
    length flux' = numEq ∧
    ∀ compIdx, (compIdx < numComponents)%nat →
      ∃ q q', flux !! comp2Mass I compIdx = Some q ∧
              flux' !! comp2Mass I compIdx = Some q' ∧
              q' - q == weighted_advective_flux alpha vars up dn compIdx ∧
              (alpha == 1 → q' - q == upstream_advective_flux vars up compIdx) ∧
              (alpha == 0 → q' - q == downstream_advective_flux vars dn compIdx).
Proof.
  intros Hslots Hlen [Hlo Hhi] Hdat.
  destruct (length_two _ Hlen) as (a & b & ->).
  destruct (Hdat 0%nat) as [Hu0 Hd0]; [unfold numPhases; lia|].
  destruct (Hdat 1%nat) as [Hu1 Hd1]; [unfold numPhases; lia|].
  unfold computeAdvectiveFlux, for_loop, numPhases, numComponents.
  fv_step. rewrite Hu0, Hd0. fv_step. rewrite Hu1, Hd1. fv_step.
  unfold advective_add, fv_add_at.
  assert (Hfin : ∀ q q' compIdx,
             q' - q == weighted_advective_flux alpha vars up dn compIdx →
             q' - q == weighted_advective_flux alpha vars up dn compIdx ∧
             (alpha == 1 → q' - q == upstream_advective_flux vars up compIdx) ∧
             (alpha == 0 → q' - q == downstream_advective_flux vars dn compIdx)).
  { intros q q' c Hq. split; [exact Hq|]. rewrite Hq.
    unfold weighted_advective_flux, upstream_advective_flux,
      downstream_advective_flux.
    split; intros ->; ring. }
  destruct (Qgt_bool alpha 0) eqn:Hup; destruct (Qlt_bool alpha 1) eqn:Hdn;
    [ | apply Qlt_bool_false in Hdn; assert (Ha : alpha == 1) by lra
      | apply Qgt_bool_false in Hup; assert (Ha : alpha == 0) by lra
      | apply Qgt_bool_false in Hup; apply Qlt_bool_false in Hdn; lra ];
    (two_slots I 0%nat 1%nat Hslots;
     repeat (progress (rewrite ?Hslot, ?Hslot0; fv_step));
     (eexists; split; [reflexivity|]; split; [reflexivity|];
      intros [|[|c]] Hc; [| |unfold numComponents in Hc; lia];
      rewrite ?Hslot, ?Hslot0; fv_step;
      eexists _, _; (split; [reflexivity|]); (split; [reflexivity|]);
      apply Hfin; unfold weighted_advective_flux, carried_mass;
      rewrite ?Ha; ring)).
Qed.

(** ** Diffusive flux *)

(** The scalar product of [Dune::FieldVector], accumulated from the left,
    is the sum of the products of the coordinates. *)
Lemma fv_dot_scalar_product (a b : FieldVector) :
  fv_dot a b == scalar_product a b.
Proof.
  unfold fv_dot.
  assert (H : ∀ (l : list (Q * Q)) (acc : Q),
             foldl (λ acc xy, acc + fst xy * snd xy) acc l
             == acc + foldl (λ acc xy, acc + fst xy * snd xy) 0 l).
  { induction l as [|xy l IH]; intros acc; cbn [foldl]; [ring|].
    rewrite (IH (acc + fst xy * snd xy)), (IH (0 + fst xy * snd xy)). ring. }
  revert b. induction a as [|x a IH]; intros [|y b]; cbn [zip zip_with foldl scalar_product fst snd];
    try reflexivity.
  rewrite H, IH. ring.
Qed.

(** The scalar [tmp] of a phase is the product that the words name. *)
Lemma diffusive_term_scalar (vars : FluxData) (phaseIdx : nat) :
  diffusive_term vars phaseIdx == diffusive_scalar vars phaseIdx.
Proof.
  unfold diffusive_term, diffusive_scalar. rewrite fv_dot_scalar_product. ring.
Qed.

(** C3: the scalar of a phase is its diffusion coefficient times its
    density times the scalar product of its concentration gradient with
    the normal of the face. [computeDiffusiveFlux] adds the scalar of the
    wetting phase to the balance of the non-wetting component and
    subtracts it from the balance of the wetting component, and the
    scalar of the non-wetting phase the other way round; what the balance
    of the wetting component receives in total is the negative of what
    the balance of the non-wetting component receives. *)
Theorem computeDiffusiveFlux_antisymmetric (I : TwoPTwoCIndices)
    (flux : PrimaryVarVector) (vars : FluxData) :
  mass_slots_ok I (wComp I) (nComp I) →
  length flux = numEq →
  ∃ (flux' : PrimaryVarVector) (fw fn fw' fn' : Scalar),
    computeDiffusiveFlux I flux vars = Some flux' ∧
    length flux' = numEq ∧
    flux !! comp2Mass I (wComp I) = Some fw ∧
    flux !! comp2Mass I (nComp I) = Some fn ∧
    flux' !! comp2Mass I (wComp I) = Some fw' ∧
    flux' !! comp2Mass I (nComp I) = Some fn' ∧
    fn' == fn + diffusive_scalar vars (wPhase I) - diffusive_scalar vars (nPhase I) ∧
    fw' == fw - diffusive_scalar vars (wPhase I) + diffusive_scalar vars (nPhase I) ∧
    fw' - fw == - (fn' - fn).
Proof.
  intros Hslots Hlen.
  destruct (length_two _ Hlen) as (a & b & ->).
  pose proof (diffusive_term_scalar vars (wPhase I)) as Hw.
  pose proof (diffusive_term_scalar vars (nPhase I)) as Hn.
  unfold computeDiffusiveFlux, fv_add_at, fv_sub_at.
  two_slots I (wComp I) (nComp I) Hslots;
    repeat (progress (rewrite ?Hslot, ?Hslot0; fv_step));
    eexists _, _, _, _, _;
    repeat (split; [reflexivity|]);
    (split; [rewrite <- Hw, <- Hn; ring|]);
    (split; [rewrite <- Hw, <- Hn; ring|]); ring.
Qed.

(** ** The primary variable switch *)

(** Case analysis on the comparison that decides a conditional of the
    goal. *)
Ltac destruct_gt :=
  match goal with
  | |- context [if Qgt_bool ?a ?b then Some _ else _] =>
      let H := fresh "Hgt" in destruct (Qgt_bool a b) eqn:H
  | |- context [if Qgt_bool ?a ?b then mbind _ _ else _] =>
      let H := fresh "Hgt" in destruct (Qgt_bool a b) eqn:H
  end.

Section SwitchFacts.
Variable I : TwoPTwoCIndices.
Variable formulation : Z.
Variable P : Problem.
Variable V : VertexDataMethods.

Lemma modify_static_Some (i : nat) (f : StaticVertexData → StaticVertexData)
    (dat : list StaticVertexData) (d : StaticVertexData) :
  dat !! i = Some d → modify_static i f dat = Some (<[i := f d]> dat).
Proof. intros H. unfold modify_static. by rewrite H. Qed.

(** The two assignments at the end of [primaryVarSwitch_]. *)
Lemma switch_static_update (dat : list StaticVertexData) (i : nat)
    (d : StaticVertexData) (ps : Z) (w : bool) :
  dat !! i = Some d →
  modify_static i (set_phaseState ps) dat ≫= modify_static i (set_wasSwitched w)
  = Some (<[i := {| phaseState := ps; wasSwitched := w;
                    oldPhaseState := oldPhaseState d |}]> dat).
Proof.
  intros H. rewrite (modify_static_Some _ _ _ _ H). cbn [mbind option_bind].
  assert (Hi : (i < length dat)%nat) by (eapply lookup_lt_Some; eauto).
  erewrite modify_static_Some by (by apply list_lookup_insert_eq).
  by rewrite list_insert_insert_eq.
Qed.

Lemma primaryVarSwitch_unfold (J : Jacobian) (globalSol : SolutionFunction)
    (globalIdx : nat) (globalPos : GlobalPosition)
    (d : StaticVertexData) (sol : PrimaryVarVector) :
  staticVertexDat_ J !! globalIdx = Some d →
  globalSol !! globalIdx = Some sol →
  primaryVarSwitch_ I formulation P V J globalSol globalIdx globalPos =
  let vertexData :=
    switch_update_vertexData I P V (switch_vertexData J) sol (phaseState d)
      globalPos in
  loc ← switch_checks I formulation P vertexData (temperature P sol)
          (phaseState d) (wasSwitched d) globalIdx globalPos globalSol (cout J);
  Some (switch_result J globalIdx d vertexData loc).
Proof.
  intros Hd Hsol. unfold primaryVarSwitch_. rewrite Hd.
  cbn [mbind option_bind]. rewrite Hsol. cbn [mbind option_bind].
  destruct (switch_checks _ _ _ _ _ _ _ _ _ _ _) as [loc|]; [|done].
  cbn [mbind option_bind].
  pose proof (switch_static_update _ _ _ (newPhaseState loc) (wouldSwitch loc) Hd) as Hup.
  cbn [mbind option_bind] in Hup.
  destruct (modify_static globalIdx (set_phaseState _) _) as [dat|]; [|done].
  cbn [mbind option_bind] in *. rewrite Hup. reflexivity.
Qed.

Lemma set_switch_var_Some (globalSol : SolutionFunction) (globalIdx : nat)
    (sol : PrimaryVarVector) (x : Scalar) :
  globalSol !! globalIdx = Some sol →
  (switchIdx I < length sol)%nat →
  set_switch_var I globalIdx x globalSol
  = Some (<[globalIdx := <[switchIdx I := x]> sol]> globalSol).
Proof.
  intros Hsol Hlt. unfold set_switch_var, fv_set. rewrite Hsol.
  cbn [mbind option_bind].
  destruct (lookup_lt_is_Some_2 sol (switchIdx I) Hlt) as [y ->].
  reflexivity.
Qed.

Lemma set_switch_appear_Some (globalSol : SolutionFunction) (globalIdx : nat)
    (sol : PrimaryVarVector) (a b : Scalar) :
  globalSol !! globalIdx = Some sol →
  (switchIdx I < length sol)%nat →
  ∃ globalSol',
    set_switch_appear I formulation globalIdx a b globalSol = Some globalSol' ∧
    switch_write I globalSol globalIdx sol globalSol'.
Proof.
  intros Hsol Hlt. unfold set_switch_appear.
  destruct (formulation =? pNsW I)%Z; [|destruct (formulation =? pWsN I)%Z];
    rewrite ?(set_switch_var_Some _ _ _ _ Hsol Hlt);
    eexists; split; try reflexivity; constructor.
Qed.

(** The checks end in one of two ways: no branch was taken and nothing
    was written, or one branch was taken, which printed one message,
    chose the new phase state and wrote at most the switch entry. *)
Lemma switch_checks_outcome (vertexData : VertexData) (T : Scalar) (ps : Z)
    (wasSw : bool) (globalIdx : nat) (globalPos : GlobalPosition)
    (globalSol : SolutionFunction) (out : list SwitchMessage)
    (sol : PrimaryVarVector) :
  globalSol !! globalIdx = Some sol →
  (switchIdx I < length sol)%nat →
  ∃ loc,
    switch_checks I formulation P vertexData T ps wasSw globalIdx globalPos
      globalSol out = Some loc ∧
    ((newPhaseState loc = ps ∧ sw_globalSol loc = globalSol ∧ sw_cout loc = out) ∨
     (∃ m, sw_cout loc = out ++ [m] ∧
           phase_transition I ps (newPhaseState loc) ∧
           switch_write I globalSol globalIdx sol (sw_globalSol loc))).
Proof.
  intros Hsol Hlt. unfold switch_checks.
  destruct (Z.eqb_spec ps (nPhaseOnly I)) as [->|Hn].
  { destruct_gt.
    - destruct (set_switch_appear_Some _ _ _ 0 1 Hsol Hlt) as (g & -> & Hw).
      eexists; split; [reflexivity|]. right. eexists. cbn.
      repeat split; [constructor|exact Hw].
    - eexists; split; [reflexivity|]. by left. }
  destruct (Z.eqb_spec ps (wPhaseOnly I)) as [->|Hw].
  { destruct_gt.
    - destruct (set_switch_appear_Some _ _ _ 1 0 Hsol Hlt) as (g & -> & Hw).
      eexists; split; [reflexivity|]. right. eexists. cbn.
      repeat split; [constructor|exact Hw].
    - eexists; split; [reflexivity|]. by left. }
  destruct (Z.eqb_spec ps (bothPhases I)) as [->|Hb].
  { destruct (Qle_bool (saturation vertexData (nPhase I)) 0);
      [|destruct (Qle_bool (saturation vertexData (wPhase I)) 0)];
      rewrite ?(set_switch_var_Some _ _ _ _ Hsol Hlt);
      (eexists; split; [reflexivity|]); [right|right|by left];
      eexists; cbn; repeat split; constructor. }
  eexists; split; [reflexivity|]. by left.
Qed.

(** With distinct phase states, a transition changes the phase state. *)
Lemma phase_transition_ne (ps ps' : Z) :
  phase_states_distinct I → phase_transition I ps ps' → ps ≠ ps'.
Proof. intros (H1 & H2 & H3) []; congruence. Qed.
End SwitchFacts.

Section SwitchTheorems.
Variable I : TwoPTwoCIndices.
Variable formulation : Z.
Variable P : Problem.
Variable V : VertexDataMethods.

Lemma Qle_bool_false (a b : Scalar) : b < a → Qle_bool a b = false.
Proof.
  intros H. apply not_true_iff_false. rewrite Qle_bool_iff.
  by apply Qlt_not_le.
Qed.

(** When no threshold is crossed, no branch of the checks is taken. *)
Lemma switch_checks_quiet (vertexData : VertexData) (T : Scalar) (ps : Z)
    (wasSw : bool) (globalIdx : nat) (globalPos : GlobalPosition)
    (globalSol : SolutionFunction) (out : list SwitchMessage) :
  no_threshold_crossed I P vertexData T ps wasSw →
  ∃ w, switch_checks I formulation P vertexData T ps wasSw globalIdx
         globalPos globalSol out
       = Some {| wouldSwitch := w; newPhaseState := ps;
                 sw_globalSol := globalSol; sw_cout := out |}.
Proof.
  intros [Hone Hboth]. unfold switch_checks. cbv zeta.
  destruct (Z.eqb_spec ps (nPhaseOnly I)) as [Hn|Hn].
  { specialize (Hone _ _ (check_nPhaseOnly I P _ _ _ _ _ Hn eq_refl eq_refl)).
    apply Qgt_bool_false in Hone. unfold applicable_limit in Hone.
    rewrite Hone. eexists; reflexivity. }
  destruct (Z.eqb_spec ps (wPhaseOnly I)) as [Hw|Hw].
  { specialize (Hone _ _ (check_wPhaseOnly I P _ _ _ _ _ Hw eq_refl eq_refl)).
    apply Qgt_bool_false in Hone. unfold applicable_limit in Hone.
    rewrite Hone. eexists; reflexivity. }
  destruct (Z.eqb_spec ps (bothPhases I)) as [Hb|Hb].
  { destruct (Hboth Hb) as [Hsn Hsw].
    rewrite (Qle_bool_false _ _ Hsn), (Qle_bool_false _ _ Hsw).
    eexists; reflexivity. }
  eexists; reflexivity.
Qed.

(** C4: when the phase state of the vertex and the quantities derived
    for it cross no threshold, the switch leaves the phase state of the
    vertex as it is and returns false; and a call takes at most one
    transition: it prints one message when it returns true and none
    when it returns false. *)
Theorem primaryVarSwitch_no_threshold (J : Jacobian)
    (globalSol : SolutionFunction) (globalIdx : nat)
    (globalPos : GlobalPosition) (d : StaticVertexData)
    (sol : PrimaryVarVector) :
  phase_states_distinct I →
  staticVertexDat_ J !! globalIdx = Some d →
  globalSol !! globalIdx = Some sol →
  (switchIdx I < length sol)%nat →
  let vertexData :=
    switch_update_vertexData I P V (switch_vertexData J) sol (phaseState d)
      globalPos in
  (no_threshold_crossed I P vertexData (temperature P sol) (phaseState d)
     (wasSwitched d) →
   ∃ J', primaryVarSwitch_ I formulation P V J globalSol globalIdx globalPos
         = Some (false, globalSol, J') ∧
         phaseState_of J' globalIdx false = Some (phaseState d) ∧
         cout J' = cout J) ∧
  (∃ r globalSol' J' fired ps',
     primaryVarSwitch_ I formulation P V J globalSol globalIdx globalPos
     = Some (r, globalSol', J') ∧
     cout J' = cout J ++ fired ∧
     length fired = (if r then 1 else 0)%nat ∧
     phaseState_of J' globalIdx false = Some ps' ∧
     (if r then phase_transition I (phaseState d) ps' else ps' = phaseState d)).
Proof.
  intros Hdist Hd Hsol Hlt vertexData.
  assert (Hi : (globalIdx < length (staticVertexDat_ J))%nat)
    by (eapply lookup_lt_Some; eauto).
  rewrite (primaryVarSwitch_unfold I formulation P V _ _ _ globalPos _ _ Hd Hsol).
  cbn zeta. fold vertexData. split.
  - intros Hquiet.
    destruct (switch_checks_quiet _ _ _ _ globalIdx globalPos globalSol
                (cout J) Hquiet) as [w ->].
    cbn [mbind option_bind]. unfold switch_result. cbn.
    rewrite Z.eqb_refl. eexists; split; [reflexivity|].
    unfold phaseState_of. cbn. by rewrite list_lookup_insert_eq.
  - destruct (switch_checks_outcome I formulation P vertexData
                (temperature P sol) (phaseState d) (wasSwitched d) globalIdx
                globalPos globalSol (cout J) sol Hsol Hlt)
      as (loc & -> & Hout).
    cbn [mbind option_bind]. unfold switch_result.
    destruct Hout as [(Hps & Hg & Hc)|(m & Hc & Htr & Hw)].
    + rewrite Hps, Z.eqb_refl. exists false, (sw_globalSol loc). cbn.
      eexists _, [], _. split; [reflexivity|]. cbn.
      rewrite Hc, app_nil_r. repeat split.
      unfold phaseState_of. cbn. by rewrite list_lookup_insert_eq.
    + pose proof (phase_transition_ne I _ _ Hdist Htr) as Hne.
      apply Z.eqb_neq in Hne. rewrite Hne. cbn [negb].
      eexists true, _, _, [m], _. split; [reflexivity|]. cbn.
      repeat split; [exact Hc| |exact Htr].
      unfold phaseState_of. cbn. by rewrite list_lookup_insert_eq.
Qed.

(** With one phase, the flag that the checks compute is the outcome of
    the comparison with the limit as the solubility relation gives it. *)
Lemma switch_checks_single_wouldSwitch (vertexData : VertexData) (T : Scalar)
    (ps : Z) (wasSw : bool) (globalIdx : nat) (globalPos : GlobalPosition)
    (globalSol : SolutionFunction) (out : list SwitchMessage)
    (x xmax : Scalar) (loc : SwitchLocals) :
  phase_states_distinct I →
  single_phase_check I P vertexData T ps x xmax →
  switch_checks I formulation P vertexData T ps wasSw globalIdx globalPos
    globalSol out = Some loc →
  wouldSwitch loc = Qgt_bool x xmax.
Proof.
  intros (Hnw & Hnb & Hwb) Hcheck. unfold switch_checks. cbv zeta.
  destruct Hcheck as [-> -> ->| -> -> ->].
  - rewrite Z.eqb_refl.
    destruct (Qgt_bool _ (if wasSw then _ else _));
      [destruct (set_switch_appear _ _ _ _ _ _); [|done]|];
      cbn [mbind option_bind]; intros [= <-]; cbn;
      by destruct (Qgt_bool _ _).
  - destruct (Z.eqb_spec (wPhaseOnly I) (nPhaseOnly I)) as [Heq|_];
      [congruence|].
    rewrite Z.eqb_refl.
    destruct (Qgt_bool _ (if wasSw then _ else _));
      [destruct (set_switch_appear _ _ _ _ _ _); [|done]|];
      cbn [mbind option_bind]; intros [= <-]; cbn;
      by destruct (Qgt_bool _ _).
Qed.

(** With distinct phase states, a phase state admits one check. *)
Lemma single_phase_check_unique (vertexData : VertexData) (T : Scalar)
    (ps : Z) (x xmax x' xmax' : Scalar) :
  phase_states_distinct I →
  single_phase_check I P vertexData T ps x xmax →
  single_phase_check I P vertexData T ps x' xmax' →
  x' = x ∧ xmax' = xmax.
Proof.
  intros (Hnw & Hnb & Hwb) [] []; subst; try done; congruence.
Qed.

Lemma single_phase_not_both (vertexData : VertexData) (T : Scalar)
    (ps : Z) (x xmax : Scalar) :
  phase_states_distinct I →
  single_phase_check I P vertexData T ps x xmax →
  ps ≠ bothPhases I.
Proof. intros (Hnw & Hnb & Hwb) []; congruence. Qed.

(** C5: a vertex with one phase that was marked as switched, and whose
    dissolved mass fraction is at or above the solubility limit but not
    above [1.01] times the limit, keeps its phase state in the next
    evaluation; and for every vertex with one phase the evaluation
    stores in [wasSwitched] the outcome of the comparison with the
    limit itself, whether the scaled comparison succeeded or not. *)
Theorem primaryVarSwitch_hysteresis (J : Jacobian)
    (globalSol : SolutionFunction) (globalIdx : nat)
    (globalPos : GlobalPosition) (d : StaticVertexData)
    (sol : PrimaryVarVector) (x xmax : Scalar) :
  phase_states_distinct I →
  staticVertexDat_ J !! globalIdx = Some d →
  globalSol !! globalIdx = Some sol →
  (switchIdx I < length sol)%nat →
  single_phase_check I P
    (switch_update_vertexData I P V (switch_vertexData J) sol (phaseState d)
       globalPos)
    (temperature P sol) (phaseState d) x xmax →
  (wasSwitched d = true → xmax <= x → x <= (101 # 100) * xmax →
   ∃ J', primaryVarSwitch_ I formulation P V J globalSol globalIdx globalPos
         = Some (false, globalSol, J') ∧
         phaseState_of J' globalIdx false = Some (phaseState d) ∧
         cout J' = cout J) ∧
  (∃ r globalSol' J' d',
     primaryVarSwitch_ I formulation P V J globalSol globalIdx globalPos
     = Some (r, globalSol', J') ∧
     staticVertexDat_ J' !! globalIdx = Some d' ∧
     wasSwitched d' = Qgt_bool x xmax).
Proof.
  intros Hdist Hd Hsol Hlt Hcheck.
  assert (Hi : (globalIdx < length (staticVertexDat_ J))%nat)
    by (eapply lookup_lt_Some; eauto).
  rewrite (primaryVarSwitch_unfold I formulation P V _ _ _ globalPos _ _ Hd Hsol).
  cbn zeta. split.
  - intros Hsw Hge Hle.
    assert (Hquiet : no_threshold_crossed I P
              (switch_update_vertexData I P V (switch_vertexData J) sol
                 (phaseState d) globalPos)
              (temperature P sol) (phaseState d) (wasSwitched d)).
    { split.
      - intros x' xmax' Hcheck'.
        destruct (single_phase_check_unique _ _ _ _ _ _ _ Hdist Hcheck Hcheck')
          as [-> ->].
        rewrite Hsw. unfold applicable_limit. lra.
      - intros Hb. by destruct (single_phase_not_both _ _ _ _ _ Hdist Hcheck). }
    destruct (switch_checks_quiet _ _ _ _ globalIdx globalPos globalSol
                (cout J) Hquiet) as [w ->].
    cbn [mbind option_bind]. unfold switch_result. cbn.
    rewrite Z.eqb_refl. eexists; split; [reflexivity|].
    unfold phaseState_of. cbn. by rewrite list_lookup_insert_eq.
  - destruct (switch_checks_outcome I formulation P
                (switch_update_vertexData I P V (switch_vertexData J) sol
                   (phaseState d) globalPos)
                (temperature P sol) (phaseState d) (wasSwitched d) globalIdx
                globalPos globalSol (cout J) sol Hsol Hlt)
      as (loc & Hloc & _).
    rewrite Hloc. cbn [mbind option_bind]. unfold switch_result.
    eexists _, _, _, _. split; [reflexivity|]. cbn.
    split; [by apply list_lookup_insert_eq|]. cbn.
    eapply switch_checks_single_wouldSwitch; eauto.
Qed.

Lemma Qle_bool_true (a b : Scalar) : a <= b → Qle_bool a b = true.
Proof. apply Qle_bool_iff. Qed.


(** What a write of the switch leaves in place. *)
Lemma switch_write_frame (globalSol globalSol' : SolutionFunction)
    (globalIdx : nat) (sol : PrimaryVarVector) :
  globalSol !! globalIdx = Some sol →
  switch_write I globalSol globalIdx sol globalSol' →
  length globalSol' = length globalSol ∧
  (∀ j, j ≠ globalIdx → globalSol' !! j = globalSol !! j) ∧
  ∃ sol', globalSol' !! globalIdx = Some sol' ∧
          length sol' = length sol ∧
          ∀ k, k ≠ switchIdx I → sol' !! k = sol !! k.
Proof.
  intros Hsol [|x].
  - repeat split; eauto.
  - assert (Hi : (globalIdx < length globalSol)%nat)
      by (eapply lookup_lt_Some; eauto).
    split; [by rewrite length_insert|].
    split; [intros j Hj; by rewrite list_lookup_insert_ne|].
    eexists. split; [by apply list_lookup_insert_eq|].
    split; [by rewrite length_insert|].
    intros k Hk. by rewrite list_lookup_insert_ne.
Qed.

(** C10: a call of the switch changes the solution only when it takes a
    transition, and then at most the switch entry of the vertex it
    evaluates: the pressure entry of this vertex and the primary
    variables of the other vertices stay; of the static vertex data it
    writes the fields [phaseState] and [wasSwitched] of this vertex
    only, and it leaves the other members of the object alone. *)
Theorem primaryVarSwitch_frame (J : Jacobian)
    (globalSol : SolutionFunction) (globalIdx : nat)
    (globalPos : GlobalPosition) (d : StaticVertexData)
    (sol : PrimaryVarVector) :
  phase_states_distinct I →
  pressureIdx I ≠ switchIdx I →
  staticVertexDat_ J !! globalIdx = Some d →
  globalSol !! globalIdx = Some sol →
  (switchIdx I < length sol)%nat →
  ∃ r globalSol' J' sol' d',
    primaryVarSwitch_ I formulation P V J globalSol globalIdx globalPos
    = Some (r, globalSol', J') ∧
    (r = false → globalSol' = globalSol) ∧
    length globalSol' = length globalSol ∧
    (∀ j, j ≠ globalIdx → globalSol' !! j = globalSol !! j) ∧
    globalSol' !! globalIdx = Some sol' ∧
    length sol' = length sol ∧
    (∀ k, k ≠ switchIdx I → sol' !! k = sol !! k) ∧
    sol' !! pressureIdx I = sol !! pressureIdx I ∧
    length (staticVertexDat_ J') = length (staticVertexDat_ J) ∧
    (∀ j, j ≠ globalIdx → staticVertexDat_ J' !! j = staticVertexDat_ J !! j) ∧
    staticVertexDat_ J' !! globalIdx = Some d' ∧
    oldPhaseState d' = oldPhaseState d ∧
    switchFlag_ J' = switchFlag_ J ∧
    curElemDat_ J' = curElemDat_ J ∧
    prevElemDat_ J' = prevElemDat_ J ∧
    gridView_ J' = gridView_ J.
Proof.
  intros Hdist Hidx Hd Hsol Hlt.
  assert (Hi : (globalIdx < length (staticVertexDat_ J))%nat)
    by (eapply lookup_lt_Some; eauto).
  rewrite (primaryVarSwitch_unfold I formulation P V _ _ _ globalPos _ _ Hd Hsol).
  cbn zeta.
  destruct (switch_checks_outcome I formulation P
              (switch_update_vertexData I P V (switch_vertexData J) sol
                 (phaseState d) globalPos)
              (temperature P sol) (phaseState d) (wasSwitched d) globalIdx
              globalPos globalSol (cout J) sol Hsol Hlt)
    as (loc & -> & Hout).
  cbn [mbind option_bind]. unfold switch_result.
  assert (Hw : switch_write I globalSol globalIdx sol (sw_globalSol loc) ∧
               (negb (phaseState d =? newPhaseState loc)%Z = false →
                sw_globalSol loc = globalSol)).
  { destruct Hout as [(Hps & -> & _)|(m & _ & Htr & Hw)].
    - split; [constructor|done].
    - split; [exact Hw|].
      pose proof (phase_transition_ne I _ _ Hdist Htr) as Hne.
      apply Z.eqb_neq in Hne. by rewrite Hne. }
  destruct Hw as [Hw Hfalse].
  destruct (switch_write_frame _ _ _ _ Hsol Hw)
    as (Hlen & Hother & sol' & Hsol' & Hlen' & Hslots).
  eexists _, _, _, sol', _. split; [reflexivity|]. cbn.
  split; [exact Hfalse|]. split; [exact Hlen|]. split; [exact Hother|].
  split; [exact Hsol'|]. split; [exact Hlen'|]. split; [exact Hslots|].
  split; [by apply Hslots|]. split; [by rewrite length_insert|].
  split; [intros j Hj; by rewrite list_lookup_insert_ne|].
  split; [by apply list_lookup_insert_eq|]. done.
Qed.
End SwitchTheorems.

(** ** Rollback of the phase state *)

(** A loop that assigns to the entry [i] of the static vertex data in its
    iteration [i] has rewritten the first [n] entries after [n]
    iterations. *)
Lemma for_loop_modify_static (f : StaticVertexData → StaticVertexData) (n : nat)
    (dat : list StaticVertexData) :
  (n ≤ length dat)%nat →
  for_loop n (λ i dat, modify_static i f dat) dat
  = Some ((f <$> take n dat) ++ drop n dat).
Proof.
  unfold for_loop. induction n as [|n IH]; intros Hn.
  - cbn. by rewrite drop_0.
  - rewrite seq_S, foldl_app. cbn [foldl seq plus]. rewrite IH by lia.
    cbn [mbind option_bind].
    destruct (lookup_lt_is_Some_2 dat n) as [d Hd]; [lia|].
    unfold modify_static.
    assert (Hlen : length (f <$> take n dat) = n)
      by (rewrite length_fmap, length_take; lia).
    assert (Hlook : ((f <$> take n dat) ++ drop n dat) !! n = Some d).
    { rewrite lookup_app_r by lia. rewrite Hlen, Nat.sub_diag, lookup_drop.
      by rewrite Nat.add_0_r. }
    rewrite Hlook. cbn [mbind option_bind]. f_equal.
    rewrite insert_app_r_alt by lia. rewrite Hlen, Nat.sub_diag.
    rewrite (drop_S _ _ _ Hd). cbn [insert list_insert].
    rewrite (take_S_r _ _ _ Hd), fmap_app. cbn. by rewrite <- app_assoc.
Qed.

Section Rollback.
Variable I : TwoPTwoCIndices.
Variable formulation : Z.
Variable P : Problem.
Variable V : VertexDataMethods.

(** A call that returns has found the vertex in the static vertex data
    and in the solution. *)
Lemma primaryVarSwitch_inv (J J' : Jacobian) (globalSol globalSol' : SolutionFunction)
    (globalIdx : nat) (globalPos : GlobalPosition) (r : bool) :
  primaryVarSwitch_ I formulation P V J globalSol globalIdx globalPos
  = Some (r, globalSol', J') →
  ∃ d sol loc,
    staticVertexDat_ J !! globalIdx = Some d ∧
    globalSol !! globalIdx = Some sol ∧
    (r, globalSol', J')
    = switch_result J globalIdx d
        (switch_update_vertexData I P V (switch_vertexData J) sol
           (phaseState d) globalPos) loc.
Proof.
  intros H.
  destruct (staticVertexDat_ J !! globalIdx) as [d|] eqn:Hd;
    [|unfold primaryVarSwitch_ in H; by rewrite Hd in H].
  destruct (globalSol !! globalIdx) as [sol|] eqn:Hsol;
    [|unfold primaryVarSwitch_ in H; rewrite Hd in H;
      cbn [mbind option_bind] in H; by rewrite Hsol in H].
  rewrite (primaryVarSwitch_unfold I formulation P V _ _ _ globalPos _ _ Hd Hsol)
    in H.
  cbn zeta in H.
  destruct (switch_checks _ _ _ _ _ _ _ _ _ _ _) as [loc|]; [|done].
  cbn [mbind option_bind] in H.
  exists d, sol, loc. split; [done|]. split; [done|]. congruence.
Qed.

(** Evaluations of the switch keep the grid view, the number of static
    vertex data and the old phase state of every vertex. *)
Lemma tentative_switches_old (J0 J : Jacobian) :
  tentative_switches I formulation P V J0 J →
  gridView_ J = gridView_ J0 ∧
  oldPhaseState <$> staticVertexDat_ J = oldPhaseState <$> staticVertexDat_ J0.
Proof.
  induction 1 as [J|J J' J'' g g' idx pos r Hcall _ [IHg IHo]]; [done|].
  destruct (primaryVarSwitch_inv _ _ _ _ _ _ _ Hcall) as (d & sol & loc & Hd & _ & Heq).
  unfold switch_result in Heq. injection Heq as _ _ ->. cbn in *.
  split; [done|]. rewrite IHo, list_fmap_insert. cbn.
  apply list_insert_id. by rewrite list_lookup_fmap, Hd.
Qed.

(** C7: after [resetPhaseState] the phase state of every vertex is its
    old phase state, the one of the last accepted step, whatever
    evaluations of the switch took place since. *)
Theorem resetPhaseState_spec (J0 J : Jacobian) :
  tentative_switches I formulation P V J0 J →
  numVertices J0 = length (staticVertexDat_ J0) →
  ∃ J', resetPhaseState J = Some J' ∧
        ∀ i, (i < numVertices J0)%nat →
             ∃ ps, phaseState_of J' i false = Some ps ∧
                   phaseState_of J' i true = Some ps ∧
                   phaseState_of J0 i true = Some ps.
Proof.
  intros Hhist Hsize.
  destruct (tentative_switches_old _ _ Hhist) as [Hgrid Hold].
  assert (Hlen : length (staticVertexDat_ J) = length (staticVertexDat_ J0)).
  { by rewrite <- (length_fmap oldPhaseState), Hold, length_fmap. }
  unfold resetPhaseState, numVertices in *. rewrite Hgrid.
  rewrite for_loop_modify_static by lia.
  cbn [mbind option_bind]. eexists; split; [reflexivity|].
  intros i Hi. unfold phaseState_of. cbn.
  rewrite Hsize, <- Hlen, firstn_all, drop_all, app_nil_r.
  rewrite list_lookup_fmap.
  destruct (lookup_lt_is_Some_2 (staticVertexDat_ J) i) as [d Hd]; [lia|].
  destruct (lookup_lt_is_Some_2 (staticVertexDat_ J0) i) as [d0 Hd0]; [lia|].
  rewrite Hd, Hd0. cbn. exists (oldPhaseState d). repeat split.
  assert (Ho : (oldPhaseState <$> staticVertexDat_ J) !! i
               = (oldPhaseState <$> staticVertexDat_ J0) !! i) by by rewrite Hold.
  rewrite !list_lookup_fmap, Hd, Hd0 in Ho. cbn in Ho. congruence.
Qed.
End Rollback.

(** ** Restart files *)

Lemma skip_ws_app (ws text : list ascii) :
  Forall (λ c, isspace c = true) ws → skip_ws (ws ++ text) = skip_ws text.
Proof.
  induction 1 as [|c ws Hc _ IH]; [done|]. cbn [app skip_ws]. by rewrite Hc.
Qed.

Lemma skip_ws_split (text : list ascii) :
  ∃ ws, text = ws ++ skip_ws text ∧ Forall (λ c, isspace c = true) ws.
Proof.
  induction text as [|c text (ws & IH & Hws)]; [by exists []|].
  cbn [skip_ws]. destruct (isspace c) eqn:Hc.
  - exists (c :: ws). split; [by cbn; rewrite <- IH|by constructor].
  - by exists [].
Qed.

Lemma take_digits_app (digits rest : list ascii) :
  Forall (λ c, isdigit c = true) digits → next_no_digit rest →
  take_digits (digits ++ rest) = (digits, rest).
Proof.
  intros Hd Hrest. induction Hd as [|c digits Hc _ IH].
  - destruct rest as [|c rest]; [done|]. cbn in *. by rewrite Hrest.
  - cbn [app take_digits]. by rewrite Hc, IH.
Qed.

Lemma take_digits_split (text digits rest : list ascii) :
  take_digits text = (digits, rest) →
  text = digits ++ rest ∧ Forall (λ c, isdigit c = true) digits ∧
  next_no_digit rest.
Proof.
  revert digits rest. induction text as [|c text IH]; intros digits rest.
  - cbn. by intros [= <- <-].
  - cbn [take_digits]. destruct (isdigit c) eqn:Hc.
    + destruct (take_digits text) as [ds r]. intros [= <- <-].
      destruct (IH ds r eq_refl) as (-> & Hds & Hr).
      split; [done|]. split; [by constructor|done].
    + intros [= <- <-]. split; [done|]. split; [constructor|exact Hc].
Qed.

Lemma isdigit_not_space (c : ascii) : isdigit c = true → isspace c = false.
Proof.
  unfold isdigit, isspace. cbv zeta. intros H.
  apply andb_true_iff in H as [H1 H2].
  apply Nat.leb_le in H1. apply Nat.leb_le in H2.
  apply orb_false_iff. split.
  - apply Nat.eqb_neq. lia.
  - apply andb_false_iff. right. apply Nat.leb_gt. lia.
Qed.

Lemma isdigit_not_sign (c : ascii) :
  isdigit c = true → Ascii.eqb c "-" = false ∧ Ascii.eqb c "+" = false.
Proof.
  intros H. split; apply Ascii.eqb_neq; intros ->; discriminate H.
Qed.

(** No integer is next in a text that is empty. *)
Lemma next_is_integer_nil : ¬ next_is_integer [].
Proof.
  intros (ws & lit & z & rest & Htext & _ & digits & Hne & _ & Hlit).
  symmetry in Htext. apply app_eq_nil in Htext as [_ Htext].
  apply app_eq_nil in Htext as [-> _].
  destruct Hlit as [[<- _]|[[? _]|[? _]]]; done.
Qed.

(** The three outcomes of the conversion of the digits, as one. *)
Lemma extract_int_digits (state : iostate) (negative : bool)
    (digits rest : list ascii) :
  digits ≠ [] →
  match digits with
  | [] => (0%Z, {| is_state := setstate (match rest with [] => true | _ :: _ => false end)
                                true state;
                   is_text := rest |})
  | _ :: _ =>
      let v := if negative then (- decimal_value digits)%Z
               else decimal_value digits in
      if (v <? INT_MIN)%Z then
        (INT_MIN, {| is_state := setstate (match rest with [] => true | _ :: _ => false end)
                                   true state;
                     is_text := rest |})
      else if (INT_MAX <? v)%Z then
        (INT_MAX, {| is_state := setstate (match rest with [] => true | _ :: _ => false end)
                                   true state;
                     is_text := rest |})
      else (v, {| is_state := setstate (match rest with [] => true | _ :: _ => false end)
                                false state;
                  is_text := rest |})
  end
  = let v := if negative then (- decimal_value digits)%Z
             else decimal_value digits in
    (int_clamp v,
     {| is_state := setstate (match rest with [] => true | _ :: _ => false end)
                      (negb (fits_int v)) state;
        is_text := rest |}).
Proof.
  intros Hne. destruct digits as [|c digits]; [done|]. cbv zeta.
  unfold int_clamp, fits_int.
  set (v := if negative then _ else _).
  destruct (v <? INT_MIN)%Z eqn:H1.
  - apply Z.ltb_lt in H1. by rewrite (proj2 (Z.leb_gt _ _) H1).
  - apply Z.ltb_ge in H1. rewrite (proj2 (Z.leb_le _ _) H1). cbn [andb].
    destruct (INT_MAX <? v)%Z eqn:H2.
    + apply Z.ltb_lt in H2. by rewrite (proj2 (Z.leb_gt _ _) H2).
    + apply Z.ltb_ge in H2. by rewrite (proj2 (Z.leb_le _ _) H2).
Qed.

(** The extraction on a good stream in which an integer is next: the
    white space and the integer are taken out; the nearest [int] is
    stored; the stream fails when the number is no [int], and is at its
    end when nothing follows the number. *)
Lemma extract_int_literal (inStream : istream) (x : Z)
    (ws lit rest : list ascii) (v : Z) :
  is_good inStream = true →
  is_text inStream = ws ++ lit ++ rest →
  Forall (λ c, isspace c = true) ws →
  int_literal lit v →
  next_no_digit rest →
  extract_int inStream x
  = (int_clamp v,
     {| is_state := setstate (match rest with [] => true | _ :: _ => false end)
                      (negb (fits_int v)) (is_state inStream);
        is_text := rest |}).
Proof.
  intros Hgood Htext Hws (digits & Hne & Hdigits & Hlit) Hrest.
  unfold extract_int. rewrite Hgood, Htext, (skip_ws_app _ _ Hws).
  cbn [negb].
  destruct digits as [|c0 digits]; [done|].
  pose proof (Forall_inv Hdigits) as Hc0. cbn beta in Hc0.
  pose proof (isdigit_not_space _ Hc0) as Hsp.
  destruct (isdigit_not_sign _ Hc0) as [Hm Hp].
  destruct Hlit as [[-> ->]|[[-> ->]|[-> ->]]].
  - cbn [app skip_ws]. rewrite Hsp, Hm, Hp. cbn [orb].
    change (c0 :: digits ++ rest) with ((c0 :: digits) ++ rest).
    rewrite (take_digits_app _ _ Hdigits Hrest).
    by rewrite (extract_int_digits _ false (c0 :: digits) rest).
  - cbn [app skip_ws]. change (isspace "+") with false. cbv iota.
    change (Ascii.eqb "+" "-") with false. change (Ascii.eqb "+" "+") with true.
    cbn [orb].
    change (c0 :: digits ++ rest) with ((c0 :: digits) ++ rest).
    rewrite (take_digits_app _ _ Hdigits Hrest).
    by rewrite (extract_int_digits _ false (c0 :: digits) rest).
  - cbn [app skip_ws]. change (isspace "-") with false. cbv iota.
    change (Ascii.eqb "-" "-") with true. cbn [orb].
    change (c0 :: digits ++ rest) with ((c0 :: digits) ++ rest).
    rewrite (take_digits_app _ _ Hdigits Hrest).
    by rewrite (extract_int_digits _ true (c0 :: digits) rest).
Qed.

(** The extraction on a good stream in which no integer is next: the
    stream fails, and the operand keeps its value or becomes zero. *)
Lemma extract_int_none (inStream : istream) (x : Z) :
  is_good inStream = true →
  ¬ next_is_integer (is_text inStream) →
  ∃ z inStream', extract_int inStream x = (z, inStream') ∧
    (z = x ∨ z = 0%Z) ∧ failbit (is_state inStream') = true.
Proof.
  intros Hgood Hnone. unfold extract_int. rewrite Hgood. cbn [negb].
  destruct (skip_ws_split (is_text inStream)) as (ws & Htext & Hws).
  destruct (skip_ws (is_text inStream)) as [|c text'] eqn:Hskip.
  { eexists _, _. split; [reflexivity|]. split; [by left|].
    cbn. by rewrite orb_true_r. }
  destruct (take_digits (if Ascii.eqb c "-" || Ascii.eqb c "+"
                         then text' else c :: text'))
    as [digits rest] eqn:Htake.
  destruct digits as [|c0 digits].
  { eexists _, _. split; [reflexivity|]. split; [by right|].
    cbn. by rewrite orb_true_r. }
  exfalso. apply Hnone.
  apply take_digits_split in Htake as (Hsplit & Hdigits & _).
  destruct (Ascii.eqb c "-") eqn:Hm; [|destruct (Ascii.eqb c "+") eqn:Hp].
  - apply Ascii.eqb_eq in Hm as ->. cbn [orb] in Hsplit. subst text'.
    exists ws, ("-"%char :: c0 :: digits), (- decimal_value (c0 :: digits))%Z, rest.
    split; [by rewrite Htext|]. split; [done|].
    exists (c0 :: digits). split; [done|]. split; [done|]. by right; right.
  - apply Ascii.eqb_eq in Hp as ->. cbn [orb] in Hsplit. subst text'.
    exists ws, ("+"%char :: c0 :: digits), (decimal_value (c0 :: digits)), rest.
    split; [by rewrite Htext|]. split; [done|].
    exists (c0 :: digits). split; [done|]. split; [done|]. by right; left.
  - cbn [orb] in Hsplit.
    exists ws, (c0 :: digits), (decimal_value (c0 :: digits)), rest.
    split; [by rewrite Htext, Hsplit|]. split; [done|].
    exists (c0 :: digits). split; [done|]. split; [done|]. by left.
Qed.

(** A stream that is good has no bit set. *)
Lemma is_good_goodbit (inStream : istream) :
  is_good inStream = true → is_state inStream = goodbit.
Proof.
  unfold is_good, goodbit. destruct (is_state inStream) as [[|] [|] [|]]; done.
Qed.

(** [deserializeEntity] on a good stream for a vertex that the static
    data know: the call returns, and what the extraction left in the
    phase state is the old phase state as well. *)
Lemma deserializeEntity_good (J : Jacobian) (inStream : istream) (vert : Vertex)
    (d : StaticVertexData) :
  is_good inStream = true →
  staticVertexDat_ J !! dofIndex vert = Some d →
  deserializeEntity J inStream vert
  = Some (Returns, snd (extract_int inStream (phaseState d)),
          set_staticVertexDat
            (<[dofIndex vert :=
                 {| phaseState := fst (extract_int inStream (phaseState d));
                    wasSwitched := wasSwitched d;
                    oldPhaseState := fst (extract_int inStream (phaseState d)) |}]>
               (staticVertexDat_ J)) J).
Proof.
  intros Hgood Hd. unfold deserializeEntity. rewrite Hgood, Hd.
  cbn [negb mbind option_bind].
  assert (Hi : (dofIndex vert < length (staticVertexDat_ J))%nat)
    by (eapply lookup_lt_Some; eauto).
  destruct (extract_int inStream (phaseState d)) as [z s'].
  rewrite (modify_static_Some _ _ _ _ Hd). cbn [mbind option_bind].
  erewrite modify_static_Some by (by apply list_lookup_insert_eq).
  cbn [mbind option_bind fst snd]. by rewrite list_insert_insert_eq.
Qed.

(** C8, as amended: each of [serializeEntity] and [deserializeEntity]
    throws [IOError] with the index of the vertex exactly when its
    stream is not good at the call, before it touches the stream or the
    object. On a good stream [serializeEntity] writes the phase state of
    the vertex, one integer, and a blank. On a good stream
    [deserializeEntity] returns without an exception, and the phase
    state and the old phase state of the vertex hold the same value
    afterwards. When an integer is next in the stream, this integer and
    no more is taken out of the stream, the stream is at its end
    exactly when nothing follows the integer, and the value is the
    integer when it is an [int], and else the nearest [int] with a stream
    that has failed. When no integer is next, the stream has failed, and
    the value is the former phase state or zero. *)
Theorem restart_entity_spec (J : Jacobian) (vert : Vertex) :
  (∀ outStream : ostream,
     (os_good outStream = false →
      serializeEntity J outStream vert
      = Some (Throws (IOError "Could not serialize vertex " (dofIndex vert)),
              outStream, J)) ∧
     (os_good outStream = true →
      ∀ d, staticVertexDat_ J !! dofIndex vert = Some d →
           serializeEntity J outStream vert
           = Some (Returns,
                   {| os_good := true;
                      os_written := os_written outStream ++
                                    [OutInt (phaseState d); OutText " "] |},
                   J))) ∧
  (∀ inStream : istream,
     (is_good inStream = false →
      deserializeEntity J inStream vert
      = Some (Throws (IOError "Could not deserialize vertex " (dofIndex vert)),
              inStream, J)) ∧
     (is_good inStream = true →
      ∀ d, staticVertexDat_ J !! dofIndex vert = Some d →
           ∃ (z : Z) (inStream' : istream),
             deserializeEntity J inStream vert
             = Some (Returns, inStream',
                     set_staticVertexDat
                       (<[dofIndex vert :=
                            {| phaseState := z;
                               wasSwitched := wasSwitched d;
                               oldPhaseState := z |}]>
                          (staticVertexDat_ J)) J) ∧
             (∀ ws lit v rest,
                is_text inStream = ws ++ lit ++ rest →
                Forall (λ c, isspace c = true) ws →
                int_literal lit v →
                next_no_digit rest →
                is_text inStream' = rest ∧
                (eofbit (is_state inStream') = true ↔ rest = []) ∧
                (fits_int v = true →
                 z = v ∧ failbit (is_state inStream') = false) ∧
                ((v < INT_MIN)%Z →
                 z = INT_MIN ∧ failbit (is_state inStream') = true) ∧
                ((INT_MAX < v)%Z →
                 z = INT_MAX ∧ failbit (is_state inStream') = true)) ∧
             (¬ next_is_integer (is_text inStream) →
              (z = phaseState d ∨ z = 0%Z) ∧
              failbit (is_state inStream') = true))).
Proof.
  split.
  - intros outStream. unfold serializeEntity. split.
    + by intros ->.
    + intros Hgood d Hd. rewrite Hgood, Hd. cbn. unfold put. cbn.
      by rewrite Hgood, <- app_assoc.
  - intros inStream. split.
    + unfold deserializeEntity. by intros ->.
    + intros Hgood d Hd.
      exists (fst (extract_int inStream (phaseState d))),
             (snd (extract_int inStream (phaseState d))).
      split; [exact (deserializeEntity_good J inStream vert d Hgood Hd)|].
      split.
      * intros ws lit v rest Htext Hws Hlit Hrest.
        rewrite (extract_int_literal inStream (phaseState d) ws lit rest v
                   Hgood Htext Hws Hlit Hrest).
        rewrite (is_good_goodbit _ Hgood).
        cbn [fst snd is_text is_state setstate goodbit eofbit failbit orb].
        split; [done|]. split; [by destruct rest|].
        unfold int_clamp, fits_int. split; [|split].
        -- intros Hfit. rewrite Hfit.
           apply andb_true_iff in Hfit as [H1 H2].
           apply Z.leb_le in H1. apply Z.leb_le in H2.
           rewrite (proj2 (Z.ltb_ge _ _) H1), (proj2 (Z.ltb_ge _ _) H2). done.
        -- intros Hlow. rewrite (proj2 (Z.ltb_lt _ _) Hlow).
           by rewrite (proj2 (Z.leb_gt _ _) Hlow).
        -- intros Hhigh. assert (Hmin : (INT_MIN <= v)%Z)
             by (unfold INT_MIN, INT_MAX in *; lia).
           rewrite (proj2 (Z.ltb_ge _ _) Hmin), (proj2 (Z.ltb_lt _ _) Hhigh).
           rewrite (proj2 (Z.leb_gt _ _) Hhigh). by rewrite andb_false_r.
      * intros Hnone.
        destruct (extract_int_none inStream (phaseState d) Hgood Hnone)
          as (z & s' & Hext & Hz & Hfail).
        rewrite Hext. by cbn [fst snd].
Qed.

(** The restart file is at its end: [deserializeEntity] on a good stream
    without text finds no integer. It returns all the same, and leaves a
    stream that has failed; the phase state stays, and the old phase
    state is overwritten with it. *)
Lemma deserializeEntity_end_of_input (J : Jacobian) (vert : Vertex)
    (d : StaticVertexData) :
  staticVertexDat_ J !! dofIndex vert = Some d →
  deserializeEntity J {| is_state := goodbit; is_text := [] |} vert
  = Some (Returns,
          {| is_state := {| eofbit := true; failbit := true; badbit := false |};
             is_text := [] |},
          set_staticVertexDat
            (<[dofIndex vert :=
                 {| phaseState := phaseState d;
                    wasSwitched := wasSwitched d;
                    oldPhaseState := phaseState d |}]>
               (staticVertexDat_ J)) J).
Proof.
  intros Hd.
  by rewrite (deserializeEntity_good J {| is_state := goodbit; is_text := [] |}
               vert d eq_refl Hd).
Qed.

(** C8 as it is stated fails at the end of a restart file: on the good
    stream without text [deserializeEntity] throws no [IOError], and the
    call that returns has read no integer. *)
Lemma restart_read_claim_fails :
  ¬ restart_read_claim Instance.jacobian
      {| is_state := goodbit; is_text := [] |} Instance.vertex0.
Proof.
  intros (c & inStream' & J' & Hcall & _ & _ & Hread).
  rewrite (deserializeEntity_end_of_input Instance.jacobian Instance.vertex0
             _ eq_refl) in Hcall.
  injection Hcall as <- <- <-.
  destruct (Hread eq_refl) as (z & (ws & lit & Htext & Hws & Hlit) & _).
  apply next_is_integer_nil. by exists ws, lit, z, [].
Qed.

(** ** The switch flag over the partitions *)

Lemma bool_max_orb (a b : bool) : bool_max a b = a || b.
Proof. by destruct a, b. Qed.

(** The maximum of the contributions is their disjunction. *)
Lemma comm_max_existsb (contributions : list bool) :
  comm_max contributions = existsb id contributions.
Proof.
  unfold comm_max. induction contributions as [|b bs IH]; [done|].
  cbn. by rewrite bool_max_orb, IH.
Qed.

Section Partitions.
Variable I : TwoPTwoCIndices.
Variable formulation : Z.
Variable P : Problem.
Variable V : VertexDataMethods.

(** A call of the switch for a vertex in range returns, and keeps every
    vertex in range. *)
Lemma primaryVarSwitch_in_range (J : Jacobian) (globalSol : SolutionFunction)
    (v : Vertex) :
  vertex_in_range I J globalSol v →
  ∃ r globalSol' J',
    primaryVarSwitch_ I formulation P V J globalSol (dofIndex v) (corner0 v)
    = Some (r, globalSol', J') ∧
    ∀ v', vertex_in_range I J globalSol v' → vertex_in_range I J' globalSol' v'.
Proof.
  intros (Hlt & sol & Hsol & Hsw).
  destruct (lookup_lt_is_Some_2 _ _ Hlt) as [d Hd].
  rewrite (primaryVarSwitch_unfold I formulation P V _ _ _ (corner0 v) _ _ Hd Hsol).
  cbn zeta.
  destruct (switch_checks_outcome I formulation P
              (switch_update_vertexData I P V (switch_vertexData J) sol
                 (phaseState d) (corner0 v))
              (temperature P sol) (phaseState d) (wasSwitched d) (dofIndex v)
              (corner0 v) globalSol (cout J) sol Hsol Hsw)
    as (loc & -> & Hout).
  cbn [mbind option_bind]. unfold switch_result.
  eexists _, _, _. split; [reflexivity|].
  assert (Hw : switch_write I globalSol (dofIndex v) sol (sw_globalSol loc)).
  { destruct Hout as [(_ & -> & _)|(m & _ & _ & Hw)]; [constructor|exact Hw]. }
  destruct (switch_write_frame I _ _ _ _ Hsol Hw)
    as (Hlen & Hother & sol' & Hsol' & Hlen' & _).
  intros v' (Hlt' & solv & Hsolv & Hswv). split.
  - cbn. by rewrite length_insert.
  - destruct (decide (dofIndex v' = dofIndex v)) as [Heq|Hne].
    + rewrite Heq in *. exists sol'. split; [done|].
      rewrite Hlen'. congruence.
    + exists solv. by rewrite Hother.
Qed.

(** The loop over vertices in range ends, and the flag it computes is
    the disjunction of the flag it starts with and of what the calls
    return. *)
Lemma switch_vertices_returns (verts : list Vertex) (wasSw : bool)
    (globalSol : SolutionFunction) (J : Jacobian) :
  Forall (vertex_in_range I J globalSol) verts →
  ∃ rs globalSol' J',
    switch_returns I formulation P V verts globalSol J = Some rs ∧
    switch_vertices I formulation P V verts wasSw globalSol J
    = Some (existsb id rs || wasSw, globalSol', J').
Proof.
  revert wasSw globalSol J.
  induction verts as [|v verts IH]; intros wasSw globalSol J Hin.
  - by exists [], globalSol, J.
  - apply Forall_cons in Hin as [Hv Hrest].
    destruct (primaryVarSwitch_in_range _ _ _ Hv) as (r & g' & J' & Hcall & Hkeep).
    cbn [switch_returns switch_vertices]. rewrite Hcall.
    cbn [mbind option_bind].
    destruct (IH (r || wasSw) g' J') as (rs & g'' & J'' & -> & ->).
    { eapply Forall_impl; [exact Hrest|]. intros v'. apply Hkeep. }
    cbn [mbind option_bind]. exists (r :: rs), g'', J''.
    split; [done|].
    assert (E : existsb id (r :: rs) || wasSw = existsb id rs || (r || wasSw)).
    { cbn [existsb]. unfold id at 1. by destruct r, (existsb id rs), wasSw. }
    by rewrite E.
Qed.

(** C9: when all the partitions of the grid have run [updateStaticData],
    the switch flag of each of them is the disjunction, over all the
    partitions and over the vertices that each one visits, of what the
    evaluations of the switch returned: a transition on one partition
    sets the flag of all. *)
Theorem updateStaticData_flag (parts : list (Jacobian * SolutionFunction)) :
  Forall (partition_ok I) parts →
  ∃ (parts' : list (Jacobian * SolutionFunction)) (returns : list (list bool)),
    updateStaticData_all I formulation P V parts = Some parts' ∧
    length parts' = length parts ∧
    Forall2 (λ p rs, switch_returns I formulation P V (gridView_ (fst p))
                       (snd p) (fst p) = Some rs) parts returns ∧
    Forall (λ p', switched (fst p') = existsb (existsb id) returns) parts'.
Proof.
  intros Hok. unfold updateStaticData_all.
  assert (Hlocals : ∃ locals : list (bool * list (list Q) * Jacobian),
             ∃ returns : list (list bool),
             mapM (λ p, updateStaticData_local I formulation P V (fst p) (snd p))
               parts = Some locals ∧
             length locals = length parts ∧
             Forall2 (λ p rs, switch_returns I formulation P V (gridView_ (fst p))
                                (snd p) (fst p) = Some rs) parts returns ∧
             (λ r, fst (fst r)) <$> locals = existsb id <$> returns).
  { induction Hok as [|p parts Hp _ (locals & returns & Hm & Hl & Hr & Hf)].
    - by exists [], [].
    - destruct (switch_vertices_returns (gridView_ (fst p)) false (snd p) (fst p) Hp)
        as (rs & g' & J' & Hrs & Hloop).
      eexists (_ :: locals), (rs :: returns). cbn [mapM].
      change (switch_vertices I formulation P V (gridView_ (fst p)) false
                (snd p) (fst p))
        with (updateStaticData_local I formulation P V (fst p) (snd p)) in Hloop.
      rewrite Hloop. cbn [mbind option_bind]. rewrite Hm.
      cbn [mbind option_bind mret option_ret].
      split; [reflexivity|]. split; [cbn; by rewrite Hl|].
      split; [by constructor|]. cbn. by rewrite orb_false_r, Hf. }
  destruct Hlocals as (locals & returns & -> & Hlen & Hret & Hflags).
  cbn [mbind option_bind]. eexists _, returns. split; [reflexivity|].
  split; [by rewrite length_fmap|]. split; [exact Hret|].
  apply Forall_fmap, Forall_forall. intros loc _. cbn.
  rewrite comm_max_existsb, Hflags. clear.
  induction returns as [|rs returns IH]; [done|]. cbn. by rewrite IH.
Qed.
End Partitions.

(** * The theorems on the instance *)

(** Comparisons of closed scalars, by evaluation. *)
Ltac q_closed :=
  vm_compute;
  first [ reflexivity | discriminate
        | let H := fresh in intros H; discriminate H ].

Lemma instance_mass_slots : mass_slots_ok Instance.indices 0 1.
Proof. unfold mass_slots_ok, numEq. cbn. lia. Defined.

Lemma instance_phase_states : phase_states_distinct Instance.indices.
Proof. unfold phase_states_distinct. cbn. lia. Defined.

Lemma computeStorage_spec_witness :
  mass_slots_ok Instance.indices 0 1 ∧
  ∃ storage : PrimaryVarVector,
    computeStorage Instance.indices Instance.jacobian [0; 0] 0 false
    = Some storage ∧
    ∃ q, storage !! 1%nat = Some q ∧
         q == (3 # 10) * (1000 * (3 # 4) * (1 # 100) + (12 # 10) * (1 # 4) * (49 # 50)).
Proof.
  split; [exact instance_mass_slots|].
  destruct (computeStorage_spec Instance.indices Instance.jacobian [0; 0] 0 false
              Instance.vertDat0 instance_mass_slots eq_refl eq_refl)
    as (storage & Hst & _ & Hslot & _).
  exists storage. split; [exact Hst|].
  apply (Hslot 1%nat). unfold numComponents. lia.
Defined.

Lemma computeAdvectiveFlux_spec_witness :
  (0 <= 1 # 2 ∧ 1 # 2 <= 1) ∧
  ∃ flux' : PrimaryVarVector,
    computeAdvectiveFlux Instance.indices (1 # 2) Instance.jacobian [0; 0]
      Instance.fluxData = Some flux' ∧
    length flux' = numEq.
Proof.
  assert (Halpha : 0 <= 1 # 2 ∧ 1 # 2 <= 1) by (split; q_closed).
  split; [exact Halpha|].
  destruct (computeAdvectiveFlux_spec Instance.indices (1 # 2) Instance.jacobian
              [0; 0] Instance.fluxData
              (λ phaseIdx, if (phaseIdx =? 1)%nat then Instance.vertDat1
                           else Instance.vertDat0)
              (λ phaseIdx, if (phaseIdx =? 1)%nat then Instance.vertDat0
                           else Instance.vertDat1)
              instance_mass_slots eq_refl Halpha)
    as (flux' & Hflux & Hlen & _).
  - intros [|[|phaseIdx]] Hphase; [by split|by split|].
    unfold numPhases in Hphase. lia.
  - by exists flux'.
Defined.

Lemma computeDiffusiveFlux_antisymmetric_witness :
  mass_slots_ok Instance.indices (wComp Instance.indices) (nComp Instance.indices) ∧
  ∃ (flux' : PrimaryVarVector) (fw' fn' : Scalar),
    computeDiffusiveFlux Instance.indices [1; 2] Instance.fluxData = Some flux' ∧
    flux' !! 0%nat = Some fw' ∧ flux' !! 1%nat = Some fn' ∧
    fw' == 1 - (3 # 40000) + (3 # 5000000) ∧
    fn' == 2 + (3 # 40000) - (3 # 5000000) ∧
    fw' - 1 == - (fn' - 2).
Proof.
  split; [exact instance_mass_slots|].
  destruct (computeDiffusiveFlux_antisymmetric Instance.indices [1; 2]
              Instance.fluxData instance_mass_slots eq_refl)
    as (flux' & fw & fn & fw' & fn' & Hflux & _ & Hw & Hn & Hw' & Hn'
        & Hfn & Hfw & Hanti).
  exists flux', fw', fn'.
  injection Hw as <-. injection Hn as <-.
  split; [exact Hflux|]. split; [exact Hw'|]. split; [exact Hn'|].
  split; [rewrite Hfw; q_closed|]. split; [rewrite Hfn; q_closed|exact Hanti].
Defined.

(** The second vertex of the instance: one phase, marked as switched, the
    dissolved mass fraction at the solubility limit. *)
Lemma instance_at_limit :
  no_threshold_crossed Instance.indices Instance.problem
    (switch_update_vertexData Instance.indices Instance.problem Instance.methods
       Instance.vertDat0 [100000; 1 # 100] 1 [1; 0])
    (28315 # 100) 1 true.
Proof.
  split.
  - intros x xmax [Hps Hx Hxmax|Hps Hx Hxmax]; [discriminate Hps|].
    rewrite Hx, Hxmax. q_closed.
  - intros Hps. discriminate Hps.
Defined.

Lemma primaryVarSwitch_no_threshold_witness :
  phase_states_distinct Instance.indices ∧
  ∃ J', primaryVarSwitch_ Instance.indices Instance.formulation Instance.problem
          Instance.methods Instance.jacobian Instance.solution 1 [1; 0]
        = Some (false, Instance.solution, J') ∧
        phaseState_of J' 1 false = Some 1%Z.
Proof.
  split; [exact instance_phase_states|].
  destruct (primaryVarSwitch_no_threshold Instance.indices Instance.formulation
              Instance.problem Instance.methods Instance.jacobian
              Instance.solution 1 [1; 0]
              {| phaseState := 1; wasSwitched := true; oldPhaseState := 1 |}
              [100000; 1 # 100] instance_phase_states eq_refl eq_refl)
    as [Hquiet _].
  - cbn. lia.
  - destruct (Hquiet instance_at_limit) as (J' & Hcall & Hps & _).
    by exists J'.
Defined.

Lemma primaryVarSwitch_hysteresis_witness :
  (1 # 100 <= 1 # 100 ∧ 1 # 100 <= (101 # 100) * (1 # 100)) ∧
  ∃ J', primaryVarSwitch_ Instance.indices Instance.formulation Instance.problem
          Instance.methods Instance.jacobian Instance.solution 1 [1; 0]
        = Some (false, Instance.solution, J') ∧
        phaseState_of J' 1 false = Some 1%Z.
Proof.
  assert (Hbounds : 1 # 100 <= 1 # 100 ∧ 1 # 100 <= (101 # 100) * (1 # 100))
    by (split; q_closed).
  split; [exact Hbounds|].
  destruct (primaryVarSwitch_hysteresis Instance.indices Instance.formulation
              Instance.problem Instance.methods Instance.jacobian
              Instance.solution 1 [1; 0]
              {| phaseState := 1; wasSwitched := true; oldPhaseState := 1 |}
              [100000; 1 # 100] (1 # 100) (1 # 100)
              instance_phase_states eq_refl eq_refl)
    as [Hstay _].
  - cbn. lia.
  - by apply check_wPhaseOnly.
  - destruct (Hstay eq_refl (proj1 Hbounds) (proj2 Hbounds)) as (J' & Hcall & Hps & _).
    by exists J'.
Defined.


Lemma instance_vertex0_in_range :
  vertex_in_range Instance.indices Instance.jacobian Instance.solution
    Instance.vertex0.
Proof. split; [cbn; lia|]. exists [100000; 12 # 1000]. split; [done|cbn; lia]. Defined.

Lemma instance_partition_ok :
  partition_ok Instance.indices (Instance.jacobian, Instance.solution).
Proof.
  unfold partition_ok. cbn. repeat constructor; cbn; try lia.
  - exists [100000; 12 # 1000]. split; [done|cbn; lia].
  - exists [100000; 1 # 100]. split; [done|cbn; lia].
Defined.

Lemma resetPhaseState_spec_witness :
  ∃ r globalSol' J J',
    primaryVarSwitch_ Instance.indices Instance.formulation Instance.problem
      Instance.methods Instance.jacobian Instance.solution 0 [0; 0]
    = Some (r, globalSol', J) ∧
    resetPhaseState J = Some J' ∧
    phaseState_of J' 0 false = Some 1%Z ∧
    phaseState_of J' 0 true = Some 1%Z.
Proof.
  destruct (primaryVarSwitch_in_range Instance.indices Instance.formulation
              Instance.problem Instance.methods _ _ _ instance_vertex0_in_range)
    as (r & globalSol' & J & Hcall & _).
  destruct (resetPhaseState_spec Instance.indices Instance.formulation
              Instance.problem Instance.methods Instance.jacobian J)
    as (J' & Hreset & Hall).
  - eapply tentative_step; [exact Hcall|apply tentative_none].
  - reflexivity.
  - destruct (Hall 0%nat) as (ps & Hcur & Hold & Hold0); [cbn; lia|].
    injection Hold0 as <-.
    by exists r, globalSol', J, J'.
Defined.

Lemma restart_entity_spec_witness :
  serializeEntity Instance.jacobian {| os_good := true; os_written := [] |}
    Instance.vertex0
  = Some (Returns,
          {| os_good := true; os_written := [OutInt 1; OutText " "] |},
          Instance.jacobian) ∧
  deserializeEntity Instance.jacobian
    {| is_state := {| eofbit := true; failbit := false; badbit := false |};
       is_text := [] |} Instance.vertex0
  = Some (Throws (IOError "Could not deserialize vertex " 0),
          {| is_state := {| eofbit := true; failbit := false; badbit := false |};
             is_text := [] |}, Instance.jacobian) ∧
  (∃ inStream' J',
     deserializeEntity Instance.jacobian
       {| is_state := goodbit; is_text := list_ascii_of_string "2 1" |}
       Instance.vertex0
     = Some (Returns, inStream', J') ∧
     is_text inStream' = list_ascii_of_string " 1" ∧
     is_good inStream' = true ∧
     phaseState_of J' 0 false = Some 2%Z ∧
     phaseState_of J' 0 true = Some 2%Z) ∧
  (∃ inStream' J',
     deserializeEntity Instance.jacobian
       {| is_state := goodbit; is_text := list_ascii_of_string "99999999999" |}
       Instance.vertex0
     = Some (Returns, inStream', J') ∧
     is_good inStream' = false ∧
     phaseState_of J' 0 false = Some INT_MAX ∧
     phaseState_of J' 0 true = Some INT_MAX) ∧
  (∃ inStream' J',
     deserializeEntity Instance.jacobian
       {| is_state := goodbit; is_text := [] |} Instance.vertex0
     = Some (Returns, inStream', J') ∧
     is_good inStream' = false).
Proof.
  destruct (restart_entity_spec Instance.jacobian Instance.vertex0)
    as [Hout Hin].
  split.
  { exact (proj2 (Hout {| os_good := true; os_written := [] |}) eq_refl _ eq_refl). }
  split.
  { exact (proj1 (Hin {| is_state := {| eofbit := true; failbit := false;
                                        badbit := false |};
                         is_text := [] |}) eq_refl). }
  split; [|split].
  - destruct (proj2 (Hin {| is_state := goodbit;
                            is_text := list_ascii_of_string "2 1" |}) eq_refl
                _ eq_refl) as (z & inStream' & Hcall & Hread & _).
    destruct (Hread [] ["2"%char] 2%Z (list_ascii_of_string " 1") eq_refl)
      as (Htext & Heof & Hfit & _).
    { constructor. }
    { exists ["2"%char]. split; [done|]. split; [by repeat constructor|].
      by left. }
    { reflexivity. }
    destruct (Hfit eq_refl) as [-> Hfail].
    eexists _, _. split; [exact Hcall|]. split; [exact Htext|].
    split; [|by split].
    unfold is_good. rewrite Hfail.
    destruct (eofbit (is_state inStream')) eqn:He.
    + discriminate (proj1 Heof eq_refl).
    + pose proof (f_equal (λ r, match r with
                               | Some (_, s, _) => badbit (is_state s)
                               | None => false
                               end) Hcall) as Hbad.
      cbn in Hbad. by rewrite <- Hbad.
  - destruct (proj2 (Hin {| is_state := goodbit;
                            is_text := list_ascii_of_string "99999999999" |})
                eq_refl _ eq_refl) as (z & inStream' & Hcall & Hread & _).
    destruct (Hread [] (list_ascii_of_string "99999999999") 99999999999%Z []
                eq_refl) as (_ & _ & _ & _ & Hhigh).
    { constructor. }
    { exists (list_ascii_of_string "99999999999"). split; [done|].
      split; [by repeat constructor|]. by left. }
    { exact I. }
    destruct (Hhigh eq_refl) as [-> Hfail].
    eexists _, _. split; [exact Hcall|].
    split; [|by split].
    unfold is_good. rewrite Hfail. by rewrite orb_true_r.
  - destruct (proj2 (Hin {| is_state := goodbit; is_text := [] |}) eq_refl
                _ eq_refl) as (z & inStream' & Hcall & _ & Hnone).
    destruct (Hnone next_is_integer_nil) as [_ Hfail].
    eexists _, _. split; [exact Hcall|].
    unfold is_good. rewrite Hfail. by rewrite orb_true_r.
Defined.

Lemma updateStaticData_flag_witness :
  ∃ (parts' : list (Jacobian * SolutionFunction)),
    updateStaticData_all Instance.indices Instance.formulation Instance.problem
      Instance.methods
      [ (Instance.jacobian, Instance.solution);
        (Instance.jacobian, [[100000; 1 # 1000]; [100000; 1 # 1000]]) ]
    = Some parts' ∧
    Forall (λ p', switched (fst p') = true) parts'.
Proof.
  destruct (updateStaticData_flag Instance.indices Instance.formulation
              Instance.problem Instance.methods
              [ (Instance.jacobian, Instance.solution);
                (Instance.jacobian, [[100000; 1 # 1000]; [100000; 1 # 1000]]) ])
    as (parts' & returns & Hrun & _ & Hret & Hflag).
  - constructor; [exact instance_partition_ok|].
    constructor; [|constructor].
    unfold partition_ok. cbn. repeat constructor; cbn; try lia;
      (exists [100000; 1 # 1000]; split; [done|cbn; lia]).
  - exists parts'. split; [exact Hrun|].
    apply Forall2_cons_inv_l in Hret as (rs0 & returns0 & Hrs0 & Hret & ->).
    apply Forall2_cons_inv_l in Hret as (rs1 & returns1 & Hrs1 & Hret & ->).
    apply Forall2_nil_inv_l in Hret as ->.
    vm_compute in Hrs0. injection Hrs0 as <-.
    vm_compute in Hrs1. injection Hrs1 as <-.
    exact Hflag.
Defined.

Lemma primaryVarSwitch_frame_witness :
  ∃ globalSol' J' sol',
    primaryVarSwitch_ Instance.indices Instance.formulation Instance.problem
      Instance.methods Instance.jacobian Instance.solution 0 [0; 0]
    = Some (true, globalSol', J') ∧
    globalSol' !! 1%nat = Some [100000; 1 # 100] ∧
    globalSol' !! 0%nat = Some sol' ∧
    sol' !! 0%nat = Some 100000 ∧
    staticVertexDat_ J' !! 1%nat
    = Some {| phaseState := 1; wasSwitched := true; oldPhaseState := 1 |}.
Proof.
  destruct (primaryVarSwitch_frame Instance.indices Instance.formulation
              Instance.problem Instance.methods Instance.jacobian
              Instance.solution 0 [0; 0]
              {| phaseState := 1; wasSwitched := false; oldPhaseState := 1 |}
              [100000; 12 # 1000] instance_phase_states)
    as (r & globalSol' & J' & sol' & d' & Hcall & _ & _ & Hother & Hsol' & _
        & _ & Hpress & _ & Hstatic & _).
  - cbn. lia.
  - reflexivity.
  - reflexivity.
  - cbn. lia.
  - assert (Hr : r = true).
    { assert (Hfst : option_map (λ x, fst (fst x))
                       (primaryVarSwitch_ Instance.indices Instance.formulation
                          Instance.problem Instance.methods Instance.jacobian
                          Instance.solution 0 [0; 0]) = Some true)
        by (vm_compute; reflexivity).
      rewrite Hcall in Hfst. by injection Hfst. }
    subst r. exists globalSol', J', sol'.
    split; [exact Hcall|]. split; [by rewrite (Hother 1%nat)|].
    split; [exact Hsol'|]. split; [exact Hpress|].
    by rewrite (Hstatic 1%nat).
Defined.

(** Outside of [0,1] the two guards of [computeAdvectiveFlux] do not give
    the blend: for the weight [2] the downstream term is left out. *)
Example computeAdvectiveFlux_weight_above_one :
  ∃ (flux' : PrimaryVarVector) (q' : Scalar),
    computeAdvectiveFlux Instance.indices 2 Instance.jacobian [0; 0]
      Instance.fluxData = Some flux' ∧
    flux' !! 0%nat = Some q' ∧
    q' - 0 == upstream_advective_flux Instance.fluxData
                (λ phaseIdx, if (phaseIdx =? 1)%nat then Instance.vertDat1
                             else Instance.vertDat0) 0 * 2 ∧
    ¬ q' - 0 == weighted_advective_flux 2 Instance.fluxData
                  (λ phaseIdx, if (phaseIdx =? 1)%nat then Instance.vertDat1
                               else Instance.vertDat0)
                  (λ phaseIdx, if (phaseIdx =? 1)%nat then Instance.vertDat0
                               else Instance.vertDat1) 0.
Proof.
  eexists _, _. split; [reflexivity|]. split; [reflexivity|].
  split; q_closed.
Qed.

(** * Further properties of the class *)

(** ** The static vertex data over the time steps *)

Lemma modify_static_twice (i : nat) (f g : StaticVertexData → StaticVertexData)
    (dat : list StaticVertexData) :
  modify_static i f dat ≫= modify_static i g = modify_static i (g ∘ f) dat.
Proof.
  unfold modify_static. destruct (dat !! i) as [d|] eqn:Hd; [|done].
  cbn [mbind option_bind].
  assert (Hi : (i < length dat)%nat) by (eapply lookup_lt_Some; eauto).
  rewrite list_lookup_insert_eq by done. cbn [mbind option_bind].
  by rewrite list_insert_insert_eq.
Qed.

Lemma for_loop_ext {A : Type} (n : nat) (body body' : nat → A → option A) (a : A) :
  (∀ i x, body i x = body' i x) → for_loop n body a = for_loop n body' a.
Proof.
  intros Hext. unfold for_loop. generalize (Some a). generalize (seq 0 n).
  intros l. induction l as [|i l IH]; intros acc; [done|].
  cbn [foldl]. rewrite <- IH. f_equal. destruct acc; [apply Hext|done].
Qed.

Lemma init_vertex_Some (ips : Vertex → nat → GlobalPosition → Z) (v : Vertex)
    (dat : list StaticVertexData) :
  (dofIndex v < length dat)%nat →
  init_vertex ips v dat = Some (<[dofIndex v := initial_static ips v]> dat).
Proof.
  intros Hlt. destruct (lookup_lt_is_Some_2 _ _ Hlt) as [d Hd].
  unfold init_vertex. cbn zeta.
  rewrite (modify_static_Some _ _ _ _ Hd). cbn [mbind option_bind].
  erewrite modify_static_Some by (by apply list_lookup_insert_eq).
  cbn [mbind option_bind].
  erewrite modify_static_Some
    by (rewrite list_lookup_insert_eq; [done|by rewrite length_insert]).
  by rewrite !list_insert_insert_eq.
Qed.

Lemma init_vertices_spec (ips : Vertex → nat → GlobalPosition → Z)
    (verts : list Vertex) (dat : list StaticVertexData) :
  Forall (λ v, (dofIndex v < length dat)%nat) verts →
  NoDup (dofIndex <$> verts) →
  ∃ dat', init_vertices ips verts dat = Some dat' ∧
          length dat' = length dat ∧
          (∀ v, v ∈ verts → dat' !! dofIndex v = Some (initial_static ips v)) ∧
          (∀ j, j ∉ dofIndex <$> verts → dat' !! j = dat !! j).
Proof.
  revert dat. induction verts as [|v verts IH]; intros dat Hin Hnd.
  - exists dat. split; [done|]. split; [done|].
    split; [intros v Hv; by apply elem_of_nil in Hv|done].
  - apply Forall_cons in Hin as [Hv Hrest].
    rewrite fmap_cons in Hnd. apply NoDup_cons in Hnd as [Hfresh Hnd].
    cbn [init_vertices]. rewrite (init_vertex_Some _ _ _ Hv).
    cbn [mbind option_bind].
    destruct (IH (<[dofIndex v := initial_static ips v]> dat))
      as (dat' & -> & Hlen & Hset & Hkeep); [|done|].
    { eapply Forall_impl; [exact Hrest|]. intros w Hw. by rewrite length_insert. }
    exists dat'. split; [done|]. split; [by rewrite Hlen, length_insert|]. split.
    + intros w Hw. apply elem_of_cons in Hw as [->|Hw]; [|by apply Hset].
      rewrite (Hkeep _ Hfresh). by apply list_lookup_insert_eq.
    + intros j Hj. rewrite fmap_cons in Hj. apply not_elem_of_cons in Hj as [Hne Hj].
      rewrite (Hkeep _ Hj). by apply list_lookup_insert_ne.
Qed.

(** X1: [initStaticData], on a grid view whose vertices have distinct
    indices inside the static vertex data, clears the switch flag and
    stores for every vertex the initial phase state of the problem as
    both its phase state and its old phase state, with [wasSwitched]
    false; entries that belong to no vertex of the grid view keep their
    content. *)
Theorem initStaticData_spec (ips : Vertex → nat → GlobalPosition → Z)
    (J : Jacobian) :
  Forall (λ v, (dofIndex v < length (staticVertexDat_ J))%nat) (gridView_ J) →
  NoDup (dofIndex <$> gridView_ J) →
  ∃ J', initStaticData ips J = Some J' ∧
        switched J' = false ∧
        gridView_ J' = gridView_ J ∧
        length (staticVertexDat_ J') = length (staticVertexDat_ J) ∧
        (∀ v, v ∈ gridView_ J →
              staticVertexDat_ J' !! dofIndex v = Some (initial_static ips v)) ∧
        (∀ j, j ∉ dofIndex <$> gridView_ J →
              staticVertexDat_ J' !! j = staticVertexDat_ J !! j).
Proof.
  intros Hin Hnd. unfold initStaticData. cbn zeta. cbn [gridView_ setSwitched staticVertexDat_].
  destruct (init_vertices_spec ips _ _ Hin Hnd) as (dat' & -> & Hlen & Hset & Hkeep).
  cbn [mbind option_bind]. eexists. split; [reflexivity|]. by cbn.
Qed.

Lemma instance_indices_distinct : NoDup (dofIndex <$> gridView_ Instance.jacobian).
Proof.
  cbn. apply NoDup_cons_2; [|apply NoDup_singleton].
  intros H. inversion H as [|? ? ? H']. inversion H'.
Defined.

Lemma initStaticData_spec_witness :
  ∃ J', initStaticData (λ _ globalIdx _, Z.of_nat globalIdx) Instance.jacobian
        = Some J' ∧
        phaseState_of J' 1 false = Some 1%Z ∧
        phaseState_of J' 0 true = Some 0%Z.
Proof.
  destruct (initStaticData_spec (λ _ globalIdx _, Z.of_nat globalIdx)
              Instance.jacobian) as (J' & Hinit & _ & _ & _ & Hset & _).
  - cbn. repeat constructor; cbn; lia.
  - exact instance_indices_distinct.
  - exists J'. split; [exact Hinit|]. unfold phaseState_of.
    assert (H0 := Hset Instance.vertex0 ltac:(cbn; repeat constructor)).
    assert (H1 := Hset Instance.vertex1 ltac:(cbn; repeat constructor)).
    change (dofIndex Instance.vertex0) with 0%nat in H0.
    change (dofIndex Instance.vertex1) with 1%nat in H1.
    by rewrite H0, H1.
Defined.

(** The entries of a list whose first [n] entries were rewritten. *)
Lemma lookup_fmap_take_drop {A : Type} (f : A → A) (n i : nat) (l : list A) :
  ((f <$> take n l) ++ drop n l) !! i
  = if decide (i < n)%nat then f <$> l !! i else l !! i.
Proof.
  destruct (decide (i < n)%nat) as [Hlt|Hge].
  - destruct (decide (i < length l)%nat) as [Hil|Hil].
    + rewrite lookup_app_l by (rewrite length_fmap, length_take; lia).
      by rewrite list_lookup_fmap, lookup_take_lt.
    + rewrite !lookup_ge_None_2; [done|lia|].
      rewrite length_app, length_fmap, length_take, length_drop. lia.
  - destruct (decide (n ≤ length l)%nat) as [Hnl|Hnl].
    + rewrite lookup_app_r by (rewrite length_fmap, length_take; lia).
      rewrite length_fmap, length_take, lookup_drop. f_equal. lia.
    + rewrite drop_ge, app_nil_r by lia. rewrite take_ge by lia.
      rewrite !lookup_ge_None_2; [done|lia|rewrite length_fmap; lia].
Qed.

Lemma updateOldPhaseState_eq (J : Jacobian) :
  (numVertices J ≤ length (staticVertexDat_ J))%nat →
  updateOldPhaseState J
  = Some (set_staticVertexDat
            (((λ d, set_wasSwitched false (set_oldPhaseState (phaseState d) d))
                <$> take (numVertices J) (staticVertexDat_ J))
             ++ drop (numVertices J) (staticVertexDat_ J)) J).
Proof.
  intros Hn. unfold updateOldPhaseState.
  erewrite for_loop_ext; [|intros i x; apply modify_static_twice].
  by rewrite for_loop_modify_static.
Qed.

Lemma resetPhaseState_eq (J : Jacobian) :
  (numVertices J ≤ length (staticVertexDat_ J))%nat →
  resetPhaseState J
  = Some (set_staticVertexDat
            (((λ d, set_phaseState (oldPhaseState d) d)
                <$> take (numVertices J) (staticVertexDat_ J))
             ++ drop (numVertices J) (staticVertexDat_ J)) J).
Proof. intros Hn. unfold resetPhaseState. by rewrite for_loop_modify_static. Qed.

(** X2: [updateOldPhaseState] makes, for every vertex of the grid, the
    old phase state equal to the phase state, which it keeps, and clears
    [wasSwitched]; it changes nothing else of the object. *)
Theorem updateOldPhaseState_spec (J : Jacobian) :
  (numVertices J ≤ length (staticVertexDat_ J))%nat →
  ∃ J', updateOldPhaseState J = Some J' ∧
        switchFlag_ J' = switchFlag_ J ∧ gridView_ J' = gridView_ J ∧
        curElemDat_ J' = curElemDat_ J ∧ prevElemDat_ J' = prevElemDat_ J ∧
        length (staticVertexDat_ J') = length (staticVertexDat_ J) ∧
        ∀ i d, staticVertexDat_ J !! i = Some d →
               staticVertexDat_ J' !! i
               = Some (if decide (i < numVertices J)%nat
                       then {| phaseState := phaseState d; wasSwitched := false;
                               oldPhaseState := phaseState d |}
                       else d).
Proof.
  intros Hn. rewrite (updateOldPhaseState_eq J Hn).
  eexists. split; [reflexivity|]. cbn. repeat split.
  - rewrite length_app, length_fmap, length_take, length_drop. lia.
  - intros i d Hd. rewrite lookup_fmap_take_drop, Hd. by case_decide.
Qed.

Lemma updateOldPhaseState_spec_witness :
  ∃ J', updateOldPhaseState Instance.jacobian = Some J' ∧
        staticVertexDat_ J' !! 1%nat
        = Some {| phaseState := 1; wasSwitched := false; oldPhaseState := 1 |}.
Proof.
  destruct (updateOldPhaseState_spec Instance.jacobian)
    as (J' & Hup & _ & _ & _ & _ & _ & Hall); [cbn; lia|].
  exists J'. split; [exact Hup|].
  exact (Hall 1%nat _ eq_refl).
Defined.

(** X3: [resetPhaseState] writes the phase state only: every vertex keeps
    its [wasSwitched] mark and its old phase state, so the hysteresis of
    a rejected iteration outlives the rollback; and a second
    [resetPhaseState] changes nothing. *)
Theorem resetPhaseState_keeps (J : Jacobian) :
  (numVertices J ≤ length (staticVertexDat_ J))%nat →
  ∃ J', resetPhaseState J = Some J' ∧
        resetPhaseState J' = Some J' ∧
        switchFlag_ J' = switchFlag_ J ∧ gridView_ J' = gridView_ J ∧
        length (staticVertexDat_ J') = length (staticVertexDat_ J) ∧
        ∀ i d, staticVertexDat_ J !! i = Some d →
               ∃ d', staticVertexDat_ J' !! i = Some d' ∧
                     wasSwitched d' = wasSwitched d ∧
                     oldPhaseState d' = oldPhaseState d.
Proof.
  intros Hn. rewrite (resetPhaseState_eq J Hn).
  set (dat' := (_ <$> take _ _) ++ drop _ _).
  assert (Hlen : length dat' = length (staticVertexDat_ J)).
  { unfold dat'. rewrite length_app, length_fmap, length_take, length_drop. lia. }
  eexists. split; [reflexivity|]. split.
  - assert (Hn' : (numVertices (set_staticVertexDat dat' J)
                    ≤ length (staticVertexDat_ (set_staticVertexDat dat' J)))%nat).
    { unfold numVertices in *.
      cbn [set_staticVertexDat gridView_ staticVertexDat_]. lia. }
    rewrite (resetPhaseState_eq _ Hn'). cbn. f_equal.
    unfold set_staticVertexDat. cbn. f_equal.
    apply list_eq. intros i. rewrite lookup_fmap_take_drop.
    unfold numVertices. cbn. unfold dat'. rewrite lookup_fmap_take_drop.
    unfold numVertices. repeat case_decide; try done; try lia.
    by destruct (staticVertexDat_ J !! i).
  - cbn. repeat split; [done|]. intros i d Hd. unfold dat'.
    rewrite lookup_fmap_take_drop, Hd. case_decide; eexists; by split.
Qed.

Lemma resetPhaseState_keeps_witness :
  ∃ J', resetPhaseState Instance.jacobian = Some J' ∧
        resetPhaseState J' = Some J' ∧
        ∃ d', staticVertexDat_ J' !! 1%nat = Some d' ∧ wasSwitched d' = true.
Proof.
  destruct (resetPhaseState_keeps Instance.jacobian)
    as (J' & Hreset & Hagain & _ & _ & _ & Hall); [cbn; lia|].
  exists J'. split; [exact Hreset|]. split; [exact Hagain|].
  destruct (Hall 1%nat _ eq_refl) as (d' & Hd' & Hsw & _). by exists d'.
Defined.

Section RollbackToAccepted.
Variable I : TwoPTwoCIndices.
Variable formulation : Z.
Variable P : Problem.
Variable V : VertexDataMethods.

(** X4: a rollback restores the accepted step: when [updateOldPhaseState]
    has been called, any evaluations of the switch follow and then
    [resetPhaseState] is called, every vertex of the grid has the phase
    state again that it had when [updateOldPhaseState] was called. *)
Theorem resetPhaseState_restores_accepted (J J1 J2 : Jacobian) :
  (numVertices J ≤ length (staticVertexDat_ J))%nat →
  updateOldPhaseState J = Some J1 →
  tentative_switches I formulation P V J1 J2 →
  ∃ J3, resetPhaseState J2 = Some J3 ∧
        ∀ i, (i < numVertices J)%nat →
             ∃ ps, phaseState_of J i false = Some ps ∧
                   phaseState_of J3 i false = Some ps ∧
                   phaseState_of J3 i true = Some ps.
Proof.
  intros Hn Hup Hhist.
  rewrite (updateOldPhaseState_eq J Hn) in Hup. injection Hup as <-.
  destruct (tentative_switches_old I formulation P V _ _ Hhist) as [Hgrid Hold].
  cbn [set_staticVertexDat gridView_ staticVertexDat_] in Hgrid, Hold.
  assert (Hlen : length (staticVertexDat_ J2) = length (staticVertexDat_ J)).
  { rewrite <- (length_fmap oldPhaseState), Hold, length_fmap.
    rewrite length_app, length_fmap, length_take, length_drop. lia. }
  assert (Hn2 : (numVertices J2 ≤ length (staticVertexDat_ J2))%nat)
    by (unfold numVertices in *; rewrite Hgrid; lia).
  rewrite (resetPhaseState_eq J2 Hn2). eexists. split; [reflexivity|].
  intros i Hi. unfold phaseState_of. cbn [set_staticVertexDat staticVertexDat_].
  rewrite lookup_fmap_take_drop.
  assert (Hi2 : (i < numVertices J2)%nat) by (unfold numVertices in *; by rewrite Hgrid).
  rewrite decide_True by done.
  destruct (lookup_lt_is_Some_2 (staticVertexDat_ J) i) as [d Hd]; [lia|].
  destruct (lookup_lt_is_Some_2 (staticVertexDat_ J2) i) as [d2 Hd2]; [lia|].
  rewrite Hd, Hd2. cbn.
  assert (Ho : (oldPhaseState <$> staticVertexDat_ J2) !! i = Some (phaseState d)).
  { rewrite Hold, list_lookup_fmap, lookup_fmap_take_drop, Hd.
    by rewrite decide_True by done. }
  rewrite list_lookup_fmap, Hd2 in Ho. injection Ho as ->.
  by exists (phaseState d).
Qed.
End RollbackToAccepted.

Lemma resetPhaseState_restores_accepted_witness :
  ∃ J1 r globalSol' J2 J3,
    updateOldPhaseState Instance.jacobian = Some J1 ∧
    primaryVarSwitch_ Instance.indices Instance.formulation Instance.problem
      Instance.methods J1 Instance.solution 0 [0; 0] = Some (r, globalSol', J2) ∧
    resetPhaseState J2 = Some J3 ∧
    phaseState_of J3 0 false = Some 1%Z.
Proof.
  destruct (updateOldPhaseState Instance.jacobian) as [J1|] eqn:Hup;
    [|vm_compute in Hup; discriminate Hup].
  assert (Hrange : vertex_in_range Instance.indices J1 Instance.solution
                     Instance.vertex0).
  { rewrite updateOldPhaseState_eq in Hup by (cbn; lia). injection Hup as <-.
    split; [cbn; lia|]. exists [100000; 12 # 1000]. split; [done|cbn; lia]. }
  destruct (primaryVarSwitch_in_range Instance.indices Instance.formulation
              Instance.problem Instance.methods _ _ _ Hrange)
    as (r & globalSol' & J2 & Hcall & _).
  destruct (resetPhaseState_restores_accepted Instance.indices
              Instance.formulation Instance.problem Instance.methods
              Instance.jacobian J1 J2) as (J3 & Hreset & Hall).
  - cbn. lia.
  - exact Hup.
  - eapply tentative_step; [exact Hcall|apply tentative_none].
  - destruct (Hall 0%nat) as (ps & Hps & Hcur & _); [cbn; lia|].
    injection Hps as <-.
    by exists J1, r, globalSol', J2, J3.
Defined.

(** ** The transitions of the switch *)

Section SwitchTransitions.
Variable I : TwoPTwoCIndices.
Variable formulation : Z.
Variable P : Problem.
Variable V : VertexDataMethods.

(** The checks either keep the phase state, with no threshold crossed,
    or take a transition, with a threshold crossed. *)
Lemma switch_checks_decides (vertexData : VertexData) (T : Scalar) (ps : Z)
    (wasSw : bool) (globalIdx : nat) (globalPos : GlobalPosition)
    (globalSol : SolutionFunction) (out : list SwitchMessage)
    (sol : PrimaryVarVector) :
  phase_states_distinct I →
  globalSol !! globalIdx = Some sol →
  (switchIdx I < length sol)%nat →
  ∃ loc,
    switch_checks I formulation P vertexData T ps wasSw globalIdx globalPos
      globalSol out = Some loc ∧
    ((newPhaseState loc = ps ∧ no_threshold_crossed I P vertexData T ps wasSw) ∨
     (phase_transition I ps (newPhaseState loc) ∧
      ¬ no_threshold_crossed I P vertexData T ps wasSw)).
Proof.
  intros Hdist Hsol Hlt. pose proof Hdist as (Hnw & Hnb & Hwb).
  unfold switch_checks. cbv zeta.
  destruct (Z.eqb_spec ps (nPhaseOnly I)) as [Hn|Hn].
  { pose proof (check_nPhaseOnly I P vertexData T ps _ _ Hn eq_refl eq_refl) as Hc.
    destruct_gt.
    - destruct (set_switch_appear_Some I formulation _ _ _ 0 1 Hsol Hlt) as (g & -> & _).
      eexists; split; [reflexivity|]. right. cbn. split; [subst ps; constructor|].
      intros [Hone _]. apply Qgt_bool_true in Hgt.
      specialize (Hone _ _ Hc). unfold applicable_limit in Hone. lra.
    - eexists; split; [reflexivity|]. left. cbn. split; [done|]. split.
      + intros x xmax Hc'.
        destruct (single_phase_check_unique I P _ _ _ _ _ _ _ Hdist Hc Hc') as [-> ->].
        by apply Qgt_bool_false in Hgt.
      + intros Hb. congruence. }
  destruct (Z.eqb_spec ps (wPhaseOnly I)) as [Hw|Hw].
  { pose proof (check_wPhaseOnly I P vertexData T ps _ _ Hw eq_refl eq_refl) as Hc.
    destruct_gt.
    - destruct (set_switch_appear_Some I formulation _ _ _ 1 0 Hsol Hlt) as (g & -> & _).
      eexists; split; [reflexivity|]. right. cbn. split; [subst ps; constructor|].
      intros [Hone _]. apply Qgt_bool_true in Hgt.
      specialize (Hone _ _ Hc). unfold applicable_limit in Hone. lra.
    - eexists; split; [reflexivity|]. left. cbn. split; [done|]. split.
      + intros x xmax Hc'.
        destruct (single_phase_check_unique I P _ _ _ _ _ _ _ Hdist Hc Hc') as [-> ->].
        by apply Qgt_bool_false in Hgt.
      + intros Hb. congruence. }
  destruct (Z.eqb_spec ps (bothPhases I)) as [Hb|Hb].
  { destruct (Qle_bool (saturation vertexData (nPhase I)) 0) eqn:Hsn.
    - rewrite (set_switch_var_Some I _ _ _ _ Hsol Hlt).
      eexists; split; [reflexivity|]. right. cbn. split; [subst ps; constructor|].
      intros [_ Hboth]. apply Qle_bool_iff in Hsn.
      destruct (Hboth Hb) as [Hpos _]. lra.
    - destruct (Qle_bool (saturation vertexData (wPhase I)) 0) eqn:Hsw.
      + rewrite (set_switch_var_Some I _ _ _ _ Hsol Hlt).
        eexists; split; [reflexivity|]. right. cbn. split; [subst ps; constructor|].
        intros [_ Hboth]. apply Qle_bool_iff in Hsw.
        destruct (Hboth Hb) as [_ Hpos]. lra.
      + eexists; split; [reflexivity|]. left. cbn. split; [done|]. split.
        * intros x xmax [Hps _ _|Hps _ _]; congruence.
        * intros _. split; apply Qnot_le_lt; intros Hle;
            apply Qle_bool_iff in Hle; congruence. }
  eexists; split; [reflexivity|]. left. cbn. split; [done|]. split.
  - intros x xmax [Hps _ _|Hps _ _]; congruence.
  - intros Hps. congruence.
Qed.

(** X5: an evaluation of the switch returns false exactly when no
    threshold is crossed: with one phase, when the dissolved mass
    fraction is not above the applicable limit, and with both phases,
    when both saturations are positive; otherwise it takes a transition
    and returns true. *)
Theorem primaryVarSwitch_returns_iff (J : Jacobian)
    (globalSol : SolutionFunction) (globalIdx : nat)
    (globalPos : GlobalPosition) (d : StaticVertexData)
    (sol : PrimaryVarVector) :
  phase_states_distinct I →
  staticVertexDat_ J !! globalIdx = Some d →
  globalSol !! globalIdx = Some sol →
  (switchIdx I < length sol)%nat →
  ∃ r globalSol' J',
    primaryVarSwitch_ I formulation P V J globalSol globalIdx globalPos
    = Some (r, globalSol', J') ∧
    (r = false ↔
     no_threshold_crossed I P
       (switch_update_vertexData I P V (switch_vertexData J) sol (phaseState d)
          globalPos)
       (temperature P sol) (phaseState d) (wasSwitched d)) ∧
    (r = true →
     ∃ ps', phaseState_of J' globalIdx false = Some ps' ∧
            phase_transition I (phaseState d) ps').
Proof.
  intros Hdist Hd Hsol Hlt.
  assert (Hi : (globalIdx < length (staticVertexDat_ J))%nat)
    by (eapply lookup_lt_Some; eauto).
  rewrite (primaryVarSwitch_unfold I formulation P V _ _ _ globalPos _ _ Hd Hsol).
  cbn zeta.
  destruct (switch_checks_decides
              (switch_update_vertexData I P V (switch_vertexData J) sol
                 (phaseState d) globalPos)
              (temperature P sol) (phaseState d) (wasSwitched d) globalIdx
              globalPos globalSol (cout J) sol Hdist Hsol Hlt)
    as (loc & -> & Hcase).
  cbn [mbind option_bind]. unfold switch_result.
  eexists _, _, _. split; [reflexivity|].
  destruct Hcase as [[Hps Hquiet]|[Htr Hloud]].
  - rewrite Hps, Z.eqb_refl. cbn. split; [done|]. intros [=].
  - pose proof (phase_transition_ne I _ _ Hdist Htr) as Hne.
    apply Z.eqb_neq in Hne. rewrite Hne. cbn [negb]. split.
    + split; [intros [=]|intros Hq; by destruct Hloud].
    + intros _. exists (newPhaseState loc). split; [|exact Htr].
      unfold phaseState_of. cbn. by rewrite list_lookup_insert_eq.
Qed.

(** X6: for a vertex whose phase state is none of the three known values
    the evaluation takes no branch: it returns false, keeps the phase
    state and the solution, prints nothing, and sets [wasSwitched] to
    false. *)
Theorem primaryVarSwitch_unknown_state (J : Jacobian)
    (globalSol : SolutionFunction) (globalIdx : nat)
    (globalPos : GlobalPosition) (d : StaticVertexData)
    (sol : PrimaryVarVector) :
  staticVertexDat_ J !! globalIdx = Some d →
  globalSol !! globalIdx = Some sol →
  phaseState d ≠ nPhaseOnly I →
  phaseState d ≠ wPhaseOnly I →
  phaseState d ≠ bothPhases I →
  ∃ J', primaryVarSwitch_ I formulation P V J globalSol globalIdx globalPos
        = Some (false, globalSol, J') ∧
        cout J' = cout J ∧
        staticVertexDat_ J'
        = <[globalIdx := {| phaseState := phaseState d; wasSwitched := false;
                            oldPhaseState := oldPhaseState d |}]>
            (staticVertexDat_ J).
Proof.
  intros Hd Hsol Hn Hw Hb.
  rewrite (primaryVarSwitch_unfold I formulation P V _ _ _ globalPos _ _ Hd Hsol).
  cbn zeta. unfold switch_checks. cbv zeta.
  apply Z.eqb_neq in Hn, Hw, Hb. rewrite Hn, Hw, Hb.
  cbn [mbind option_bind]. unfold switch_result. cbn.
  rewrite Z.eqb_refl. eexists. by split.
Qed.
End SwitchTransitions.

Section SwitchBranches.
Variable I : TwoPTwoCIndices.
Variable formulation : Z.
Variable P : Problem.
Variable V : VertexDataMethods.

(** X7: with both phases present, a saturation of the non-wetting phase
    that is not positive takes the vertex to the wetting phase only,
    whatever the saturation of the wetting phase is, and writes [xAW]
    into the switch entry; otherwise a saturation of the wetting phase
    that is not positive takes it to the non-wetting phase only and
    writes [xWN]. Both limits are taken at the pressure of the non-wetting
    phase, and [wasSwitched] is set. *)
Theorem primaryVarSwitch_phase_disappears (J : Jacobian)
    (globalSol : SolutionFunction) (globalIdx : nat)
    (globalPos : GlobalPosition) (d : StaticVertexData)
    (sol : PrimaryVarVector) :
  phase_states_distinct I →
  staticVertexDat_ J !! globalIdx = Some d →
  globalSol !! globalIdx = Some sol →
  (switchIdx I < length sol)%nat →
  phaseState d = bothPhases I →
  let vertexData :=
    switch_update_vertexData I P V (switch_vertexData J) sol (bothPhases I)
      globalPos in
  let pn := pressure vertexData (nPhase I) in
  (saturation vertexData (nPhase I) <= 0 →
   ∃ J', primaryVarSwitch_ I formulation P V J globalSol globalIdx globalPos
         = Some (true,
                 <[globalIdx := <[switchIdx I :=
                      multicomp_xAW P pn (temperature P sol)]> sol]> globalSol,
                 J') ∧
         staticVertexDat_ J' !! globalIdx
         = Some {| phaseState := wPhaseOnly I; wasSwitched := true;
                   oldPhaseState := oldPhaseState d |}) ∧
  (0 < saturation vertexData (nPhase I) →
   saturation vertexData (wPhase I) <= 0 →
   ∃ J', primaryVarSwitch_ I formulation P V J globalSol globalIdx globalPos
         = Some (true,
                 <[globalIdx := <[switchIdx I :=
                      multicomp_xWN P pn (temperature P sol)]> sol]> globalSol,
                 J') ∧
         staticVertexDat_ J' !! globalIdx
         = Some {| phaseState := nPhaseOnly I; wasSwitched := true;
                   oldPhaseState := oldPhaseState d |}).
Proof.
  intros (Hnw & Hnb & Hwb) Hd Hsol Hlt Hps vertexData pn.
  assert (Hi : (globalIdx < length (staticVertexDat_ J))%nat)
    by (eapply lookup_lt_Some; eauto).
  rewrite (primaryVarSwitch_unfold I formulation P V _ _ _ globalPos _ _ Hd Hsol).
  cbn zeta. rewrite Hps. fold vertexData. unfold switch_checks. cbv zeta.
  destruct (Z.eqb_spec (bothPhases I) (nPhaseOnly I)) as [Heq|_]; [congruence|].
  destruct (Z.eqb_spec (bothPhases I) (wPhaseOnly I)) as [Heq|_]; [congruence|].
  rewrite Z.eqb_refl. split.
  - intros Hsn. rewrite (Qle_bool_true _ _ Hsn).
    rewrite (set_switch_var_Some I _ _ _ _ Hsol Hlt).
    cbn [mbind option_bind]. unfold switch_result. cbn. rewrite Hps.
    destruct (Z.eqb_spec (bothPhases I) (wPhaseOnly I)) as [Heq|_]; [congruence|].
    eexists. split; [reflexivity|]. cbn. by apply list_lookup_insert_eq.
  - intros Hsn Hsw. rewrite (Qle_bool_false _ _ Hsn), (Qle_bool_true _ _ Hsw).
    rewrite (set_switch_var_Some I _ _ _ _ Hsol Hlt).
    cbn [mbind option_bind]. unfold switch_result. cbn. rewrite Hps.
    destruct (Z.eqb_spec (bothPhases I) (nPhaseOnly I)) as [Heq|_]; [congruence|].
    eexists. split; [reflexivity|]. cbn. by apply list_lookup_insert_eq.
Qed.

(** X8: with one phase present and the dissolved mass fraction above the
    applicable limit, the vertex goes to both phases and the call returns
    true; [wasSwitched] becomes the comparison with the limit itself. The
    switch entry becomes a saturation: in the formulation [pNsW], [0] when
    the wetting phase appears and [1] when the non-wetting phase appears;
    in the formulation [pWsN], the other way round; for any other value
    of the formulation the solution is left as it is. *)
Theorem primaryVarSwitch_phase_appears (J : Jacobian)
    (globalSol : SolutionFunction) (globalIdx : nat)
    (globalPos : GlobalPosition) (d : StaticVertexData)
    (sol : PrimaryVarVector) (x xmax : Scalar) :
  phase_states_distinct I →
  staticVertexDat_ J !! globalIdx = Some d →
  globalSol !! globalIdx = Some sol →
  (switchIdx I < length sol)%nat →
  single_phase_check I P
    (switch_update_vertexData I P V (switch_vertexData J) sol (phaseState d)
       globalPos)
    (temperature P sol) (phaseState d) x xmax →
  applicable_limit (wasSwitched d) xmax < x →
  ∃ globalSol' J',
    primaryVarSwitch_ I formulation P V J globalSol globalIdx globalPos
    = Some (true, globalSol', J') ∧
    staticVertexDat_ J' !! globalIdx
    = Some {| phaseState := bothPhases I; wasSwitched := Qgt_bool x xmax;
              oldPhaseState := oldPhaseState d |} ∧
    (formulation = pNsW I →
     globalSol' = <[globalIdx := <[switchIdx I :=
                      if decide (phaseState d = nPhaseOnly I) then 0 else 1]> sol]>
                    globalSol) ∧
    (formulation ≠ pNsW I → formulation = pWsN I →
     globalSol' = <[globalIdx := <[switchIdx I :=
                      if decide (phaseState d = nPhaseOnly I) then 1 else 0]> sol]>
                    globalSol) ∧
    (formulation ≠ pNsW I → formulation ≠ pWsN I → globalSol' = globalSol).
Proof.
  intros Hdist Hd Hsol Hlt Hcheck Hx. pose proof Hdist as (Hnw & Hnb & Hwb).
  assert (Hi : (globalIdx < length (staticVertexDat_ J))%nat)
    by (eapply lookup_lt_Some; eauto).
  rewrite (primaryVarSwitch_unfold I formulation P V _ _ _ globalPos _ _ Hd Hsol).
  cbn zeta. unfold switch_checks. cbv zeta.
  apply Qgt_bool_true in Hx. unfold applicable_limit in Hx.
  assert (Hwrite : ∀ a b : Scalar,
             set_switch_appear I formulation globalIdx a b globalSol
             = Some (if (formulation =? pNsW I)%Z
                     then <[globalIdx := <[switchIdx I := a]> sol]> globalSol
                     else if (formulation =? pWsN I)%Z
                          then <[globalIdx := <[switchIdx I := b]> sol]> globalSol
                          else globalSol)).
  { intros a b. unfold set_switch_appear.
    destruct (formulation =? pNsW I)%Z; [|destruct (formulation =? pWsN I)%Z];
      by rewrite ?(set_switch_var_Some I _ _ _ _ Hsol Hlt). }
  destruct Hcheck as [Hps -> ->|Hps -> ->]; rewrite Hps in *.
  - rewrite Z.eqb_refl. rewrite Hx. rewrite Hwrite.
    cbn [mbind option_bind]. unfold switch_result. cbn. rewrite Hps.
    destruct (Z.eqb_spec (nPhaseOnly I) (bothPhases I)) as [Heq|_]; [congruence|].
    eexists _, _. split; [reflexivity|]. cbn.
    split.
    { rewrite list_lookup_insert_eq by done.
      match goal with
      | |- context [if Qgt_bool ?a ?b then true else false] =>
          by destruct (Qgt_bool a b)
      end. }
    rewrite !decide_True by done.
    repeat split.
    + intros ->. by rewrite Z.eqb_refl.
    + intros Hne1 Heq. apply Z.eqb_neq in Hne1. rewrite Hne1.
      by rewrite Heq, Z.eqb_refl.
    + intros Hne1 Hne2. apply Z.eqb_neq in Hne1, Hne2. by rewrite Hne1, Hne2.
  - destruct (Z.eqb_spec (wPhaseOnly I) (nPhaseOnly I)) as [Heq|Hne]; [congruence|].
    rewrite Z.eqb_refl. rewrite Hx. rewrite Hwrite.
    cbn [mbind option_bind]. unfold switch_result. cbn. rewrite Hps.
    destruct (Z.eqb_spec (wPhaseOnly I) (bothPhases I)) as [Heq|_]; [congruence|].
    eexists _, _. split; [reflexivity|]. cbn.
    split.
    { rewrite list_lookup_insert_eq by done.
      match goal with
      | |- context [if Qgt_bool ?a ?b then true else false] =>
          by destruct (Qgt_bool a b)
      end. }
    rewrite !decide_False by done.
    repeat split.
    + intros ->. by rewrite Z.eqb_refl.
    + intros Hne1 Heq. apply Z.eqb_neq in Hne1. rewrite Hne1.
      by rewrite Heq, Z.eqb_refl.
    + intros Hne1 Hne2. apply Z.eqb_neq in Hne1, Hne2. by rewrite Hne1, Hne2.
Qed.
End SwitchBranches.

Lemma primaryVarSwitch_returns_iff_witness :
  ∃ r globalSol' J',
    primaryVarSwitch_ Instance.indices Instance.formulation Instance.problem
      Instance.methods Instance.jacobian Instance.solution 1 [1; 0]
    = Some (r, globalSol', J') ∧ r = false.
Proof.
  destruct (primaryVarSwitch_returns_iff Instance.indices Instance.formulation
              Instance.problem Instance.methods Instance.jacobian
              Instance.solution 1 [1; 0]
              {| phaseState := 1; wasSwitched := true; oldPhaseState := 1 |}
              [100000; 1 # 100] instance_phase_states eq_refl eq_refl)
    as (r & globalSol' & J' & Hcall & Hiff & _); [cbn; lia|].
  exists r, globalSol', J'. split; [exact Hcall|].
  apply Hiff. exact instance_at_limit.
Defined.

Lemma primaryVarSwitch_unknown_state_witness :
  ∃ J', primaryVarSwitch_ Instance.indices Instance.formulation Instance.problem
          Instance.methods
          (set_staticVertexDat
             [ {| phaseState := 7; wasSwitched := true; oldPhaseState := 1 |} ]
             Instance.jacobian)
          Instance.solution 0 [0; 0]
        = Some (false, Instance.solution, J') ∧
        staticVertexDat_ J'
        = [ {| phaseState := 7; wasSwitched := false; oldPhaseState := 1 |} ].
Proof.
  destruct (primaryVarSwitch_unknown_state Instance.indices Instance.formulation
              Instance.problem Instance.methods
              (set_staticVertexDat
                 [ {| phaseState := 7; wasSwitched := true; oldPhaseState := 1 |} ]
                 Instance.jacobian)
              Instance.solution 0 [0; 0]
              {| phaseState := 7; wasSwitched := true; oldPhaseState := 1 |}
              [100000; 12 # 1000] eq_refl eq_refl)
    as (J' & Hcall & _ & Hdat); [cbn; lia..|].
  exists J'. split; [exact Hcall|exact Hdat].
Defined.

Lemma primaryVarSwitch_phase_disappears_witness :
  ∃ J', primaryVarSwitch_ Instance.indices Instance.formulation Instance.problem
          Instance.methods
          (set_staticVertexDat
             [ {| phaseState := 2; wasSwitched := false; oldPhaseState := 1 |} ]
             Instance.jacobian)
          [[100000; 0]] 0 [0; 0]
        = Some (true, [[100000; 1 # 100]], J') ∧
        staticVertexDat_ J' !! 0%nat
        = Some {| phaseState := 1; wasSwitched := true; oldPhaseState := 1 |}.
Proof.
  destruct (primaryVarSwitch_phase_disappears Instance.indices
              Instance.formulation Instance.problem Instance.methods
              (set_staticVertexDat
                 [ {| phaseState := 2; wasSwitched := false; oldPhaseState := 1 |} ]
                 Instance.jacobian)
              [[100000; 0]] 0 [0; 0]
              {| phaseState := 2; wasSwitched := false; oldPhaseState := 1 |}
              [100000; 0] instance_phase_states eq_refl eq_refl)
    as [Hn _]; [cbn; lia|reflexivity|].
  destruct Hn as (J' & Hcall & Hdat); [q_closed|].
  exists J'. split; [exact Hcall|exact Hdat].
Defined.

Lemma primaryVarSwitch_phase_appears_witness :
  ∃ J', primaryVarSwitch_ Instance.indices Instance.formulation Instance.problem
          Instance.methods Instance.jacobian Instance.solution 0 [0; 0]
        = Some (true, [[100000; 0]; [100000; 1 # 100]], J') ∧
        staticVertexDat_ J' !! 0%nat
        = Some {| phaseState := 2; wasSwitched := true; oldPhaseState := 1 |}.
Proof.
  destruct (primaryVarSwitch_phase_appears Instance.indices Instance.formulation
              Instance.problem Instance.methods Instance.jacobian
              Instance.solution 0 [0; 0]
              {| phaseState := 1; wasSwitched := false; oldPhaseState := 1 |}
              [100000; 12 # 1000] (12 # 1000) (1 # 100)
              instance_phase_states eq_refl eq_refl)
    as (globalSol' & J' & Hcall & Hdat & _ & HpWsN & _).
  - cbn. lia.
  - by apply check_wPhaseOnly.
  - q_closed.
  - rewrite HpWsN in Hcall by (unfold Instance.formulation; cbn; lia || done).
    exists J'. split; [exact Hcall|exact Hdat].
Defined.

(** ** The update of the static data on one partition *)

Section UpdateStaticData.
Variable I : TwoPTwoCIndices.
Variable formulation : Z.
Variable P : Problem.
Variable V : VertexDataMethods.

Lemma same_but_switch_refl (g : SolutionFunction) : same_but_switch I g g.
Proof. split; [done|]. intros j sol Hsol. by exists sol. Qed.

Lemma same_but_switch_trans (g1 g2 g3 : SolutionFunction) :
  same_but_switch I g1 g2 → same_but_switch I g2 g3 → same_but_switch I g1 g3.
Proof.
  intros [Hl12 H12] [Hl23 H23]. split; [congruence|].
  intros j sol Hsol.
  destruct (H12 _ _ Hsol) as (sol2 & Hsol2 & Hlen2 & Hk2).
  destruct (H23 _ _ Hsol2) as (sol3 & Hsol3 & Hlen3 & Hk3).
  exists sol3. split; [done|]. split; [congruence|].
  intros k Hk. by rewrite Hk3, Hk2.
Qed.

(** What one evaluation of the switch does to the object and to the
    solution. *)
Lemma primaryVarSwitch_effect (J : Jacobian) (globalSol : SolutionFunction)
    (v : Vertex) :
  vertex_in_range I J globalSol v →
  ∃ r globalSol' J' d d',
    primaryVarSwitch_ I formulation P V J globalSol (dofIndex v) (corner0 v)
    = Some (r, globalSol', J') ∧
    staticVertexDat_ J !! dofIndex v = Some d ∧
    staticVertexDat_ J' = <[dofIndex v := d']> (staticVertexDat_ J) ∧
    oldPhaseState d' = oldPhaseState d ∧
    r = negb (phaseState d =? phaseState d')%Z ∧
    same_but_switch I globalSol globalSol' ∧
    (∀ j, j ≠ dofIndex v → globalSol' !! j = globalSol !! j) ∧
    gridView_ J' = gridView_ J ∧
    curElemDat_ J' = curElemDat_ J ∧ prevElemDat_ J' = prevElemDat_ J.
Proof.
  intros (Hlt & sol & Hsol & Hsw).
  destruct (lookup_lt_is_Some_2 _ _ Hlt) as [d Hd].
  rewrite (primaryVarSwitch_unfold I formulation P V _ _ _ (corner0 v) _ _ Hd Hsol).
  cbn zeta.
  destruct (switch_checks_outcome I formulation P
              (switch_update_vertexData I P V (switch_vertexData J) sol
                 (phaseState d) (corner0 v))
              (temperature P sol) (phaseState d) (wasSwitched d) (dofIndex v)
              (corner0 v) globalSol (cout J) sol Hsol Hsw)
    as (loc & -> & Hout).
  cbn [mbind option_bind]. unfold switch_result.
  assert (Hw : switch_write I globalSol (dofIndex v) sol (sw_globalSol loc)).
  { destruct Hout as [(_ & -> & _)|(m & _ & _ & Hw)]; [constructor|exact Hw]. }
  destruct (switch_write_frame I _ _ _ _ Hsol Hw)
    as (Hlen & Hother & sol' & Hsol' & Hlen' & Hslots).
  eexists _, _, _, d, _. split; [reflexivity|]. cbn.
  split; [done|]. split; [reflexivity|]. cbn. split; [done|]. split; [done|].
  split; [|by repeat split].
  split; [done|]. intros j solj Hsolj.
  destruct (decide (j = dofIndex v)) as [->|Hne].
  - exists sol'. assert (solj = sol) as -> by congruence. by repeat split.
  - exists solj. rewrite (Hother _ Hne). by repeat split.
Qed.

(** The loop of [updateStaticData] over vertices with distinct indices. *)
Lemma switch_vertices_effect (verts : list Vertex) (wasSw : bool)
    (globalSol : SolutionFunction) (J : Jacobian) :
  Forall (vertex_in_range I J globalSol) verts →
  NoDup (dofIndex <$> verts) →
  ∃ b globalSol' J',
    switch_vertices I formulation P V verts wasSw globalSol J
    = Some (b, globalSol', J') ∧
    (b = true ↔
     wasSw = true ∨
     ∃ v d d', v ∈ verts ∧ staticVertexDat_ J !! dofIndex v = Some d ∧
               staticVertexDat_ J' !! dofIndex v = Some d' ∧
               phaseState d' ≠ phaseState d) ∧
    same_but_switch I globalSol globalSol' ∧
    oldPhaseState <$> staticVertexDat_ J' = oldPhaseState <$> staticVertexDat_ J ∧
    (∀ j, j ∉ dofIndex <$> verts →
          staticVertexDat_ J' !! j = staticVertexDat_ J !! j ∧
          globalSol' !! j = globalSol !! j) ∧
    gridView_ J' = gridView_ J ∧
    curElemDat_ J' = curElemDat_ J ∧ prevElemDat_ J' = prevElemDat_ J.
Proof.
  revert wasSw globalSol J.
  induction verts as [|v verts IH]; intros wasSw globalSol J Hin Hnd.
  - exists wasSw, globalSol, J. split; [done|]. split.
    { split; [by left|]. intros [->|(v & _ & _ & Hv & _)]; [done|].
      by apply elem_of_nil in Hv. }
    split; [apply same_but_switch_refl|]. by repeat split.
  - apply Forall_cons in Hin as [Hv Hrest].
    rewrite fmap_cons in Hnd. apply NoDup_cons in Hnd as [Hfresh Hnd].
    destruct (primaryVarSwitch_effect J globalSol v Hv)
      as (r & g1 & J1 & d & d1 & Hcall & Hd & Hdat1 & Hold1 & Hr & Hsame1
          & Hsol1 & Hgrid1 & Hcur1 & Hprev1).
    destruct (primaryVarSwitch_in_range I formulation P V J globalSol v Hv)
      as (r' & g1' & J1' & Hcall' & Hkeep).
    rewrite Hcall in Hcall'. injection Hcall' as <- <- <-.
    cbn [switch_vertices]. rewrite Hcall. cbn [mbind option_bind].
    destruct (IH (r || wasSw) g1 J1)
      as (b & g' & J' & -> & Hb & Hsame & Hold & Hout & Hgrid & Hcur & Hprev);
      [|done|].
    { eapply Forall_impl; [exact Hrest|]. intros w. apply Hkeep. }
    assert (Hi : (dofIndex v < length (staticVertexDat_ J))%nat)
      by (eapply lookup_lt_Some; eauto).
    assert (Hd1 : staticVertexDat_ J1 !! dofIndex v = Some d1)
      by (rewrite Hdat1; by apply list_lookup_insert_eq).
    exists b, g', J'. split; [done|]. split.
    { rewrite Hb. split.
      - intros [Hrw|(w & dw & dw' & Hw & Hdw & Hdw' & Hne)].
        + apply orb_true_iff in Hrw as [-> | ->]; [|by left].
          right. exists v, d, d1. split; [by left|]. split; [done|].
          rewrite (proj1 (Hout _ Hfresh)). split; [done|].
          symmetry in Hr. apply negb_true_iff, Z.eqb_neq in Hr. congruence.
        + right. exists w, dw, dw'. split; [by right|].
          rewrite Hdat1, list_lookup_insert_ne in Hdw; [done|].
          intros Heq. apply Hfresh. rewrite Heq.
          apply list_elem_of_fmap. by exists w.
      - intros [->|(w & dw & dw' & Hw & Hdw & Hdw' & Hne)];
          [left; apply orb_true_r|].
        apply elem_of_cons in Hw as [->|Hw].
        + left. rewrite (proj1 (Hout _ Hfresh)), Hd1 in Hdw'.
          injection Hdw' as <-. assert (dw = d) as -> by congruence.
          rewrite Hr. apply orb_true_iff. left.
          apply negb_true_iff, Z.eqb_neq. congruence.
        + right. exists w, dw, dw'. split; [done|]. split; [|done].
          rewrite Hdat1, list_lookup_insert_ne; [done|].
          intros Heq. apply Hfresh. rewrite Heq.
          apply list_elem_of_fmap. by exists w. }
    split; [by eapply same_but_switch_trans|].
    split.
    { rewrite Hold, Hdat1, list_fmap_insert, Hold1.
      apply list_insert_id. by rewrite list_lookup_fmap, Hd. }
    split.
    { intros j Hj. rewrite fmap_cons in Hj.
      apply not_elem_of_cons in Hj as [Hne Hj].
      destruct (Hout _ Hj) as [-> ->]. split; [|by apply Hsol1].
      rewrite Hdat1. by apply list_lookup_insert_ne. }
    split; [congruence|]. split; congruence.
Qed.

(** X9: on a partition whose vertices have distinct indices,
    [updateStaticData] leaves the switch flag true exactly when the phase
    state of some vertex of the grid view is not what it was before the
    call; the former value of the flag plays no role. *)
Theorem updateStaticData_switched_iff (J : Jacobian)
    (curGlobalSol oldGlobalSol : SolutionFunction) :
  partition_ok I (J, curGlobalSol) →
  NoDup (dofIndex <$> gridView_ J) →
  ∃ curGlobalSol' J',
    updateStaticData I formulation P V J curGlobalSol oldGlobalSol
    = Some (curGlobalSol', J') ∧
    (switched J' = true ↔
     ∃ v d d', v ∈ gridView_ J ∧
               staticVertexDat_ J !! dofIndex v = Some d ∧
               staticVertexDat_ J' !! dofIndex v = Some d' ∧
               phaseState d' ≠ phaseState d).
Proof.
  intros Hok Hnd. unfold updateStaticData, updateStaticData_local.
  destruct (switch_vertices_effect (gridView_ J) false curGlobalSol J Hok Hnd)
    as (b & g' & J' & -> & Hb & _).
  cbn [mbind option_bind]. eexists _, _. split; [reflexivity|].
  cbn. rewrite bool_max_orb, orb_false_r, Hb.
  split; [intros [[=]|H]; exact H|intros H; by right].
Qed.

(** X10: [updateStaticData] writes, of the solution, at most the switch
    entries, and of the static vertex data, the phase state and the
    [wasSwitched] mark of the vertices of the grid view: the other
    primary variables, the old phase states, the data of indices outside
    the grid view, the grid view and the element data are as before. *)
Theorem updateStaticData_frame (J : Jacobian)
    (curGlobalSol oldGlobalSol : SolutionFunction) :
  partition_ok I (J, curGlobalSol) →
  NoDup (dofIndex <$> gridView_ J) →
  ∃ curGlobalSol' J',
    updateStaticData I formulation P V J curGlobalSol oldGlobalSol
    = Some (curGlobalSol', J') ∧
    same_but_switch I curGlobalSol curGlobalSol' ∧
    oldPhaseState <$> staticVertexDat_ J' = oldPhaseState <$> staticVertexDat_ J ∧
    (∀ j, j ∉ dofIndex <$> gridView_ J →
          staticVertexDat_ J' !! j = staticVertexDat_ J !! j ∧
          curGlobalSol' !! j = curGlobalSol !! j) ∧
    gridView_ J' = gridView_ J ∧
    curElemDat_ J' = curElemDat_ J ∧ prevElemDat_ J' = prevElemDat_ J.
Proof.
  intros Hok Hnd. unfold updateStaticData, updateStaticData_local.
  destruct (switch_vertices_effect (gridView_ J) false curGlobalSol J Hok Hnd)
    as (b & g' & J' & -> & _ & Hsame & Hold & Hout & Hgrid & Hcur & Hprev).
  cbn [mbind option_bind]. eexists _, _. split; [reflexivity|]. by cbn.
Qed.
End UpdateStaticData.

Lemma updateStaticData_switched_iff_witness :
  ∃ curGlobalSol' J',
    updateStaticData Instance.indices Instance.formulation Instance.problem
      Instance.methods Instance.jacobian Instance.solution Instance.solution
    = Some (curGlobalSol', J') ∧
    switched J' = true ∧
    ∃ v d d', v ∈ gridView_ Instance.jacobian ∧
              staticVertexDat_ Instance.jacobian !! dofIndex v = Some d ∧
              staticVertexDat_ J' !! dofIndex v = Some d' ∧
              phaseState d' ≠ phaseState d.
Proof.
  destruct (updateStaticData_switched_iff Instance.indices Instance.formulation
              Instance.problem Instance.methods Instance.jacobian
              Instance.solution Instance.solution instance_partition_ok
              instance_indices_distinct)
    as (curGlobalSol' & J' & Hrun & Hiff).
  assert (Hflag : switched J' = true).
  { assert (Hsnd : option_map (λ x, switched (snd x))
                     (updateStaticData Instance.indices Instance.formulation
                        Instance.problem Instance.methods Instance.jacobian
                        Instance.solution Instance.solution) = Some true)
      by (vm_compute; reflexivity).
    rewrite Hrun in Hsnd. by injection Hsnd. }
  exists curGlobalSol', J'. split; [exact Hrun|]. split; [exact Hflag|].
  by apply Hiff.
Defined.

Lemma updateStaticData_frame_witness :
  ∃ curGlobalSol' J',
    updateStaticData Instance.indices Instance.formulation Instance.problem
      Instance.methods Instance.jacobian Instance.solution Instance.solution
    = Some (curGlobalSol', J') ∧
    oldPhaseState <$> staticVertexDat_ J' = [1%Z; 1%Z] ∧
    length curGlobalSol' = 2%nat.
Proof.
  destruct (updateStaticData_frame Instance.indices Instance.formulation
              Instance.problem Instance.methods Instance.jacobian
              Instance.solution Instance.solution instance_partition_ok
              instance_indices_distinct)
    as (curGlobalSol' & J' & Hrun & [Hlen _] & Hold & _).
  exists curGlobalSol', J'. split; [exact Hrun|]. split; [exact Hold|exact Hlen].
Defined.

(** ** Fluxes and storage *)

(** The entries of a field vector with two entries. *)
Lemma lookup_two (a b : Q) (i : nat) :
  (i < 2)%nat → ∃ q, [a; b] !! i = Some q.
Proof. intros Hi. destruct i as [|[|i]]; [by exists a|by exists b|lia]. Qed.

(** What [computeAdvectiveFlux] adds, for any weight. *)
Lemma computeAdvectiveFlux_adds (I : TwoPTwoCIndices) (alpha : Scalar)
    (J : Jacobian) (flux : PrimaryVarVector) (vars : FluxData)
    (up dn : nat → VertexData) :
  mass_slots_ok I 0 1 →
  length flux = numEq →
  (∀ phaseIdx, (phaseIdx < numPhases)%nat →
     curElemDat_ J !! upstreamIdx vars phaseIdx = Some (up phaseIdx) ∧
     curElemDat_ J !! downstreamIdx vars phaseIdx = Some (dn phaseIdx)) →
  ∃ flux' : PrimaryVarVector,
    computeAdvectiveFlux I alpha J flux vars = Some flux' ∧
    length flux' = numEq ∧
    ∀ compIdx, (compIdx < numComponents)%nat →
      ∃ q q', flux !! comp2Mass I compIdx = Some q ∧
              flux' !! comp2Mass I compIdx = Some q' ∧
              q' - q == guarded_advective_flux alpha vars up dn compIdx.
Proof.
  intros Hslots Hlen Hdat.
  destruct (length_two _ Hlen) as (a & b & ->).
  destruct (Hdat 0%nat) as [Hu0 Hd0]; [unfold numPhases; lia|].
  destruct (Hdat 1%nat) as [Hu1 Hd1]; [unfold numPhases; lia|].
  unfold computeAdvectiveFlux, for_loop, numPhases, numComponents.
  fv_step. rewrite Hu0, Hd0. fv_step. rewrite Hu1, Hd1. fv_step.
  unfold advective_add, fv_add_at, guarded_advective_flux,
    upstream_advective_flux, downstream_advective_flux, carried_mass.
  destruct (Qgt_bool alpha 0); destruct (Qlt_bool alpha 1);
    (two_slots I 0%nat 1%nat Hslots;
     repeat (progress (rewrite ?Hslot, ?Hslot0; fv_step));
     (eexists; split; [reflexivity|]; split; [reflexivity|];
      intros [|[|c]] Hc; [| |unfold numComponents in Hc; lia];
      rewrite ?Hslot, ?Hslot0; fv_step;
      eexists _, _; (split; [reflexivity|]); (split; [reflexivity|]); ring)).
Qed.

(** X11: for a weight of at least one, [computeAdvectiveFlux] adds the
    weight times the upstream flux and no downstream part; for a weight
    of at most zero it adds one minus the weight times the downstream
    flux and no upstream part: outside of [0,1] the flux is not the
    blend of the two. *)
Theorem computeAdvectiveFlux_one_sided (I : TwoPTwoCIndices) (alpha : Scalar)
    (J : Jacobian) (flux : PrimaryVarVector) (vars : FluxData)
    (up dn : nat → VertexData) :
  mass_slots_ok I 0 1 →
  length flux = numEq →
  (∀ phaseIdx, (phaseIdx < numPhases)%nat →
     curElemDat_ J !! upstreamIdx vars phaseIdx = Some (up phaseIdx) ∧
     curElemDat_ J !! downstreamIdx vars phaseIdx = Some (dn phaseIdx)) →
  ∃ flux' : PrimaryVarVector,
    computeAdvectiveFlux I alpha J flux vars = Some flux' ∧
    ∀ compIdx, (compIdx < numComponents)%nat →
      ∃ q q', flux !! comp2Mass I compIdx = Some q ∧
              flux' !! comp2Mass I compIdx = Some q' ∧
              (1 <= alpha →
               q' - q == alpha * upstream_advective_flux vars up compIdx) ∧
              (alpha <= 0 →
               q' - q == (1 - alpha) * downstream_advective_flux vars dn compIdx).
Proof.
  intros Hslots Hlen Hdat.
  destruct (computeAdvectiveFlux_adds I alpha J flux vars up dn Hslots Hlen Hdat)
    as (flux' & Hflux & _ & Hadd).
  exists flux'. split; [exact Hflux|]. intros c Hc.
  destruct (Hadd c Hc) as (q & q' & Hq & Hq' & Hdiff).
  exists q, q'. split; [exact Hq|]. split; [exact Hq'|].
  unfold guarded_advective_flux in Hdiff. split; intros Ha.
  - assert (Hup : Qgt_bool alpha 0 = true) by (apply Qgt_bool_true; lra).
    assert (Hdn : Qlt_bool alpha 1 = false) by (apply Qlt_bool_false; lra).
    rewrite Hup, Hdn in Hdiff. rewrite Hdiff. ring.
  - assert (Hup : Qgt_bool alpha 0 = false) by (apply Qgt_bool_false; lra).
    assert (Hdn : Qlt_bool alpha 1 = true) by (apply Qlt_bool_true; lra).
    rewrite Hup, Hdn in Hdiff. rewrite Hdiff. ring.
Qed.

Lemma computeAdvectiveFlux_one_sided_witness :
  ∃ (flux' : PrimaryVarVector) (q' : Scalar),
    computeAdvectiveFlux Instance.indices 2 Instance.jacobian [0; 0]
      Instance.fluxData = Some flux' ∧
    flux' !! 0%nat = Some q' ∧
    q' - 0 == 2 * upstream_advective_flux Instance.fluxData
                    (λ phaseIdx, if (phaseIdx =? 1)%nat then Instance.vertDat1
                                 else Instance.vertDat0) 0.
Proof.
  destruct (computeAdvectiveFlux_one_sided Instance.indices 2 Instance.jacobian
              [0; 0] Instance.fluxData
              (λ phaseIdx, if (phaseIdx =? 1)%nat then Instance.vertDat1
                           else Instance.vertDat0)
              (λ phaseIdx, if (phaseIdx =? 1)%nat then Instance.vertDat0
                           else Instance.vertDat1)
              instance_mass_slots eq_refl)
    as (flux' & Hflux & Hall).
  - intros [|[|phaseIdx]] Hphase; [by split|by split|].
    unfold numPhases in Hphase. lia.
  - destruct (Hall 0%nat) as (q & q' & Hq & Hq' & Hup & _);
      [unfold numComponents; lia|].
    injection Hq as <-. exists flux', q'.
    split; [exact Hflux|]. split; [exact Hq'|]. apply Hup. q_closed.
Defined.

(** Between zero and one the guarded flux is the blend. *)
Lemma guarded_advective_flux_weighted (alpha : Scalar) (vars : FluxData)
    (up dn : nat → VertexData) (compIdx : nat) :
  0 <= alpha → alpha <= 1 →
  guarded_advective_flux alpha vars up dn compIdx
  == weighted_advective_flux alpha vars up dn compIdx.
Proof.
  intros Hlo Hhi.
  unfold guarded_advective_flux, weighted_advective_flux,
    upstream_advective_flux, downstream_advective_flux.
  destruct (Qgt_bool alpha 0) eqn:Hup; destruct (Qlt_bool alpha 1) eqn:Hdn.
  - ring.
  - apply Qlt_bool_false in Hdn. assert (Ha : alpha == 1) by lra.
    rewrite Ha. ring.
  - apply Qgt_bool_false in Hup. assert (Ha : alpha == 0) by lra.
    rewrite Ha. ring.
  - apply Qgt_bool_false in Hup. apply Qlt_bool_false in Hdn. lra.
Qed.

(** What [computeDiffusiveFlux] leaves in the two mass balances. *)
Lemma computeDiffusiveFlux_entries (I : TwoPTwoCIndices)
    (flux : PrimaryVarVector) (vars : FluxData) (fw fn : Scalar) :
  mass_slots_ok I (wComp I) (nComp I) →
  length flux = numEq →
  flux !! comp2Mass I (wComp I) = Some fw →
  flux !! comp2Mass I (nComp I) = Some fn →
  ∃ flux' : PrimaryVarVector,
    computeDiffusiveFlux I flux vars = Some flux' ∧
    flux' !! comp2Mass I (wComp I)
    = Some (fw - diffusive_term vars (wPhase I) + diffusive_term vars (nPhase I)) ∧
    flux' !! comp2Mass I (nComp I)
    = Some (fn + diffusive_term vars (wPhase I) - diffusive_term vars (nPhase I)).
Proof.
  intros Hslots Hlen Hw Hn.
  destruct (length_two _ Hlen) as (a & b & ->).
  unfold computeDiffusiveFlux, fv_add_at, fv_sub_at.
  two_slots I (wComp I) (nComp I) Hslots; rewrite Hslot in Hw; rewrite Hslot0 in Hn;
    injection Hw as <-; injection Hn as <-;
    repeat (progress (rewrite ?Hslot, ?Hslot0; fv_step));
    eexists; by repeat split.
Qed.

(** X12: [computeFlux] overwrites its argument: the flux it returns does
    not depend on what the vector held. For a weight in [0,1] the balance
    of a component holds its advective flux and the diffusive terms, the
    one of the wetting phase entering the balance of the non-wetting
    component and the one of the non-wetting phase the balance of the
    wetting component; summed over the two components the diffusive terms
    cancel and the advective fluxes remain. *)
Theorem computeFlux_total (I : TwoPTwoCIndices) (alpha : Scalar)
    (mkFluxData : Jacobian → nat → FluxData) (J : Jacobian)
    (flux : PrimaryVarVector) (faceIdx : nat) (up dn : nat → VertexData) :
  mass_slots_ok I 0 1 →
  (wComp I = 0 ∧ nComp I = 1)%nat ∨ (wComp I = 1 ∧ nComp I = 0)%nat →
  length flux = numEq →
  0 <= alpha ∧ alpha <= 1 →
  (∀ phaseIdx, (phaseIdx < numPhases)%nat →
     curElemDat_ J !! upstreamIdx (mkFluxData J faceIdx) phaseIdx
     = Some (up phaseIdx) ∧
     curElemDat_ J !! downstreamIdx (mkFluxData J faceIdx) phaseIdx
     = Some (dn phaseIdx)) →
  let vars := mkFluxData J faceIdx in
  ∃ (flux' : PrimaryVarVector) (qw qn : Scalar),
    computeFlux I alpha mkFluxData J flux faceIdx = Some flux' ∧
    (∀ flux2 : PrimaryVarVector, length flux2 = numEq →
       computeFlux I alpha mkFluxData J flux2 faceIdx = Some flux') ∧
    flux' !! comp2Mass I (wComp I) = Some qw ∧
    flux' !! comp2Mass I (nComp I) = Some qn ∧
    qw == weighted_advective_flux alpha vars up dn (wComp I)
          - diffusive_term vars (wPhase I) + diffusive_term vars (nPhase I) ∧
    qn == weighted_advective_flux alpha vars up dn (nComp I)
          + diffusive_term vars (wPhase I) - diffusive_term vars (nPhase I) ∧
    qw + qn == weighted_advective_flux alpha vars up dn (wComp I)
               + weighted_advective_flux alpha vars up dn (nComp I).
Proof.
  intros Hslots Hcomp Hlen [Hlo Hhi] Hdat vars.
  assert (Hwn : mass_slots_ok I (wComp I) (nComp I) ∧
                (wComp I < numComponents)%nat ∧ (nComp I < numComponents)%nat).
  { unfold mass_slots_ok, numComponents in *.
    destruct Hcomp as [[-> ->]|[-> ->]]; lia. }
  destruct Hwn as (Hslots' & Hwc & Hnc).
  assert (Hzero : ∀ f : PrimaryVarVector, length f = numEq →
                    fv_assign_zero f = [0; 0]).
  { intros f Hf. unfold fv_assign_zero. by rewrite Hf. }
  destruct (computeAdvectiveFlux_adds I alpha J [0; 0] vars up dn Hslots eq_refl Hdat)
    as (adv & Hadv & Hadvlen & Hadd).
  destruct (Hadd _ Hwc) as (zw & aw & Hzw & Haw & Hdw).
  destruct (Hadd _ Hnc) as (zn & an & Hzn & Han & Hdn).
  assert (Hzw0 : zw = 0).
  { revert Hzw. destruct (comp2Mass I (wComp I)) as [|[|?]]; cbn;
      intros H; first [by injection H|by destruct n]. }
  assert (Hzn0 : zn = 0).
  { revert Hzn. destruct (comp2Mass I (nComp I)) as [|[|?]]; cbn;
      intros H; first [by injection H|by destruct n]. }
  subst zw zn.
  destruct (computeDiffusiveFlux_entries I adv vars aw an Hslots' Hadvlen Haw Han)
    as (flux' & Hdiff & Hqw & Hqn).
  assert (Hrun : ∀ f : PrimaryVarVector, length f = numEq →
                   computeFlux I alpha mkFluxData J f faceIdx = Some flux').
  { intros f Hf. unfold computeFlux. cbv zeta. fold vars.
    rewrite (Hzero f Hf), Hadv. cbn [mbind option_bind]. exact Hdiff. }
  eexists flux', _, _. split; [by apply Hrun|]. split; [exact Hrun|].
  split; [exact Hqw|]. split; [exact Hqn|].
  rewrite <- !(guarded_advective_flux_weighted alpha vars up dn) by done.
  rewrite <- Hdw, <- Hdn. repeat split; ring.
Qed.

Lemma computeFlux_total_witness :
  ∃ (flux' : PrimaryVarVector) (qw qn : Scalar),
    computeFlux Instance.indices (1 # 2) (λ _ _, Instance.fluxData)
      Instance.jacobian [7; 9] 0 = Some flux' ∧
    flux' !! 0%nat = Some qw ∧ flux' !! 1%nat = Some qn ∧
    Qred (qw + qn) = 1473 # 500.
Proof.
  destruct (computeFlux_total Instance.indices (1 # 2) (λ _ _, Instance.fluxData)
              Instance.jacobian [7; 9] 0
              (λ phaseIdx, if (phaseIdx =? 1)%nat then Instance.vertDat1
                           else Instance.vertDat0)
              (λ phaseIdx, if (phaseIdx =? 1)%nat then Instance.vertDat0
                           else Instance.vertDat1)
              instance_mass_slots)
    as (flux' & qw & qn & Hflux & _ & Hqw & Hqn & _ & _ & Hsum).
  - left. by split.
  - reflexivity.
  - split; q_closed.
  - intros [|[|phaseIdx]] Hphase; [by split|by split|].
    unfold numPhases in Hphase. lia.
  - exists flux', qw, qn. split; [exact Hflux|]. split; [exact Hqw|].
    split; [exact Hqn|]. rewrite (Qred_complete _ _ Hsum). q_closed.
Defined.

(** The storage term in closed form. *)
Lemma computeStorage_entries (I : TwoPTwoCIndices) (J : Jacobian)
    (result : PrimaryVarVector) (scvIdx : nat) (usePrevSol : bool)
    (vertDat : VertexData) :
  mass_slots_ok I 0 1 →
  length result = numEq →
  (if usePrevSol then prevElemDat_ J else curElemDat_ J) !! scvIdx = Some vertDat →
  ∃ storage : PrimaryVarVector,
    computeStorage I J result scvIdx usePrevSol = Some storage ∧
    ∀ compIdx, (compIdx < numComponents)%nat →
      storage !! comp2Mass I compIdx
      = Some ((0 + density vertDat 0 * saturation vertDat 0 * massfrac vertDat compIdx 0
                 + density vertDat 1 * saturation vertDat 1 * massfrac vertDat compIdx 1)
              * porosity vertDat).
Proof.
  intros Hslots Hlen Hvd.
  destruct (length_two _ Hlen) as (a & b & ->).
  unfold computeStorage. rewrite Hvd. cbn [mbind option_bind].
  unfold for_loop, numPhases, numComponents, storage_add, fv_add_at, fv_assign_zero.
  two_slots I 0%nat 1%nat Hslots;
    repeat (progress (rewrite ?Hslot, ?Hslot0; fv_step));
    (eexists; split; [reflexivity|];
     intros [|[|c]] Hc; [| |unfold numComponents in Hc; lia];
     rewrite ?Hslot, ?Hslot0; reflexivity).
Qed.

(** X13: when the mass fractions of the two components sum up to one in
    each phase, the storage terms of the two components sum up to the
    porosity times the sum over the phases of density times saturation;
    and when porosity, densities, saturations and mass fractions are not
    negative, no storage term is negative. *)
Theorem computeStorage_total (I : TwoPTwoCIndices) (J : Jacobian)
    (result : PrimaryVarVector) (scvIdx : nat) (usePrevSol : bool)
    (vertDat : VertexData) :
  mass_slots_ok I 0 1 →
  length result = numEq →
  (if usePrevSol then prevElemDat_ J else curElemDat_ J) !! scvIdx = Some vertDat →
  ∃ (storage : PrimaryVarVector) (q0 q1 : Scalar),
    computeStorage I J result scvIdx usePrevSol = Some storage ∧
    storage !! comp2Mass I 0 = Some q0 ∧
    storage !! comp2Mass I 1 = Some q1 ∧
    ((∀ phaseIdx, (phaseIdx < numPhases)%nat →
        massfrac vertDat 0 phaseIdx + massfrac vertDat 1 phaseIdx == 1) →
     q0 + q1 == porosity vertDat *
                (density vertDat 0 * saturation vertDat 0 +
                 density vertDat 1 * saturation vertDat 1)) ∧
    (0 <= porosity vertDat →
     (∀ phaseIdx, (phaseIdx < numPhases)%nat →
        0 <= density vertDat phaseIdx ∧ 0 <= saturation vertDat phaseIdx ∧
        ∀ compIdx, (compIdx < numComponents)%nat →
                   0 <= massfrac vertDat compIdx phaseIdx) →
     0 <= q0 ∧ 0 <= q1).
Proof.
  intros Hslots Hlen Hvd.
  destruct (computeStorage_entries I J result scvIdx usePrevSol vertDat
              Hslots Hlen Hvd) as (storage & Hst & Hent).
  eexists storage, _, _. split; [exact Hst|].
  split; [apply Hent; unfold numComponents; lia|].
  split; [apply Hent; unfold numComponents; lia|]. split.
  - intros Hsum.
    pose proof (Hsum 0%nat ltac:(unfold numPhases; lia)) as H0.
    pose proof (Hsum 1%nat ltac:(unfold numPhases; lia)) as H1.
    transitivity
      (porosity vertDat *
       (density vertDat 0 * saturation vertDat 0 *
          (massfrac vertDat 0 0 + massfrac vertDat 1 0) +
        density vertDat 1 * saturation vertDat 1 *
          (massfrac vertDat 0 1 + massfrac vertDat 1 1))); [ring|].
    rewrite H0, H1. ring.
  - intros Hp Hpos.
    destruct (Hpos 0%nat ltac:(unfold numPhases; lia)) as (Hd0 & Hs0 & Hm0).
    destruct (Hpos 1%nat ltac:(unfold numPhases; lia)) as (Hd1 & Hs1 & Hm1).
    assert (Hq : ∀ d0 s0 m0 d1 s1 m1 p : Q,
               0 <= d0 → 0 <= s0 → 0 <= m0 → 0 <= d1 → 0 <= s1 → 0 <= m1 →
               0 <= p → 0 <= (0 + d0 * s0 * m0 + d1 * s1 * m1) * p).
    { intros d0 s0 m0 d1 s1 m1 p H1 H2 H3 H4 H5 H6 H7.
      assert (0 <= d0 * s0 * m0) by (repeat apply Qmult_le_0_compat; done).
      assert (0 <= d1 * s1 * m1) by (repeat apply Qmult_le_0_compat; done).
      apply Qmult_le_0_compat; lra. }
    split; apply Hq; try done; first [apply Hm0|apply Hm1];
      unfold numComponents; lia.
Qed.

Lemma computeStorage_total_witness :
  ∃ (storage : PrimaryVarVector) (q0 q1 : Scalar),
    computeStorage Instance.indices Instance.jacobian [0; 0] 0 false
    = Some storage ∧
    storage !! 0%nat = Some q0 ∧ storage !! 1%nat = Some q1 ∧
    q0 + q1 == (3 # 10) * (1000 * (3 # 4) + (12 # 10) * (1 # 4)) ∧
    0 <= q0 ∧ 0 <= q1.
Proof.
  destruct (computeStorage_total Instance.indices Instance.jacobian [0; 0] 0
              false Instance.vertDat0 instance_mass_slots eq_refl eq_refl)
    as (storage & q0 & q1 & Hst & Hq0 & Hq1 & Hsum & Hpos).
  exists storage, q0, q1. split; [exact Hst|]. split; [exact Hq0|].
  split; [exact Hq1|]. split.
  - apply Hsum. intros [|[|phaseIdx]] Hphase; [q_closed|q_closed|].
    unfold numPhases in Hphase. lia.
  - apply Hpos; [q_closed|].
    intros [|[|phaseIdx]] Hphase; [| |unfold numPhases in Hphase; lia];
      (split; [q_closed|]; split; [q_closed|];
       intros [|[|compIdx]] Hcomp; [q_closed|q_closed|];
       unfold numComponents in Hcomp; lia).
Defined.

(** ** Restart files, written and read *)

Lemma written_integers_records (zs : list Z) : written_integers (records zs) = zs.
Proof.
  unfold records. induction zs as [|z zs IH]; [done|].
  cbn [flat_map app written_integers String.eqb Ascii.eqb Bool.eqb].
  by rewrite IH.
Qed.

Lemma records_snoc (zs : list Z) (z : Z) :
  records zs ++ [OutInt z; OutText " "] = records (zs ++ [z]).
Proof. unfold records. by rewrite flat_map_app. Qed.

(** The characters of a decimal number are digits, and denote it. *)
Lemma uint_chars_digits (d : Decimal.uint) :
  Forall (λ c, isdigit c = true)
    (list_ascii_of_string (NilEmpty.string_of_uint d)).
Proof.
  induction d; cbn [NilEmpty.string_of_uint list_ascii_of_string];
    constructor; done.
Qed.

Lemma decimal_value_acc (d : Decimal.uint) (acc : positive) :
  foldl (λ acc c, 10 * acc + digit_value c)%Z (Z.pos acc)
    (list_ascii_of_string (NilEmpty.string_of_uint d))
  = Z.pos (Pos.of_uint_acc d acc).
Proof.
  revert acc.
  induction d as [|d IH|d IH|d IH|d IH|d IH|d IH|d IH|d IH|d IH|d IH];
    intros acc;
    cbn [NilEmpty.string_of_uint list_ascii_of_string foldl Pos.of_uint_acc];
    [done|..];
    rewrite <- IH; f_equal; unfold digit_value;
    match goal with
    | |- context [Z.of_nat (nat_of_ascii ?c)] =>
        let v := eval vm_compute in (Z.of_nat (nat_of_ascii c)) in
        change (Z.of_nat (nat_of_ascii c)) with v
    end; lia.
Qed.

Lemma decimal_value_uint (d : Decimal.uint) :
  decimal_value (list_ascii_of_string (NilEmpty.string_of_uint d)) = Z.of_uint d.
Proof.
  unfold decimal_value, Z.of_uint.
  induction d as [|d IH|d IH|d IH|d IH|d IH|d IH|d IH|d IH|d IH|d IH];
    [done|exact IH|..];
    cbn [NilEmpty.string_of_uint list_ascii_of_string foldl Pos.of_uint Z.of_N];
    exact (decimal_value_acc d _).
Qed.

(** What [operator<<] writes for an integer is an integer in a text,
    and denotes the integer that was written. *)
Lemma int_chars_literal (z : Z) : int_literal (int_chars z) z.
Proof.
  unfold int_chars. destruct z as [|p|p]; cbn [Z.to_int NilEmpty.string_of_int].
  - exists ["0"%char]. split; [done|]. split; [by repeat constructor|]. by left.
  - exists (list_ascii_of_string (NilEmpty.string_of_uint (Pos.to_uint p))).
    split.
    { pose proof (Unsigned.to_uint_nonnil p). by destruct (Pos.to_uint p). }
    split; [apply uint_chars_digits|]. left. split; [done|].
    rewrite decimal_value_uint. unfold Z.of_uint.
    by rewrite Unsigned.of_to.
  - exists (list_ascii_of_string (NilEmpty.string_of_uint (Pos.to_uint p))).
    split.
    { pose proof (Unsigned.to_uint_nonnil p). by destruct (Pos.to_uint p). }
    split; [apply uint_chars_digits|]. right; right. split; [done|].
    rewrite decimal_value_uint. unfold Z.of_uint.
    by rewrite Unsigned.of_to.
Qed.

(** X14: [serializeEntity] appends one record to a restart file, so that
    after the phase states [zs] the file reads as [zs] followed by the
    phase state of the vertex; and [deserializeEntity] on the file that
    [serializeEntity] wrote, the decimal digits of the phase state and a
    blank, gives the vertex of the reading object this phase state, as
    its phase state and as its old phase state, and leaves a good stream
    with nothing but the blank. The phase state is an [int], as it is in
    the code. The [wasSwitched] mark is not in the file: the reading
    object keeps its own. *)
Theorem restart_round_trip (J J2 : Jacobian)
    (vert : Vertex) (d d2 : StaticVertexData) (zs : list Z) :
  staticVertexDat_ J !! dofIndex vert = Some d →
  staticVertexDat_ J2 !! dofIndex vert = Some d2 →
  fits_int (phaseState d) = true →
  ∃ outStream,
    serializeEntity J {| os_good := true; os_written := records zs |} vert
    = Some (Returns, outStream, J) ∧
    written_integers (os_written outStream) = zs ++ [phaseState d] ∧
    (zs = [] →
     ∃ inStream J2',
       deserializeEntity J2 (reopen outStream) vert
       = Some (Returns, inStream, J2') ∧
       is_good inStream = true ∧ is_text inStream = [" "%char] ∧
       staticVertexDat_ J2'
       = <[dofIndex vert := {| phaseState := phaseState d;
                               wasSwitched := wasSwitched d2;
                               oldPhaseState := phaseState d |}]>
           (staticVertexDat_ J2)).
Proof.
  intros Hd Hd2 Hfit. unfold serializeEntity. cbn [negb os_good]. rewrite Hd.
  cbn [mbind option_bind]. eexists. split; [reflexivity|].
  unfold put. cbn [os_written os_good]. rewrite <- app_assoc. cbn [app].
  rewrite records_snoc, written_integers_records. split; [done|].
  intros ->.
  match goal with
  | |- context [deserializeEntity J2 ?s vert] =>
      rewrite (deserializeEntity_good J2 s vert d2 eq_refl Hd2)
  end.
  match goal with
  | |- context [extract_int ?s (phaseState d2)] =>
      rewrite (extract_int_literal s (phaseState d2) []
                 (int_chars (phaseState d)) [" "%char] (phaseState d) eq_refl)
  end.
  - eexists _, _. split; [reflexivity|]. rewrite Hfit.
    cbn [fst snd is_text is_state set_staticVertexDat staticVertexDat_].
    split; [done|]. split; [done|].
    unfold int_clamp. unfold fits_int in Hfit.
    apply andb_true_iff in Hfit as [H1 H2].
    apply Z.leb_le in H1. apply Z.leb_le in H2.
    by rewrite (proj2 (Z.ltb_ge _ _) H1), (proj2 (Z.ltb_ge _ _) H2).
  - unfold reopen. cbn [os_written records flat_map app item_chars is_text
                         list_ascii_of_string].
    reflexivity.
  - constructor.
  - apply int_chars_literal.
  - reflexivity.
Qed.

Lemma restart_round_trip_witness :
  ∃ outStream inStream J2',
    serializeEntity Instance.jacobian {| os_good := true; os_written := [] |}
      Instance.vertex1 = Some (Returns, outStream, Instance.jacobian) ∧
    deserializeEntity
      (set_staticVertexDat
         [ {| phaseState := 0; wasSwitched := false; oldPhaseState := 2 |};
           {| phaseState := 2; wasSwitched := false; oldPhaseState := 0 |} ]
         Instance.jacobian)
      (reopen outStream) Instance.vertex1 = Some (Returns, inStream, J2') ∧
    staticVertexDat_ J2'
    = [ {| phaseState := 0; wasSwitched := false; oldPhaseState := 2 |};
        {| phaseState := 1; wasSwitched := false; oldPhaseState := 1 |} ].
Proof.
  destruct (restart_round_trip Instance.jacobian
              (set_staticVertexDat
                 [ {| phaseState := 0; wasSwitched := false; oldPhaseState := 2 |};
                   {| phaseState := 2; wasSwitched := false; oldPhaseState := 0 |} ]
                 Instance.jacobian)
              Instance.vertex1 _ _ [] eq_refl eq_refl eq_refl)
    as (outStream & Hwrite & _ & Hread).
  destruct (Hread eq_refl) as (inStream & J2' & Hcall & _ & _ & Hdat).
  exists outStream, inStream, J2'. split; [exact Hwrite|].
  split; [exact Hcall|exact Hdat].
Defined.

(** ** The masses in the domain *)

(** A loop whose iterations carry an invariant that counts them. *)
Lemma for_loop_invariant {A : Type} (Inv : nat → A → Prop) (n : nat)
    (body : nat → A → option A) (a : A) :
  Inv 0%nat a →
  (∀ i x, (i < n)%nat → Inv i x → ∃ x', body i x = Some x' ∧ Inv (S i) x') →
  ∃ a', for_loop n body a = Some a' ∧ Inv n a'.
Proof.
  intros H0 Hstep. unfold for_loop.
  induction n as [|n IH]; [by exists a|].
  destruct IH as (x & Hx & Hinv).
  { intros i y Hi. apply Hstep. lia. }
  rewrite seq_S, foldl_app. cbn [foldl plus]. rewrite Hx. cbn [mbind option_bind].
  apply Hstep; [lia|done].
Qed.

Lemma std_min_le_l (a b : Q) : std_min a b <= a.
Proof.
  unfold std_min. destruct (Qlt_bool b a) eqn:H; [|lra].
  apply Qlt_bool_true in H. lra.
Qed.

Lemma std_min_le_r (a b : Q) : std_min a b <= b.
Proof.
  unfold std_min. destruct (Qlt_bool b a) eqn:H; [lra|].
  by apply Qlt_bool_false in H.
Qed.

Lemma std_max_ge_l (a b : Q) : a <= std_max a b.
Proof.
  unfold std_max. destruct (Qlt_bool a b) eqn:H; [|lra].
  apply Qlt_bool_true in H. lra.
Qed.

Lemma std_max_ge_r (a b : Q) : b <= std_max a b.
Proof.
  unfold std_max. destruct (Qlt_bool a b) eqn:H; [lra|].
  by apply Qlt_bool_false in H.
Qed.

Section CalculateMassFacts.
Variable I : TwoPTwoCIndices.
Variable E : ElementMethods.

(** The loops of [calculateMass] end when the indices are in range, and
    carry every invariant that a visit of a vertex carries; the invariant
    may depend on the number of vertices visited. *)
Lemma mass_elements_invariant (Inv : nat → MassLocals → Prop) (J : Jacobian)
    (globalSol : SolutionFunction) (elements : list ElementView) :
  elements_in_range E J globalSol elements →
  (∀ k loc loc' elem curSol elemDat i,
     elem ∈ elements → (i < elem_numLocalVerts elem)%nat →
     mass_vertex I E J globalSol elem (updateElementData_ E elem curSol elemDat)
       i loc = Some loc' →
     Inv k loc → Inv (S k) loc') →
  ∀ curSol elemDat loc k,
    length (ml_mass loc) = 4%nat →
    Inv k loc →
    ∃ loc', mass_elements I E J globalSol elements curSol elemDat loc = Some loc' ∧
            length (ml_mass loc') = 4%nat ∧
            Inv (k + sum_list (elem_numLocalVerts <$> elements))%nat loc'.
Proof.
  induction elements as [|elem elements IH]; intros Hrange Hstep curSol elemDat loc k
    Hlen Hinv.
  - exists loc. cbn. by rewrite Nat.add_0_r.
  - cbn [mass_elements]. cbv zeta.
    set (cs := restrictToElement E elem globalSol curSol).
    set (ed := updateElementData_ E elem cs elemDat).
    destruct (Hrange elem) as [Hidx Hsize]; [by left|].
    destruct (for_loop_invariant
                (λ i l, length (ml_mass l) = 4%nat ∧ Inv (k + i)%nat l)
                (elem_numLocalVerts elem)
                (mass_vertex I E J globalSol elem ed) loc)
      as (loc1 & -> & Hlen1 & Hinv1).
    { split; [done|]. by rewrite Nat.add_0_r. }
    { intros i l Hi [Hl Hl']. destruct (Hidx i Hi) as [Hst Hsol].
      destruct (lookup_lt_is_Some_2 _ _ Hst) as [d Hd].
      destruct (lookup_lt_is_Some_2 _ _ Hsol) as [sol Hs].
      destruct (lookup_lt_is_Some_2 ed i) as [vd Hvd];
        [pose proof (Hsize cs elemDat); unfold ed; lia|].
      destruct (ml_mass l) as [|m0 [|m1 [|m2 [|m3 [|? ?]]]]] eqn:Hm;
        try discriminate Hl.
      assert (Hrun : ∃ l', mass_vertex I E J globalSol elem ed i l = Some l' ∧
                           length (ml_mass l') = 4%nat).
      { unfold mass_vertex. cbv zeta. rewrite Hd. cbn [mbind option_bind].
        rewrite Hvd. cbn [mbind option_bind]. rewrite Hs, Hm.
        unfold fv_add_at. fv_step. eexists. split; [reflexivity|done]. }
      destruct Hrun as (l' & Hl'eq & Hl'len). exists l'. split; [done|].
      split; [done|]. rewrite Nat.add_succ_r.
      eapply (Hstep _ l l' elem cs elemDat i); [by left|done|exact Hl'eq|done]. }
    cbn [mbind option_bind].
    destruct (IH (λ e He, Hrange e (list_elem_of_further _ _ _ He))
                 (λ k0 l l' e c d i He, Hstep k0 l l' e c d i
                                          (list_elem_of_further _ _ _ He))
                 cs ed loc1 (k + elem_numLocalVerts elem)%nat Hlen1 Hinv1)
      as (loc' & -> & Hlen' & Hinv').
    exists loc'. split; [done|]. split; [done|].
    rewrite fmap_cons. cbn [sum_list sum_list_with]. by rewrite Nat.add_assoc.
Qed.
End CalculateMassFacts.

Section CalculateMassTheorems.
Variable I : TwoPTwoCIndices.
Variable E : ElementMethods.

(** A visit of a vertex that returns has read its data and added the
    four masses of its sub-control volume. *)
Lemma mass_vertex_inv (J : Jacobian) (globalSol : SolutionFunction)
    (elem : ElementView) (elemDat : VertexDataArray) (i : nat)
    (loc loc' : MassLocals) :
  mass_vertex I E J globalSol elem elemDat i loc = Some loc' →
  ∃ vd sol m0 m1 m2 m3 rest,
    elemDat !! i = Some vd ∧
    globalSol !! elem_vertexIdx elem i = Some sol ∧
    ml_mass loc = m0 :: m1 :: m2 :: m3 :: rest ∧
    let vol := elem_volume elem i in
    let poro := elem_porosity elem i in
    let satN := saturation vd (nPhase I) in
    let satW := saturation vd (wPhase I) in
    let rhoN := density vd (nPhase I) in
    let rhoW := density vd (wPhase I) in
    loc' =
    {| ml_mass :=
         (m0 + vol * poro * (satN * rhoN * massfrac vd (nComp I) (nPhase I)
                             + satW * rhoW * massfrac vd (nComp I) (wPhase I)))
         :: (m1 + vol * poro * satN * rhoN * massfrac vd (nComp I) (nPhase I))
         :: (m2 + vol * poro * (satW * rhoW * massfrac vd (wComp I) (wPhase I)
                                + satN * rhoN * massfrac vd (wComp I) (nPhase I)))
         :: (m3 + vol * poro * satW * rhoW * massfrac vd (wComp I) (wPhase I))
         :: rest;
       minSat := std_min (minSat loc) satN; maxSat := std_max (maxSat loc) satN;
       minP := std_min (minP loc) (pressure vd (wPhase I));
       maxP := std_max (maxP loc) (pressure vd (wPhase I));
       minTe := std_min (minTe loc) (temperature_ E sol);
       maxTe := std_max (maxTe loc) (temperature_ E sol);
       minX := std_min (minX loc) (massfrac vd (nComp I) (wPhase I));
       maxX := std_max (maxX loc) (massfrac vd (nComp I) (wPhase I)) |}.
Proof.
  unfold mass_vertex. cbv zeta. intros H.
  destruct (staticVertexDat_ J !! elem_vertexIdx elem i) as [d|]; [|done].
  cbn [mbind option_bind] in H.
  destruct (elemDat !! i) as [vd|]; [|done]. cbn [mbind option_bind] in H.
  destruct (globalSol !! elem_vertexIdx elem i) as [sol|]; [|done].
  cbn [mbind option_bind] in H.
  destruct (ml_mass loc) as [|m0 [|m1 [|m2 [|m3 rest]]]];
    unfold fv_add_at in H; try done.
  cbn [mbind option_bind lookup list_lookup insert list_insert] in H.
  injection H as <-.
  by exists vd, sol, m0, m1, m2, m3, rest.
Qed.


(** X16: when no element has a vertex, [calculateMass] returns the zero
    masses and prints the initial extrema, a minimum of [1e100] above a
    maximum of [-1e100]; when some element has a vertex, each printed
    minimum is at most the printed maximum. *)
Theorem calculateMass_extrema (J : Jacobian) (elements : list ElementView)
    (globalSol : SolutionFunction) (mass : FieldVector) :
  length mass = 4%nat →
  elements_in_range E J globalSol elements →
  ∃ loc,
    calculateMass I E J elements globalSol mass = Some loc ∧
    (sum_list (elem_numLocalVerts <$> elements) = 0%nat →
     loc = mass_locals_start) ∧
    ((0 < sum_list (elem_numLocalVerts <$> elements))%nat →
     minSat loc <= maxSat loc ∧ minP loc <= maxP loc ∧
     minTe loc <= maxTe loc ∧ minX loc <= maxX loc).
Proof.
  intros Hlen Hrange.
  destruct (mass_elements_invariant I E
              (λ k loc, match k with
                        | O => loc = mass_locals_start
                        | S _ => minSat loc <= maxSat loc ∧ minP loc <= maxP loc ∧
                                 minTe loc <= maxTe loc ∧ minX loc <= maxX loc
                        end)
              J globalSol elements Hrange)
    with (curSol := fresh_curSol E) (elemDat := fresh_elemDat E)
         (loc := mass_locals_start) (k := 0%nat)
    as (loc & Hrun & _ & Hinv).
  - intros k loc loc' elem cs ed i _ _ Hvisit _.
    destruct (mass_vertex_inv _ _ _ _ _ _ _ Hvisit)
      as (vd & sol & n0 & n1 & n2 & n3 & rest & _ & _ & _ & ->).
    cbv zeta. cbn [minSat maxSat minP maxP minTe maxTe minX maxX].
    repeat split; (eapply Qle_trans; [apply std_min_le_r|apply std_max_ge_r]).
  - reflexivity.
  - reflexivity.
  - exists loc. split.
    { unfold calculateMass, fv_assign_zero. cbv zeta. rewrite Hlen. exact Hrun. }
    cbn [plus] in Hinv.
    destruct (sum_list (elem_numLocalVerts <$> elements)) as [|n];
      split; try done; lia.
Qed.
End CalculateMassTheorems.

Lemma mass_instance_in_range :
  elements_in_range MassInstance.methods Instance.jacobian Instance.solution
    [MassInstance.element].
Proof.
  intros elem Helem. apply list_elem_of_singleton in Helem as ->.
  split; [|intros; cbn; lia]. intros i Hi. cbn in *. lia.
Defined.



Lemma calculateMass_extrema_witness :
  ∃ loc,
    calculateMass Instance.indices MassInstance.methods Instance.jacobian
      [MassInstance.element] Instance.solution [1; 2; 3; 4] = Some loc ∧
    minSat loc <= maxSat loc ∧
    calculateMass Instance.indices MassInstance.methods Instance.jacobian
      [] Instance.solution [1; 2; 3; 4] = Some mass_locals_start.
Proof.
  destruct (calculateMass_extrema Instance.indices MassInstance.methods
              Instance.jacobian [MassInstance.element] Instance.solution
              [1; 2; 3; 4] eq_refl mass_instance_in_range)
    as (loc & Hrun & _ & Hord).
  exists loc. split; [exact Hrun|].
  split; [apply Hord; cbn; lia|].
  destruct (calculateMass_extrema Instance.indices MassInstance.methods
              Instance.jacobian [] Instance.solution [1; 2; 3; 4] eq_refl)
    as (loc0 & Hrun0 & Hstart & _).
  - intros elem Helem. by apply elem_of_nil in Helem.
  - rewrite Hrun0. f_equal. by apply Hstart.
Defined.

Lemma Qsum_snoc (l : list Q) (x : Q) : Qsum (l ++ [x]) == Qsum l + x.
Proof.
  unfold Qsum. induction l as [|y l IH]; cbn [foldr app]; [ring|].
  rewrite IH. ring.
Qed.

Lemma Qsum_ext (f g : nat → Q) (n : nat) :
  (∀ i, (i < n)%nat → f i == g i) →
  Qsum (f <$> seq 0 n) == Qsum (g <$> seq 0 n).
Proof.
  induction n as [|n IH]; intros H; [reflexivity|].
  rewrite seq_S, !fmap_app. cbn [plus fmap list_fmap].
  rewrite !Qsum_snoc, IH by (intros i Hi; apply H; lia).
  rewrite (H n) by lia. reflexivity.
Qed.

Section MassAndStorage.
Variable I : TwoPTwoCIndices.
Variable E : ElementMethods.

(** The storage term in closed form, for the component [c]. *)
Lemma storage_of_closed (J : Jacobian) (i : nat) (vd : VertexData) (c : nat) :
  mass_slots_ok I 0 1 →
  curElemDat_ J !! i = Some vd → (c < numComponents)%nat →
  storage_of I J i c
  = (0 + density vd 0 * saturation vd 0 * massfrac vd c 0
       + density vd 1 * saturation vd 1 * massfrac vd c 1) * porosity vd.
Proof.
  intros Hslots Hvd Hc. unfold storage_of.
  destruct (computeStorage_entries I J [0; 0] i false vd Hslots eq_refl Hvd)
    as (storage & -> & Hent).
  cbn [mbind option_bind]. by rewrite (Hent c Hc).
Qed.

(** X17: the masses of [calculateMass] and the storage term.
    [calculateMass] does not read the current element data of the object
    nor the porosity in them: it updates element data of its own and
    asks the problem for the porosity. With these data in the place of
    the current element data ([mass_view]), the total mass of a
    component over an element is the sum over the sub-control volumes
    of the volume times the storage term that [computeStorage] returns
    for the component. With the object as it is, the same holds when
    the current element data are the ones that the update returns for
    the element, and the porosities of the problem are those of the
    element data. The indices of the element are in range, the two
    balances are the entries 0 and 1, and the phases are 0 and 1. *)
Theorem calculateMass_is_storage (J : Jacobian) (elem : ElementView)
    (globalSol : SolutionFunction) (mass : FieldVector) :
  length mass = 4%nat →
  elements_in_range E J globalSol [elem] →
  mass_slots_ok I 0 1 →
  (wPhase I = 0 ∧ nPhase I = 1)%nat ∨ (wPhase I = 1 ∧ nPhase I = 0)%nat →
  (wComp I < numComponents)%nat → (nComp I < numComponents)%nat →
  ∃ loc m0 m1 m2 m3,
    calculateMass I E J [elem] globalSol mass = Some loc ∧
    ml_mass loc = [m0; m1; m2; m3] ∧
    m0 == Qsum ((λ i, elem_volume elem i
                      * storage_of I (mass_view E J elem globalSol) i (nComp I))
                  <$> seq 0 (elem_numLocalVerts elem)) ∧
    m2 == Qsum ((λ i, elem_volume elem i
                      * storage_of I (mass_view E J elem globalSol) i (wComp I))
                  <$> seq 0 (elem_numLocalVerts elem)) ∧
    (updateElementData_ E elem
       (restrictToElement E elem globalSol (fresh_curSol E)) (fresh_elemDat E)
     = curElemDat_ J →
     (∀ i vd, curElemDat_ J !! i = Some vd → elem_porosity elem i == porosity vd) →
     m0 == Qsum ((λ i, elem_volume elem i * storage_of I J i (nComp I))
                   <$> seq 0 (elem_numLocalVerts elem)) ∧
     m2 == Qsum ((λ i, elem_volume elem i * storage_of I J i (wComp I))
                   <$> seq 0 (elem_numLocalVerts elem))).
Proof.
  intros Hlen Hrange Hslots Hphase Hwc Hnc.
  destruct (Hrange elem) as [Hidx Hsize]; [by left|].
  set (elemDat := updateElementData_ E elem
                    (restrictToElement E elem globalSol (fresh_curSol E))
                    (fresh_elemDat E)).
  assert (Hview : ∀ i vd c, elemDat !! i = Some vd → (c < numComponents)%nat →
            storage_of I (mass_view E J elem globalSol) i c
            = (0 + density vd 0 * saturation vd 0 * massfrac vd c 0
                 + density vd 1 * saturation vd 1 * massfrac vd c 1)
              * elem_porosity elem i).
  { intros i vd c Hvd Hc.
    rewrite (storage_of_closed (mass_view E J elem globalSol) i
               (set_porosity (elem_porosity elem i) vd) c Hslots); [done| |done].
    unfold mass_view. cbv zeta. cbn [curElemDat_ set_curElemDat].
    fold elemDat. by rewrite list_lookup_imap, Hvd. }
  unfold calculateMass, fv_assign_zero. cbv zeta. rewrite Hlen.
  cbn [replicate mass_elements]. cbv zeta. fold elemDat.
  destruct (for_loop_invariant
              (λ i l, ∃ m0 m1 m2 m3, ml_mass l = [m0; m1; m2; m3] ∧
                 m0 == Qsum ((λ i, elem_volume elem i
                                   * storage_of I (mass_view E J elem globalSol)
                                       i (nComp I))
                               <$> seq 0 i) ∧
                 m2 == Qsum ((λ i, elem_volume elem i
                                   * storage_of I (mass_view E J elem globalSol)
                                       i (wComp I))
                               <$> seq 0 i))
              (elem_numLocalVerts elem)
              (mass_vertex I E J globalSol elem elemDat)
              {| ml_mass := [0; 0; 0; 0];
                 minSat := inject_Z (10 ^ 100); maxSat := - inject_Z (10 ^ 100);
                 minP := inject_Z (10 ^ 100); maxP := - inject_Z (10 ^ 100);
                 minTe := inject_Z (10 ^ 100); maxTe := - inject_Z (10 ^ 100);
                 minX := inject_Z (10 ^ 100); maxX := - inject_Z (10 ^ 100) |})
    as (loc & -> & m0 & m1 & m2 & m3 & Hm & H0 & H2).
  - exists 0, 0, 0, 0. by cbn.
  - intros i l Hi (m0 & m1 & m2 & m3 & Hm & H0 & H2).
    destruct (Hidx i Hi) as [Hstat Hsol].
    destruct (lookup_lt_is_Some_2 _ _ Hstat) as [d Hd].
    destruct (lookup_lt_is_Some_2 _ _ Hsol) as [sol Hs].
    destruct (lookup_lt_is_Some_2 elemDat i) as [vd Hvd].
    { pose proof (Hsize (restrictToElement E elem globalSol (fresh_curSol E))
                    (fresh_elemDat E)) as Hn. fold elemDat in Hn. lia. }
    unfold mass_vertex. cbv zeta. rewrite Hd. cbn [mbind option_bind].
    rewrite Hvd. cbn [mbind option_bind]. rewrite Hs, Hm.
    unfold fv_add_at.
    cbn [mbind option_bind lookup list_lookup insert list_insert].
    eexists. split; [reflexivity|].
    eexists _, _, _, _. split; [reflexivity|].
    rewrite seq_S, !fmap_app. cbn [plus fmap list_fmap].
    rewrite !Qsum_snoc, <- H0, <- H2.
    rewrite (Hview i vd (nComp I) Hvd Hnc), (Hview i vd (wComp I) Hvd Hwc).
    destruct Hphase as [[-> ->]|[-> ->]]; split; ring.
  - cbn [mbind option_bind]. exists loc, m0, m1, m2, m3.
    split; [done|]. split; [done|]. split; [done|]. split; [done|].
    intros Hdat Hporo. fold elemDat in Hdat.
    assert (Hsame : ∀ c, (c < numComponents)%nat →
              ∀ i, (i < elem_numLocalVerts elem)%nat →
                elem_volume elem i * storage_of I (mass_view E J elem globalSol) i c
                == elem_volume elem i * storage_of I J i c).
    { intros c Hc i Hi.
      destruct (lookup_lt_is_Some_2 elemDat i) as [vd Hvd].
      { pose proof (Hsize (restrictToElement E elem globalSol (fresh_curSol E))
                      (fresh_elemDat E)) as Hn. fold elemDat in Hn. lia. }
      rewrite (Hview i vd c Hvd Hc).
      rewrite Hdat in Hvd.
      rewrite (storage_of_closed J i vd c Hslots Hvd Hc).
      by rewrite (Hporo i vd Hvd). }
    split.
    + rewrite H0. apply Qsum_ext. exact (Hsame (nComp I) Hnc).
    + rewrite H2. apply Qsum_ext. exact (Hsame (wComp I) Hwc).
Qed.
End MassAndStorage.

Lemma calculateMass_is_storage_witness :
  (∃ loc m0 m1 m2 m3,
     calculateMass Instance.indices MassInstance.methods Instance.jacobian
       [MassInstance.element] Instance.solution [0; 0; 0; 0] = Some loc ∧
     ml_mass loc = [m0; m1; m2; m3] ∧
     m2 == (1 # 2) * storage_of Instance.indices Instance.jacobian 0 0
           + (1 # 2) * storage_of Instance.indices Instance.jacobian 1 0 ∧
     m2 == 1856277 # 10000) ∧
  (∃ loc m0 m1 m2 m3,
     calculateMass Instance.indices MassInstance.methods Instance.jacobian
       [ {| elem_numLocalVerts := 2; elem_vertexIdx := λ i, i;
            elem_volume := λ _, 1 # 2; elem_porosity := λ _, 1 # 5 |} ]
       Instance.solution [0; 0; 0; 0] = Some loc ∧
     ml_mass loc = [m0; m1; m2; m3] ∧
     m2 == 1237518 # 10000).
Proof.
  split.
  - destruct (calculateMass_is_storage Instance.indices MassInstance.methods
                Instance.jacobian MassInstance.element Instance.solution
                [0; 0; 0; 0] eq_refl mass_instance_in_range instance_mass_slots)
      as (loc & m0 & m1 & m2 & m3 & Hrun & Hm & _ & _ & Hobj).
    + left. by split.
    + cbn. unfold numComponents. lia.
    + cbn. unfold numComponents. lia.
    + destruct Hobj as [_ H2]; [reflexivity| |].
      { intros [|[|i]] vd Hvd; cbn in Hvd; [| |discriminate Hvd];
          injection Hvd as <-; q_closed. }
      exists loc, m0, m1, m2, m3. split; [exact Hrun|]. split; [exact Hm|].
      assert (H2' : m2 == (1 # 2) * storage_of Instance.indices Instance.jacobian 0 0
                          + (1 # 2) * storage_of Instance.indices Instance.jacobian 1 0).
      { rewrite H2. unfold Qsum.
        cbn [seq fmap list_fmap foldr elem_numLocalVerts MassInstance.element
             elem_volume wComp Instance.indices].
        ring. }
      split; [exact H2'|]. rewrite H2'. q_closed.
  - destruct (calculateMass_is_storage Instance.indices MassInstance.methods
                Instance.jacobian
                {| elem_numLocalVerts := 2; elem_vertexIdx := λ i, i;
                   elem_volume := λ _, 1 # 2; elem_porosity := λ _, 1 # 5 |}
                Instance.solution [0; 0; 0; 0] eq_refl)
      as (loc & m0 & m1 & m2 & m3 & Hrun & Hm & _ & H2 & _).
    + intros elem Helem. apply list_elem_of_singleton in Helem as ->.
      split; [|intros; cbn; lia]. intros i Hi. cbn in *. lia.
    + exact instance_mass_slots.
    + left. by split.
    + cbn. unfold numComponents. lia.
    + cbn. unfold numComponents. lia.
    + exists loc, m0, m1, m2, m3. split; [exact Hrun|]. split; [exact Hm|].
      rewrite H2. q_closed.
Defined.

(** * Properties of the base class of the sequential problems *)

Module IMPETProblemFacts.
Import IMPETProblem.

(** X18: for an output interval set with [setOutputInterval],
    [shouldWriteOutput] is true exactly when the simulation will be
    finished, or the episode will be over, or the index of the time step
    is a multiple of a positive interval, respectively zero for an
    interval that is not positive. In particular the time step with the
    index 0 is always written, and no remainder by zero is taken. *)
Theorem shouldWriteOutput_spec (interval : Z) (timeManager : TimeManager) :
  (shouldWriteOutput (setOutputInterval interval) timeManager = true ↔
   willBeFinished timeManager = true ∨
   episodeWillBeOver timeManager = true ∨
   (if decide (0 < interval)%Z
    then (interval | timeStepIndex timeManager)%Z
    else timeStepIndex timeManager = 0%Z)) ∧
  (timeStepIndex timeManager = 0%Z →
   shouldWriteOutput (setOutputInterval interval) timeManager = true).
Proof.
  assert (Hiff : shouldWriteOutput (setOutputInterval interval) timeManager = true ↔
                 willBeFinished timeManager = true ∨
                 episodeWillBeOver timeManager = true ∨
                 (if decide (0 < interval)%Z
                  then (interval | timeStepIndex timeManager)%Z
                  else timeStepIndex timeManager = 0%Z)).
  { unfold shouldWriteOutput, setOutputInterval.
    destruct (decide (0 < interval)%Z) as [Hpos|Hneg].
    - rewrite Z.max_l by lia.
      destruct (Z.gtb_spec interval 0) as [_|Hle]; [|lia].
      rewrite <- (Z.rem_divide _ interval) by lia. rewrite <- Z.eqb_eq.
      destruct (Z.rem _ _ =? 0)%Z, (willBeFinished timeManager),
        (episodeWillBeOver timeManager); cbn; intuition discriminate.
    - rewrite Z.max_r by lia. cbn [Z.gtb Z.compare]. rewrite <- Z.eqb_eq.
      destruct (timeStepIndex timeManager =? 0)%Z, (willBeFinished timeManager),
        (episodeWillBeOver timeManager); cbn; intuition discriminate. }
  split; [exact Hiff|]. intros Hzero. apply Hiff. right. right.
  rewrite Hzero. destruct (decide _); [apply Z.divide_0_r|done].
Qed.

Lemma shouldWriteOutput_spec_witness :
  shouldWriteOutput (setOutputInterval 5)
    {| timeStepIndex := 10; willBeFinished := false; episodeWillBeOver := false |}
  = true ∧
  shouldWriteOutput (setOutputInterval (-3))
    {| timeStepIndex := 0; willBeFinished := false; episodeWillBeOver := false |}
  = true.
Proof.
  split.
  - apply (proj1 (shouldWriteOutput_spec 5 _)). right. right.
    cbn. by exists 2%Z.
  - by apply (proj2 (shouldWriteOutput_spec (-3) _)).
Defined.

(** X19: [shouldWriteRestartFile] is false for a time step index that is
    not positive. For a positive index and an output interval set with
    [setOutputInterval]: with an interval that is not positive the
    remainder is taken by zero, and the result is undefined; with a
    positive interval whose hundredfold is an [int], the result is true
    exactly at the multiples of a hundred times the interval; beyond
    that the product overflows. *)
Theorem shouldWriteRestartFile_spec (interval : Z) (timeManager : TimeManager) :
  let outputInterval_ := setOutputInterval interval in
  ((timeStepIndex timeManager ≤ 0)%Z →
   shouldWriteRestartFile outputInterval_ timeManager = Some false) ∧
  ((0 < timeStepIndex timeManager)%Z → (interval ≤ 0)%Z →
   shouldWriteRestartFile outputInterval_ timeManager = None) ∧
  ((0 < timeStepIndex timeManager)%Z → (0 < interval)%Z →
   (100 * interval ≤ int_max)%Z →
   ∃ b, shouldWriteRestartFile outputInterval_ timeManager = Some b ∧
        (b = true ↔ (100 * interval | timeStepIndex timeManager)%Z)) ∧
  ((0 < timeStepIndex timeManager)%Z → (int_max < 100 * interval)%Z →
   shouldWriteRestartFile outputInterval_ timeManager = None).
Proof.
  cbv zeta. unfold shouldWriteRestartFile, setOutputInterval, in_int,
    int_min, int_max.
  repeat split.
  - intros Hidx. destruct (Z.gtb_spec (timeStepIndex timeManager) 0); [lia|done].
  - intros Hidx Hint. destruct (Z.gtb_spec (timeStepIndex timeManager) 0); [|lia].
    by rewrite Z.max_r by lia.
  - intros Hidx Hint Hmax. destruct (Z.gtb_spec (timeStepIndex timeManager) 0); [|lia].
    rewrite Z.max_l by lia. cbv zeta.
    destruct (Z.leb_spec (- 2 ^ 31) (100 * interval)); [|lia].
    destruct (Z.leb_spec (100 * interval) (2 ^ 31 - 1)); [|lia].
    cbn [andb negb]. destruct (Z.eqb_spec (100 * interval) 0); [lia|].
    eexists. split; [reflexivity|].
    rewrite Z.eqb_eq. apply Z.rem_divide. lia.
  - intros Hidx Hmax. destruct (Z.gtb_spec (timeStepIndex timeManager) 0); [|lia].
    rewrite Z.max_l by lia. cbv zeta.
    destruct (Z.leb_spec (100 * interval) (2 ^ 31 - 1)); [lia|].
    by rewrite andb_false_r.
Qed.

Lemma shouldWriteRestartFile_spec_witness :
  shouldWriteRestartFile (setOutputInterval 0)
    {| timeStepIndex := 7; willBeFinished := false; episodeWillBeOver := false |}
  = None ∧
  shouldWriteRestartFile (setOutputInterval 1)
    {| timeStepIndex := 300; willBeFinished := false; episodeWillBeOver := false |}
  = Some true.
Proof.
  split.
  - destruct (shouldWriteRestartFile_spec 0
                {| timeStepIndex := 7; willBeFinished := false;
                   episodeWillBeOver := false |}) as (_ & Hzero & _).
    apply Hzero; cbn; lia.
  - destruct (shouldWriteRestartFile_spec 1
                {| timeStepIndex := 300; willBeFinished := false;
                   episodeWillBeOver := false |}) as (_ & _ & Hpos & _).
    destruct Hpos as (b & -> & Hb); [cbn; lia|lia|unfold int_max; lia|].
    f_equal. apply Hb. by exists 3%Z.
Defined.

End IMPETProblemFacts.

Module BoundingBoxFacts.
Import IMPETProblem.

(** The loop over the coordinates for one vertex. *)
Lemma bbox_vertex_spec (dim : nat) (center : GlobalPosition)
    (lo hi : FieldVector) :
  (dim ≤ length center)%nat → (dim ≤ length lo)%nat → (dim ≤ length hi)%nat →
  ∃ lo' hi',
    bbox_vertex dim center (lo, hi) = Some (lo', hi') ∧
    length lo' = length lo ∧ length hi' = length hi ∧
    ∀ i, if decide (i < dim)%nat
         then ∃ c l h, center !! i = Some c ∧ lo !! i = Some l ∧ hi !! i = Some h ∧
                       lo' !! i = Some (std_min l c) ∧
                       hi' !! i = Some (std_max h c)
         else lo' !! i = lo !! i ∧ hi' !! i = hi !! i.
Proof.
  intros Hc Hlo Hhi. unfold bbox_vertex.
  destruct (for_loop_invariant
              (λ k box,
                 length (fst box) = length lo ∧ length (snd box) = length hi ∧
                 ∀ i, if decide (i < k)%nat
                      then ∃ c l h, center !! i = Some c ∧ lo !! i = Some l ∧
                                    hi !! i = Some h ∧
                                    fst box !! i = Some (std_min l c) ∧
                                    snd box !! i = Some (std_max h c)
                      else fst box !! i = lo !! i ∧ snd box !! i = hi !! i)
              dim
              (λ i box,
                 c ← center !! i; l ← fst box !! i; h ← snd box !! i;
                 Some (<[i := std_min l c]> (fst box), <[i := std_max h c]> (snd box)))
              (lo, hi))
    as ([lo' hi'] & Hrun & Hl & Hh & Hall).
  - cbn [fst snd]. split; [done|]. split; [done|]. intros i.
    by rewrite decide_False by lia.
  - intros k [blo bhi] Hk (Hl & Hh & Hall). cbn [fst snd] in *.
    destruct (lookup_lt_is_Some_2 center k) as [c Hck]; [lia|].
    pose proof (Hall k) as Hkk. rewrite decide_False in Hkk by lia.
    destruct Hkk as [Hlk Hhk].
    destruct (lookup_lt_is_Some_2 lo k) as [l Hl0]; [lia|].
    destruct (lookup_lt_is_Some_2 hi k) as [h Hh0]; [lia|].
    rewrite Hck, Hlk, Hhk, Hl0, Hh0. cbn [mbind option_bind].
    eexists. split; [reflexivity|]. cbn [fst snd].
    rewrite !length_insert. split; [done|]. split; [done|].
    intros i. specialize (Hall i).
    destruct (decide (i = k)) as [->|Hne].
    + rewrite decide_True by lia. exists c, l, h.
      rewrite !list_lookup_insert_eq by lia. by repeat split.
    + rewrite !list_lookup_insert_ne by done.
      destruct (decide (i < k)%nat); [rewrite decide_True by lia; done|].
      by rewrite decide_False by lia.
  - exists lo', hi'. by repeat split.
Qed.

(** The loop over the vertices keeps the bounding box of the centres seen
    so far. *)
Lemma bbox_fold (dim dimWorld : nat) (rest seen : list GlobalPosition)
    (lo hi : FieldVector) :
  (dim ≤ dimWorld)%nat →
  Forall (λ c, (dim ≤ length c)%nat) rest →
  is_bounding_box dim dimWorld seen lo hi →
  ∃ lo' hi',
    foldl (λ acc center, box ← acc; bbox_vertex dim center box)
      (Some (lo, hi)) rest = Some (lo', hi') ∧
    is_bounding_box dim dimWorld (seen ++ rest) lo' hi'.
Proof.
  intros Hdim. revert seen lo hi.
  induction rest as [|c rest IH]; intros seen lo hi Hrest Hbox.
  - exists lo, hi. by rewrite app_nil_r.
  - apply Forall_cons in Hrest as [Hc Hrest].
    destruct Hbox as (Hlo & Hhi & Hall).
    destruct (bbox_vertex_spec dim c lo hi) as (lo1 & hi1 & Hrun & Hl1 & Hh1 & Hstep);
      [lia..|].
    cbn [foldl mbind option_bind]. rewrite Hrun.
    destruct (IH (seen ++ [c]) lo1 hi1 Hrest) as (lo' & hi' & Hfold & Hbox').
    { split; [lia|]. split; [lia|]. intros i Hi.
      destruct (Hall i Hi) as (l & h & Hli & Hhi' & Hprop).
      specialize (Hstep i).
      destruct (decide (i < dim)%nat) as [Hlt|Hge].
      - destruct Hstep as (x & l0 & h0 & Hx & Hl0 & Hh0 & Hlo1 & Hhi1).
        assert (l0 = l) as -> by congruence. assert (h0 = h) as -> by congruence.
        destruct Hprop as (Henc & Hlatt & Hhatt).
        exists (std_min l x), (std_max h x). split; [done|]. split; [done|].
        split; [|split].
        + intros c' y Hc' Hy. apply elem_of_app in Hc' as [Hc'|Hc'].
          * destruct (Henc c' y Hc' Hy) as [H1 H2]. split.
            -- eapply Qle_trans; [apply std_min_le_l|done].
            -- eapply Qle_trans; [done|apply std_max_ge_l].
          * apply list_elem_of_singleton in Hc' as ->.
            assert (y = x) as -> by congruence.
            split; [apply std_min_le_r|apply std_max_ge_r].
        + unfold std_min. destruct (Qlt_bool x l).
          * right. exists c. split; [|done]. apply elem_of_app. right.
            by apply list_elem_of_singleton.
          * destruct Hlatt as [->|(c' & Hc' & Hl')]; [by left|].
            right. exists c'. split; [|done]. apply elem_of_app. by left.
        + unfold std_max. destruct (Qlt_bool h x).
          * right. exists c. split; [|done]. apply elem_of_app. right.
            by apply list_elem_of_singleton.
          * destruct Hhatt as [->|(c' & Hc' & Hh')]; [by left|].
            right. exists c'. split; [|done]. apply elem_of_app. by left.
      - destruct Hstep as [Hlo1 Hhi1]. exists l, h.
        rewrite Hlo1, Hhi1. by destruct Hprop. }
    exists lo', hi'. split; [done|]. by rewrite <- app_assoc in Hbox'.
Qed.

(** X20: the bounding box that the constructor computes: when every
    centre has [dim] coordinates, each of the first [dim] coordinates of
    [bboxMin_] is at most, and of [bboxMax_] at least, the coordinate of
    every vertex centre, and both are coordinates of some vertex centre
    unless they hold the largest double and its negative, as they do for
    a grid view without vertices and in the coordinates from [dim] on. *)
Theorem boundingBox_spec (dim dimWorld : nat) (centers : list GlobalPosition) :
  (dim ≤ dimWorld)%nat →
  Forall (λ c, (dim ≤ length c)%nat) centers →
  ∃ lo hi,
    boundingBox dim dimWorld centers = Some (lo, hi) ∧
    is_bounding_box dim dimWorld centers lo hi ∧
    (centers = [] →
     lo = replicate dimWorld double_max ∧ hi = replicate dimWorld (- double_max)).
Proof.
  intros Hdim Hc. unfold boundingBox.
  destruct (bbox_fold dim dimWorld centers []
              (replicate dimWorld double_max) (replicate dimWorld (- double_max))
              Hdim Hc) as (lo & hi & Hrun & Hbox).
  - split; [by rewrite length_replicate|]. split; [by rewrite length_replicate|].
    intros i Hi. exists double_max, (- double_max).
    rewrite !lookup_replicate_2 by done. split; [done|]. split; [done|].
    destruct (decide _); [|done]. split; [|by split; left].
    intros c x Hin. by apply elem_of_nil in Hin.
  - exists lo, hi. split; [exact Hrun|]. split; [exact Hbox|].
    intros ->. cbn in Hrun. by injection Hrun as <- <-.
Qed.

Lemma boundingBox_spec_witness :
  ∃ lo hi,
    boundingBox 2 2 [[0; 3]; [1; 0]; [4; 1 # 2]] = Some (lo, hi) ∧
    is_bounding_box 2 2 [[0; 3]; [1; 0]; [4; 1 # 2]] lo hi.
Proof.
  destruct (boundingBox_spec 2 2 [[0; 3]; [1; 0]; [4; 1 # 2]])
    as (lo & hi & Hrun & Hbox & _).
  - lia.
  - repeat constructor.
  - by exists lo, hi.
Defined.

End BoundingBoxFacts.

(** * Properties of the vector of the mass rates *)

Module TwoPRateVectorFacts.
Import TwoPRateVector.

(** X21: [setMolarRate] with a vector that holds the equations of all
    components sets the vector to the given rates, in which the rate of
    each component is multiplied by the molar mass of the component, and
    the entries of the other equations are taken over as they are; what
    the vector held before plays no role. *)
Theorem setMolarRate_spec (numComponents conti0EqIdx : nat)
    (molarMass : nat → Scalar) (value this : FieldVector) :
  (conti0EqIdx + numComponents ≤ length value)%nat →
  ∃ rate : FieldVector,
    setMolarRate numComponents conti0EqIdx molarMass value this = Some rate ∧
    length rate = length value ∧
    ∀ j, rate !! j
         = if decide (conti0EqIdx ≤ j < conti0EqIdx + numComponents)%nat
           then (λ x, x * molarMass (j - conti0EqIdx)%nat) <$> value !! j
           else value !! j.
Proof.
  intros Hlen. unfold setMolarRate, setMassRate.
  destruct (for_loop_invariant
              (λ k (l : list Q),
                 length l = length value ∧
                 ∀ j, l !! j
                      = if decide (conti0EqIdx ≤ j < conti0EqIdx + k)%nat
                        then (λ x, x * molarMass (j - conti0EqIdx)%nat) <$> value !! j
                        else value !! j)
              numComponents
              (λ compIdx massRate,
                 old ← massRate !! (conti0EqIdx + compIdx)%nat;
                 Some (<[(conti0EqIdx + compIdx)%nat := old * molarMass compIdx]>
                         massRate))
              value) as (rate & -> & Hl & Hall).
  - split; [done|]. intros j. by rewrite decide_False by lia.
  - intros k l Hk [Hl Hall].
    destruct (lookup_lt_is_Some_2 value (conti0EqIdx + k)) as [x Hx]; [lia|].
    pose proof (Hall (conti0EqIdx + k)%nat) as Hkk.
    rewrite decide_False in Hkk by lia. rewrite Hkk, Hx.
    cbn [mbind option_bind]. eexists. split; [reflexivity|].
    split; [by rewrite length_insert|]. intros j.
    destruct (decide (j = conti0EqIdx + k)%nat) as [->|Hne].
    + rewrite list_lookup_insert_eq by lia. rewrite decide_True by lia.
      rewrite Hx. cbn. do 3 f_equal. lia.
    + rewrite list_lookup_insert_ne by done. rewrite Hall.
      destruct (decide (conti0EqIdx ≤ j < conti0EqIdx + k)%nat);
        [by rewrite decide_True by lia|by rewrite decide_False by lia].
  - cbn [mbind option_bind]. by exists rate.
Qed.

Lemma setMolarRate_spec_witness :
  ∃ rate : FieldVector,
    setMolarRate 2 1 (λ compIdx, if (compIdx =? 0)%nat then 18 # 1000 else 29 # 1000)
      [5; 10; 100] [7; 7; 7] = Some rate ∧
    rate !! 0%nat = Some 5 ∧
    rate !! 2%nat = Some (100 * (29 # 1000)).
Proof.
  destruct (setMolarRate_spec 2 1
              (λ compIdx, if (compIdx =? 0)%nat then 18 # 1000 else 29 # 1000)
              [5; 10; 100] [7; 7; 7]) as (rate & Hrun & _ & Hall); [cbn; lia|].
  exists rate. split; [exact Hrun|].
  split; [exact (Hall 0%nat)|exact (Hall 2%nat)].
Defined.

End TwoPRateVectorFacts.
